(** * digitalbazaar/cbor: a shallow embedding of the CBOR encoder and of the
    decoding helpers, with the properties of the specification.

    Layout of the file:
    - [Bytes]      big-endian byte strings, as [DataView] reads and writes them
    - [Num]        the host numbers: IEEE-754 binary64 on [spec_float]
    - [Util]       lib/util.js: parseCBORint, parseHalf, writeHalf
    - [Constants]  lib/constants.js
    - [Simple]     lib/Simple.js
    - [Tagged]     lib/Tagged.js: convert
    - [Enc]        lib/Encoder.js
    - [Dec]        the decoder, from the specification
    - theorems, one section per property. *)

From Stdlib Require Import ZArith Lia Bool List String Ascii.
From Stdlib Require Import Floats.SpecFloat.
From Stdlib Require Import DecimalString.
From stdpp Require Import base gmap.
Import ListNotations.

#[local] Set Warnings "-register-all".

#[local] Open Scope Z_scope.

(** ** Bytes and big-endian words *)

Module Bytes.

(** A byte is an integer in [0, 256); a [Uint8Array] is a list of bytes.
    Storing a number into a [Uint8Array] or through [DataView.setUintN]
    keeps its low bits. *)
Definition byte := Z.
Definition bytes := list Z.

Definition is_byte (b : Z) : Prop := 0 <= b < 256.

(** [be_bytes w v]: the [w]-byte big-endian form of [v mod 2^(8w)], what
    [DataView.setUint8/16/32] writes. *)
Fixpoint be_bytes (w : nat) (v : Z) : bytes :=
  match w with
  | O => []
  | S w' => (v / 2 ^ (8 * Z.of_nat w')) mod 256 :: be_bytes w' v
  end.

(** [be_value bs]: the unsigned big-endian value of [bs], what
    [DataView.getUint8/16/32] reads. *)
Definition be_value (bs : bytes) : Z :=
  fold_left (fun acc b => acc * 256 + b) bs 0.

End Bytes.
Import Bytes.

(** ** lib/constants.js *)

Module MT.
Definition POS_INT := 0.
Definition NEG_INT := 1.
Definition BYTE_STRING := 2.
Definition UTF8_STRING := 3.
Definition ARRAY := 4.
Definition MAP := 5.
Definition TAG := 6.
Definition SIMPLE_FLOAT := 7.
End MT.

Module TAG.
Definition DATE_STRING := 0.
Definition DATE_EPOCH := 1.
Definition POS_BIGINT := 2.
Definition NEG_BIGINT := 3.
Definition DECIMAL_FRAC := 4.
Definition SET := 258.
End TAG.

Module NUMBYTES.
Definition ZERO := 0.
Definition ONE := 24.
Definition TWO := 25.
Definition FOUR := 26.
Definition EIGHT := 27.
Definition INDEFINITE := 31.
End NUMBYTES.

Module SIMPLE.
Definition FALSE := 20.
Definition TRUE := 21.
Definition NULL := 22.
Definition UNDEFINED := 23.
End SIMPLE.

Definition MAX_SAFE_HIGH := 0x1fffff.
Definition SHIFT32 := 0x100000000.
Definition MAX_SAFE_INTEGER := 2 ^ 53 - 1.

Module BI.
Definition MINUS_ONE := -1.
Definition MAXINT32 := 0xffffffff.
Definition MAXINT64 := 0xffffffffffffffff.
Definition SHIFT32 := 0x100000000.
End BI.

Module BN.
Definition MAXINT32 := 0xffffffff.
Definition MAXINT64 := 0xffffffffffffffff.
Definition SHIFT32 := 0x100000000.
End BN.

(** The symbols of [SYMS]. *)
Inductive sym := SYM_NULL | SYM_UNDEFINED | SYM_PARENT | SYM_BREAK | SYM_STREAM.

(** ** Host numbers

    A JavaScript number is an IEEE-754 binary64 value.  It is modelled by
    the standard library's [spec_float] at precision 53 and maximal exponent
    1024, with the library's own arithmetic ([SFadd], [SFmul], ...), which
    rounds to nearest, ties to even.  A binary32 value (what [Math.fround]
    and [DataView.setFloat32] produce) is a [spec_float] at precision 24 and
    maximal exponent 128. *)

Module Num.

Definition number := spec_float.

Definition prec64 := 53.
Definition emax64 := 1024.
Definition prec32 := 24.
Definition emax32 := 128.

Definition valid (x : number) : bool := valid_binary prec64 emax64 x.

Definition NaN : number := S754_nan.
Definition Infinity : number := S754_infinity false.
Definition pos_zero : number := S754_zero false.
Definition neg_zero : number := S754_zero true.

(** The number nearest to the integer [n] (exact up to 2^53). *)
Definition of_Z (n : Z) : number := binary_normalize prec64 emax64 n 0 false.

(** The integer part of a number (its value when it is integral). *)
Definition to_Z (x : number) : Z :=
  match x with
  | S754_finite s m e =>
      let a := if 0 <=? e then Zpos m * 2 ^ e else Zpos m / 2 ^ (- e) in
      if s then - a else a
  | _ => 0
  end.

(** [2^k] as a number, for [Math.pow(2, k)]. *)
Definition pow2 (k : Z) : number := binary_round prec64 emax64 false 1 k.

Definition isNaN (x : number) : bool :=
  match x with S754_nan => true | _ => false end.

Definition isFinite (x : number) : bool :=
  match x with S754_nan | S754_infinity _ => false | _ => true end.

(** [Object.is(x, -0)] *)
Definition is_neg_zero (x : number) : bool :=
  match x with S754_zero true => true | _ => false end.

Definition opp : number -> number := SFopp.
Definition sub : number -> number -> number := SFsub prec64 emax64.
Definition mul : number -> number -> number := SFmul prec64 emax64.
(** [x === y], [x < y], [x <= y] on numbers *)
Definition eqb : number -> number -> bool := SFeqb.
Definition ltb : number -> number -> bool := SFltb.
Definition leb : number -> number -> bool := SFleb.

(** [Math.round]: the nearest integer, ties towards +Infinity; the sign of
    a zero result is the sign of the argument. *)
Definition Math_round (x : number) : number :=
  match x with
  | S754_finite s m e =>
      if 0 <=? e then x
      else
        let v := if s then Zneg m else Zpos m in
        let n := (2 * v + 2 ^ (- e)) / 2 ^ (- e + 1) in
        if n =? 0 then S754_zero s else of_Z n
  | _ => x
  end.

(** Rounding a number to binary32, and reading a binary32 back as a
    number (always exact). *)
Definition round32 (x : number) : spec_float :=
  match x with
  | S754_finite s m e => binary_round prec32 emax32 s m e
  | _ => x
  end.

Definition widen (f : spec_float) : number :=
  match f with
  | S754_finite s m e => binary_round prec64 emax64 s m e
  | _ => f
  end.

Definition Math_fround (x : number) : number := widen (round32 x).

(** *** Interchange formats

    [bits_of prec emax x] is the IEEE-754 bit pattern of [x] in the format
    with [prec - 1] stored mantissa bits and [log2 emax + 1] exponent
    bits; NaN is written as the quiet NaN with an empty payload. *)
Definition mant_bits (prec : Z) : Z := prec - 1.
Definition exp_bits (emax : Z) : Z := Z.log2 emax + 1.

Definition sign_bit (prec emax : Z) (s : bool) : Z :=
  if s then 2 ^ (mant_bits prec + exp_bits emax) else 0.

Definition bits_of (prec emax : Z) (x : spec_float) : Z :=
  let mw := mant_bits prec in
  let top := 2 ^ exp_bits emax - 1 in
  match x with
  | S754_zero s => sign_bit prec emax s
  | S754_infinity s => sign_bit prec emax s + top * 2 ^ mw
  | S754_nan => top * 2 ^ mw + 2 ^ (mw - 1)
  | S754_finite s m e =>
      sign_bit prec emax s +
      (if Zpos m <? 2 ^ mw then Zpos m
       else (e - emin prec emax + 1) * 2 ^ mw + (Zpos m - 2 ^ mw))
  end.

Definition of_bits (prec emax : Z) (b : Z) : spec_float :=
  let mw := mant_bits prec in
  let ew := exp_bits emax in
  let s := 2 ^ (mw + ew) <=? b in
  let E := (b / 2 ^ mw) mod 2 ^ ew in
  let M := b mod 2 ^ mw in
  if E =? 0 then
    match M with
    | Zpos m => S754_finite s m (emin prec emax)
    | _ => S754_zero s
    end
  else if E =? 2 ^ ew - 1 then
    if M =? 0 then S754_infinity s else S754_nan
  else
    match M + 2 ^ mw with
    | Zpos m => S754_finite s m (E - 1 + emin prec emax)
    | _ => S754_nan
    end.

(** [DataView.setFloat32(0, x)], [setFloat64], [getFloat32], [getFloat64] *)
Definition setFloat32 (x : number) : bytes :=
  be_bytes 4 (bits_of prec32 emax32 (round32 x)).
Definition setFloat64 (x : number) : bytes :=
  be_bytes 8 (bits_of prec64 emax64 x).
Definition getFloat32 (bs : bytes) : number :=
  widen (of_bits prec32 emax32 (be_value (take 4 bs))).
Definition getFloat64 (bs : bytes) : number :=
  of_bits prec64 emax64 (be_value (take 8 bs)).

(** [ToInt32], applied by JavaScript to the operands of [>>], [&], [|]. *)
Definition to_int32 (v : Z) : Z :=
  let r := v mod 2 ^ 32 in if r <? 2 ^ 31 then r else r - 2 ^ 32.

End Num.
Import Num.

(** ** lib/util.js *)

Module Util.

(** The value [parseCBORint] returns: a native number holding an integer
    (sums and products below 2^53 are exact), a [BigInt] or a
    [BigNumber]. *)
Inductive intval :=
| Native (n : Z)
| JSBigInt (n : Z)
| BigNum (n : Z).

(** [parseCBORint(ai, buf, bigInt = true)]; [inr] is the thrown error. *)
Definition parseCBORint (ai : Z) (buf : bytes) (bigInt : bool)
  : intval + string :=
  if ai =? NUMBYTES.ONE then inl (Native (be_value (take 1 buf)))
  else if ai =? NUMBYTES.TWO then inl (Native (be_value (take 2 buf)))
  else if ai =? NUMBYTES.FOUR then inl (Native (be_value (take 4 buf)))
  else if ai =? NUMBYTES.EIGHT then
    let f := be_value (take 4 buf) in
    let g := be_value (take 4 (drop 4 buf)) in
    if MAX_SAFE_HIGH <? f then
      if bigInt then inl (JSBigInt (f * BI.SHIFT32 + g))
      else inl (BigNum (f * SHIFT32 + g))
    else inl (Native (f * SHIFT32 + g))
  else inr "Invalid additional info for int"%string.

(** [parseHalf(buf)] *)
Definition parseHalf (buf : bytes) : number :=
  let b0 := nth 0 buf 0 in
  let b1 := nth 1 buf 0 in
  let sign := if Z.land b0 0x80 =? 0 then of_Z 1 else of_Z (-1) in
  let exp := Z.shiftr (Z.land b0 0x7C) 2 in
  let mant := Z.lor (Z.shiftl (Z.land b0 0x03) 8) b1 in
  if exp =? 0 then
    (* 5.9604644775390625e-8 is 2^-24 *)
    mul (mul sign (pow2 (-24))) (of_Z mant)
  else if exp =? 0x1f then
    (* 0 / 0 is NaN, the literal 2e308 is Infinity *)
    mul sign (if mant =? 0 then Infinity else NaN)
  else
    mul (mul sign (pow2 (exp - 25))) (of_Z (1024 + mant)).

(** [writeHalf(buf, half)]: the returned flag and the buffer afterwards. *)
Definition writeHalf (buf : bytes) (half : number) : bool * bytes :=
  let u := bits_of prec32 emax32 (round32 half) in
  if negb (Z.land (to_int32 u) 0x1FFF =? 0) then (false, buf)
  else
    let s16 := Z.land (Z.shiftr (to_int32 u) 16) 0x8000 in
    let exp := Z.land (Z.shiftr (to_int32 u) 23) 0xff in
    let mant := Z.land (to_int32 u) 0x7fffff in
    if (113 <=? exp) && (exp <=? 142) then
      (true, be_bytes 2 (s16 + (Z.shiftl (exp - 112) 10 + Z.shiftr mant 13))
               ++ drop 2 buf)
    else if (103 <=? exp) && (exp <? 113) then
      if negb (Z.land mant (Z.shiftl 1 (126 - exp) - 1) =? 0) then
        (false, buf)
      else
        (true, be_bytes 2 (s16 + Z.shiftr (mant + 0x800000) (126 - exp))
                 ++ drop 2 buf)
    else (false, buf).

(** [parseCBORfloat(buf)] *)
Definition parseCBORfloat (buf : bytes) : number + string :=
  match length buf with
  | 2%nat => inl (parseHalf buf)
  | 4%nat => inl (getFloat32 buf)
  | 8%nat => inl (getFloat64 buf)
  | _ => inr "Invalid float size"%string
  end.

End Util.

(** ** Host strings

    A JavaScript string is a sequence of UTF-16 code units.  [TextEncoder]
    and [TextDecoder] are host built-ins; they are modelled after the WHATWG
    Encoding standard: the encoder replaces a lone surrogate by U+FFFD, the
    decoder (created with [fatal: true, ignoreBOM: true]) refuses any
    ill-formed UTF-8 sequence. *)

Module Text.

Definition jsstring := list Z.

Definition is_high (u : Z) : bool := (0xD800 <=? u) && (u <=? 0xDBFF).
Definition is_low (u : Z) : bool := (0xDC00 <=? u) && (u <=? 0xDFFF).
Definition is_surrogate (u : Z) : bool := (0xD800 <=? u) && (u <=? 0xDFFF).

(** The scalar values of a string; a lone surrogate becomes U+FFFD. *)
Fixpoint code_points (s : jsstring) : list Z :=
  match s with
  | [] => []
  | u :: r =>
      if is_high u then
        match r with
        | l :: r' =>
            if is_low l
            then (0x10000 + (u - 0xD800) * 0x400 + (l - 0xDC00)) :: code_points r'
            else 0xFFFD :: code_points r
        | [] => [0xFFFD]
        end
      else if is_low u then 0xFFFD :: code_points r
      else u :: code_points r
  end.

Definition utf8_of_code_point (c : Z) : bytes :=
  if c <? 0x80 then [c]
  else if c <? 0x800 then [0xC0 + c / 64; 0x80 + c mod 64]
  else if c <? 0x10000 then
    [0xE0 + c / 4096; 0x80 + (c / 64) mod 64; 0x80 + c mod 64]
  else
    [0xF0 + c / 262144; 0x80 + (c / 4096) mod 64;
     0x80 + (c / 64) mod 64; 0x80 + c mod 64].

(** [new TextEncoder().encode(s)] *)
Definition TextEncoder_encode (s : jsstring) : bytes :=
  flat_map utf8_of_code_point (code_points s).

Definition is_cont (b : Z) : bool := (0x80 <=? b) && (b <=? 0xBF).

Definition units_of_code_point (c : Z) : jsstring :=
  if c <? 0x10000 then [c]
  else [0xD800 + (c - 0x10000) / 0x400; 0xDC00 + (c - 0x10000) mod 0x400].

(** [td.decode(buf)] for the fatal decoder; [None] is the [TypeError]. *)
Fixpoint TextDecoder_decode (bs : bytes) : option jsstring :=
  match bs with
  | [] => Some []
  | b0 :: r0 =>
      if (0 <=? b0) && (b0 <? 0x80) then
        option_map (cons b0) (TextDecoder_decode r0)
      else if (0xC2 <=? b0) && (b0 <=? 0xDF) then
        match r0 with
        | b1 :: r1 =>
            if is_cont b1 then
              option_map (cons ((b0 - 0xC0) * 64 + (b1 - 0x80)))
                         (TextDecoder_decode r1)
            else None
        | _ => None
        end
      else if (0xE0 <=? b0) && (b0 <=? 0xEF) then
        match r0 with
        | b1 :: b2 :: r2 =>
            let c := (b0 - 0xE0) * 4096 + (b1 - 0x80) * 64 + (b2 - 0x80) in
            if is_cont b1 && is_cont b2 && (0x800 <=? c)
               && negb (is_surrogate c) then
              option_map (cons c) (TextDecoder_decode r2)
            else None
        | _ => None
        end
      else if (0xF0 <=? b0) && (b0 <=? 0xF4) then
        match r0 with
        | b1 :: b2 :: b3 :: r3 =>
            let c := (b0 - 0xF0) * 262144 + (b1 - 0x80) * 4096
                     + (b2 - 0x80) * 64 + (b3 - 0x80) in
            if is_cont b1 && is_cont b2 && is_cont b3
               && (0x10000 <=? c) && (c <=? 0x10FFFF) then
              option_map (app (units_of_code_point c)) (TextDecoder_decode r3)
            else None
        | _ => None
        end
      else None
  end.

(** [s.slice(start, end)] on strings and typed arrays. *)
Definition slice {A} (s : list A) (start end_ : Z) : list A :=
  let len := Z.of_nat (length s) in
  let clamp i := if i <? 0 then Z.max (len + i) 0 else Z.min i len in
  let from := clamp start in
  let to := clamp end_ in
  firstn (Z.to_nat (to - from)) (skipn (Z.to_nat from) s).

(** A string without lone surrogates, each unit a 16-bit value. *)
Inductive well_formed : jsstring -> Prop :=
| wf_nil : well_formed []
| wf_unit u s :
    0 <= u < 0x10000 -> is_surrogate u = false ->
    well_formed s -> well_formed (u :: s)
| wf_pair h l s :
    is_high h = true -> is_low l = true ->
    well_formed s -> well_formed (h :: l :: s).

End Text.
Import Text.

(** ** lib/hex.js and the hexadecimal form of integers *)

Module Hex.

Definition digits : list ascii :=
  ["0"; "1"; "2"; "3"; "4"; "5"; "6"; "7";
   "8"; "9"; "a"; "b"; "c"; "d"; "e"; "f"]%char.

Definition digit_char (d : Z) : ascii := nth (Z.to_nat d) digits "0"%char.

(** The value of a hexadecimal digit, [None] for another character. *)
Definition digit_value (c : ascii) : option Z :=
  let n := Z.of_N (N_of_ascii c) in
  if (48 <=? n) && (n <=? 57) then Some (n - 48)
  else if (97 <=? n) && (n <=? 102) then Some (n - 87)
  else if (65 <=? n) && (n <=? 70) then Some (n - 55)
  else None.

(** [n.toString(16)] for [n >= 0]: most significant digit first, no
    leading zero, ["0"] for zero.  [fuel] bounds the number of digits. *)
Fixpoint toString16_loop (fuel : nat) (n : Z) (acc : list ascii) : list ascii :=
  match fuel with
  | O => acc
  | S fuel' =>
      if n <? 16 then digit_char n :: acc
      else toString16_loop fuel' (n / 16) (digit_char (n mod 16) :: acc)
  end.

Definition toString16 (n : Z) : list ascii :=
  toString16_loop (S (Z.to_nat (Z.log2 n))) n [].

(** [hex.decode(s)], that is [Buffer.from(s, 'hex')]: one byte per pair
    of digits, stopping at the first pair that is not hexadecimal. *)
Fixpoint decode (s : list ascii) : bytes :=
  match s with
  | a :: b :: r =>
      match digit_value a, digit_value b with
      | Some x, Some y => (16 * x + y) :: decode r
      | _, _ => []
      end
  | _ => []
  end.

End Hex.

(** ** lib/Encoder.js *)

Module Enc.

(** *** Host values

    Objects carry an identity [id]: two occurrences of the same object in
    a value have the same [id] (and the same contents).  The [WeakSet] of
    the loop detector holds identities. *)
Inductive value :=
| JNumber (x : number)
| JBigInt (z : Z)
| JString (s : jsstring)
| JBoolean (b : bool)
| JUndefined
| JNull
| JSymbol (s : sym)
| JFunction
| JArray (id : nat) (elems : list value)
| JMap (id : nat) (entries : list (value * value))
| JUint8Array (id : nat) (data : bytes)
| JObject (id : nat) (props : list (jsstring * value)).

(** [typeof v] *)
Inductive jstype :=
  T_number | T_bigint | T_string | T_boolean | T_undefined | T_object
| T_symbol | T_function.

Definition typeof (v : value) : jstype :=
  match v with
  | JNumber _ => T_number
  | JBigInt _ => T_bigint
  | JString _ => T_string
  | JBoolean _ => T_boolean
  | JUndefined => T_undefined
  | JSymbol _ => T_symbol
  | JFunction => T_function
  | JNull | JArray _ _ | JMap _ _ | JUint8Array _ _ | JObject _ _ => T_object
  end.

Definition is_undefined (v : value) : bool :=
  match v with JUndefined => true | _ => false end.
Definition is_function (v : value) : bool :=
  match v with JFunction => true | _ => false end.

(** *** The encoder object

    [stream] is the concatenation of the buffers pushed so far ([flush]
    concatenates them in order).  [detectLoops] is [None] for [false] and
    the [WeakSet] otherwise.  [encodeUndefined] is [None] for [undefined]
    and a buffer to splice otherwise (the function and other-value forms
    of the option are not modelled). *)
Record Encoder := mkEncoder {
  stream : bytes;
  canonical : bool;
  encodeUndefined : option bytes;
  disallowUndefinedKeys : bool;
  collapseBigIntegers : bool;
  detectLoops : option (gset nat);
  omitUndefinedProperties : bool
}.

Definition set_stream (bs : bytes) (e : Encoder) : Encoder :=
  mkEncoder bs (canonical e) (encodeUndefined e) (disallowUndefinedKeys e)
            (collapseBigIntegers e) (detectLoops e)
            (omitUndefinedProperties e).

Definition set_detectLoops (d : option (gset nat)) (e : Encoder) : Encoder :=
  mkEncoder (stream e) (canonical e) (encodeUndefined e)
            (disallowUndefinedKeys e) (collapseBigIntegers e) d
            (omitUndefinedProperties e).

(** The options of the constructor. *)
Inductive detect_option := DetectFalse | DetectTrue | DetectSet (ws : gset nat).

Record EncodingOptions := mkOptions {
  opt_canonical : bool;
  opt_encodeUndefined : option bytes;
  opt_disallowUndefinedKeys : bool;
  opt_collapseBigIntegers : bool;
  opt_detectLoops : detect_option;
  opt_omitUndefinedProperties : bool
}.

Definition default_options : EncodingOptions :=
  mkOptions false None false false DetectFalse false.

(** [new Encoder(options)] *)
Definition new_Encoder (o : EncodingOptions) : Encoder + string :=
  if opt_canonical o then inr "canonical mode not implemented."%string
  else
    inl (mkEncoder [] (opt_canonical o) (opt_encodeUndefined o)
           (opt_disallowUndefinedKeys o)
           (if opt_canonical o then true else opt_collapseBigIntegers o)
           (match opt_detectLoops o with
            | DetectFalse => None
            | DetectTrue => Some ∅
            | DetectSet ws => Some ws
            end)
           (opt_omitUndefinedProperties o)).

(** *** Methods run on the encoder: a state and exception monad

    A method either returns a value or throws; in both cases the encoder
    object keeps the changes made so far. *)
Inductive outcome (A : Type) :=
| Ret (a : A) (e : Encoder)
| Throw (msg : string) (e : Encoder).
Arguments Ret {A} a e.
Arguments Throw {A} msg e.

Definition M (A : Type) := Encoder -> outcome A.

Definition ret {A} (a : A) : M A := fun e => Ret a e.
Definition throw {A} (msg : string) : M A := fun e => Throw msg e.
Definition bind {A B} (m : M A) (k : A -> M B) : M B :=
  fun e => match m e with
           | Ret a e' => k a e'
           | Throw msg e' => Throw msg e'
           end.
Definition gets {A} (f : Encoder -> A) : M A := fun e => Ret (f e) e.

Notation "x <- m ;; k" := (bind m (fun x => k))
  (at level 100, m at next level, right associativity).

(** [a && b] on method calls *)
Definition and_then (a b : M bool) : M bool :=
  x <- a ;; if x then b else ret false.
Notation "a <&&> b" := (and_then a b) (at level 41, right associativity).

(** Loops over the elements of a host collection, stopping at the first
    [false]. *)
Definition for_each {A} (f : A -> M bool) : list A -> M bool :=
  fix go (l : list A) : M bool :=
    match l with
    | [] => ret true
    | x :: r => b <- f x ;; if b then go r else ret false
    end.

Definition HALF := Z.lor (Z.shiftl MT.SIMPLE_FLOAT 5) NUMBYTES.TWO.
Definition FLOAT := Z.lor (Z.shiftl MT.SIMPLE_FLOAT 5) NUMBYTES.FOUR.
Definition DOUBLE := Z.lor (Z.shiftl MT.SIMPLE_FLOAT 5) NUMBYTES.EIGHT.
Definition TRUE := Z.lor (Z.shiftl MT.SIMPLE_FLOAT 5) SIMPLE.TRUE.
Definition FALSE := Z.lor (Z.shiftl MT.SIMPLE_FLOAT 5) SIMPLE.FALSE.
Definition UNDEFINED := Z.lor (Z.shiftl MT.SIMPLE_FLOAT 5) SIMPLE.UNDEFINED.
Definition NULL := Z.lor (Z.shiftl MT.SIMPLE_FLOAT 5) SIMPLE.NULL.

Definition BREAK : bytes := [0xff].
Definition BUF_NAN : bytes := [0xf9; 0x7e; 0x00].
Definition BUF_INF_NEG : bytes := [0xf9; 0xfc; 0x00].
Definition BUF_INF_POS : bytes := [0xf9; 0x7c; 0x00].
Definition BUF_NEG_ZERO : bytes := [0xf9; 0x80; 0x00].

Definition push (buf : bytes) : M bool :=
  fun e => Ret true (set_stream (stream e ++ buf) e).

Definition _pushUInt8 (val : Z) : M bool := push (be_bytes 1 val).
Definition _pushUInt16BE (val : Z) : M bool := push (be_bytes 2 val).
Definition _pushUInt32BE (val : Z) : M bool := push (be_bytes 4 val).
Definition _pushFloatBE (val : number) : M bool := push (setFloat32 val).
Definition _pushDoubleBE (val : number) : M bool := push (setFloat64 val).

Definition _pushNaN : M bool := push BUF_NAN.

Definition _pushInfinity (obj : number) : M bool :=
  let half := if ltb obj pos_zero then BUF_INF_NEG else BUF_INF_POS in
  push half.

Definition _pushFloat (obj : number) : M bool :=
  c <- gets canonical ;;
  let '(ok, b2) := Util.writeHalf [0; 0] obj in
  if c && ok then _pushUInt8 HALF <&&> push b2
  else if eqb (Math_fround obj) obj then
    _pushUInt8 FLOAT <&&> _pushFloatBE obj
  else _pushUInt8 DOUBLE <&&> _pushDoubleBE obj.

(** [_pushInt(obj, mt, orig)].  [obj] is an integer-valued number at
    every call site and is carried as its integer value; a missing
    [orig] is passed as NaN, which [_pushFloat] treats like
    [undefined]. *)
Definition _pushInt (obj : Z) (mt : Z) (orig : number) : M bool :=
  let m := Z.shiftl mt 5 in
  if obj <? 24 then _pushUInt8 (Z.lor m obj)
  else if obj <=? 0xff then
    _pushUInt8 (Z.lor m NUMBYTES.ONE) <&&> _pushUInt8 obj
  else if obj <=? 0xffff then
    _pushUInt8 (Z.lor m NUMBYTES.TWO) <&&> _pushUInt16BE obj
  else if obj <=? 0xffffffff then
    _pushUInt8 (Z.lor m NUMBYTES.FOUR) <&&> _pushUInt32BE obj
  else if obj <=? MAX_SAFE_INTEGER then
    _pushUInt8 (Z.lor m NUMBYTES.EIGHT) <&&>
    _pushUInt32BE (obj / SHIFT32) <&&>
    _pushUInt32BE (Z.rem obj SHIFT32)
  else if mt =? MT.NEG_INT then _pushFloat orig
  else _pushFloat (of_Z obj).

Definition _pushIntNum (obj : number) : M bool :=
  if is_neg_zero obj then push BUF_NEG_ZERO
  else if ltb obj pos_zero then
    _pushInt (to_Z (sub (opp obj) (of_Z 1))) MT.NEG_INT obj
  else _pushInt (to_Z obj) MT.POS_INT NaN.

Definition _pushNumber (obj : number) : M bool :=
  if isNaN obj then _pushNaN
  else if negb (isFinite obj) then _pushInfinity obj
  else if eqb (Math_round obj) obj then _pushIntNum obj
  else _pushFloat obj.

Definition _pushString (obj : jsstring) : M bool :=
  let buf := TextEncoder_encode obj in
  _pushInt (Z.of_nat (length buf)) MT.UTF8_STRING NaN <&&> push buf.

Definition _pushBoolean (obj : bool) : M bool :=
  _pushUInt8 (if obj then TRUE else FALSE).

Definition _pushUndefined : M bool :=
  eu <- gets encodeUndefined ;;
  match eu with
  | None => _pushUInt8 UNDEFINED
  | Some buf => push buf
  end.

Definition _pushNull : M bool := _pushUInt8 NULL.

Definition _pushTag (tag : Z) : M bool := _pushInt tag MT.TAG NaN.

Definition _pushByteString (obj : bytes) : M bool :=
  _pushInt (Z.of_nat (length obj)) MT.BYTE_STRING NaN <&&> push obj.

(** The common tail of [_pushBigint] and [_pushJSBigint]. *)
Definition hex_bytes (obj : Z) : bytes :=
  let str := Hex.toString16 obj in
  let str := if Nat.eqb (length str mod 2) 0 then str else "0"%char :: str in
  Hex.decode str.

(** [_pushJSBigint(obj)], [obj] a [bigint] *)
Definition _pushJSBigint (obj : Z) : M bool :=
  let '(obj, m, tag) :=
    if obj <? 0 then (- obj + BI.MINUS_ONE, MT.NEG_INT, TAG.NEG_BIGINT)
    else (obj, MT.POS_INT, TAG.POS_BIGINT) in
  collapse <- gets collapseBigIntegers ;;
  if collapse && (obj <=? BI.MAXINT64) then
    if obj <=? 0xffffffff then _pushInt obj m NaN
    else
      _pushUInt8 (Z.lor (Z.shiftl m 5) NUMBYTES.EIGHT) <&&>
      _pushUInt32BE (obj / BI.SHIFT32) <&&>
      _pushUInt32BE (Z.rem obj BI.SHIFT32)
  else
    let buf := hex_bytes obj in
    _pushTag tag <&&> _pushByteString buf.


(** [_pushTypedArray(gen, obj)] for a [Uint8Array] *)
Definition _pushTypedArray (obj : bytes) : M bool := _pushByteString obj.

(** [removeLoopDetectors()] *)
Definition removeLoopDetectors : M bool :=
  d <- gets detectLoops ;;
  match d with
  | None => ret false
  | Some _ => fun e => Ret true (set_detectLoops (Some ∅) e)
  end.

Section Recursive.
(** The methods that call [pushAny] take it as [pushAny_], to be tied
    by the fixpoint below. *)
Variable pushAny_ : value -> M bool.

(** [_pushArray(gen, obj, {indefinite})] *)
Definition _pushArray (obj : list value) (indefinite : bool) : M bool :=
  let len := Z.of_nat (length obj) in
  (if indefinite
   then _pushUInt8 (Z.lor (Z.shiftl MT.ARRAY 5) NUMBYTES.INDEFINITE)
   else _pushInt len MT.ARRAY NaN) <&&>
  for_each pushAny_ obj <&&>
  (if indefinite then push BREAK else ret true).

(** [_pushMap(gen, obj, {indefinite})].  The entries dropped by the
    filter of [omitUndefinedProperties] are not counted and are skipped
    by the loop. *)
Definition keep_entry (omit : bool) (kv : value * value) : bool :=
  negb omit || negb (is_undefined (snd kv)).

Definition _pushMap (obj : list (value * value)) (indefinite : bool)
  : M bool :=
  omit <- gets omitUndefinedProperties ;;
  let entries := List.filter (keep_entry omit) obj in
  (if indefinite
   then _pushUInt8 (Z.lor (Z.shiftl MT.MAP 5) NUMBYTES.INDEFINITE)
   else _pushInt (Z.of_nat (length entries)) MT.MAP NaN) <&&>
  for_each (fun kv =>
              if keep_entry omit kv then
                d <- gets disallowUndefinedKeys ;;
                if d && is_undefined (fst kv)
                then throw "Invalid Map key: undefined"
                else pushAny_ (fst kv) <&&> pushAny_ (snd kv)
              else ret true)
           obj <&&>
  (if indefinite then push BREAK else ret true).

(** The entry test of [_pushObject] on the loop detector. *)
Definition enter (id : nat) : M bool :=
  fun e =>
    match detectLoops e with
    | Some ws =>
        if bool_decide (id ∈ ws) then
          Throw ("Loop detected while CBOR encoding. " ++
                 "Call removeLoopDetectors before resuming.") e
        else Ret true (set_detectLoops (Some ({[id]} ∪ ws)) e)
    | None => Ret true e
    end.

(** [this.detectLoops.delete(obj)] when the detector is on. *)
Definition leave (id : nat) : M bool :=
  fun e =>
    match detectLoops e with
    | Some ws => Ret true (set_detectLoops (Some (ws ∖ {[id]})) e)
    | None => Ret true e
    end.

(** The generic branch of [_pushObject] over the own enumerable
    properties [props] of the object, in the order of [Object.keys]:
    the properties that pass the filter are counted, and the loop
    skips the others. *)
Definition keep_key (omit : bool) (v : value) : bool :=
  negb (is_function v) && (negb omit || negb (is_undefined v)).

Definition _pushObject_generic (id : nat) (props : list (jsstring * value))
           (indefinite : bool) : M bool :=
  omit <- gets omitUndefinedProperties ;;
  let keys := List.filter (fun kv => keep_key omit (snd kv)) props in
  (if indefinite
   then _pushUInt8 (Z.lor (Z.shiftl MT.MAP 5) NUMBYTES.INDEFINITE)
   else _pushInt (Z.of_nat (length keys)) MT.MAP NaN) <&&>
  for_each (fun kv =>
              if keep_key omit (snd kv)
              then _pushString (fst kv) <&&> pushAny_ (snd kv)
              else ret true)
           props <&&>
  (if indefinite then push BREAK else leave id).

(** The same branch for an array, whose own enumerable properties are
    its indices. *)
Definition index_key (i : nat) : jsstring :=
  map (fun c => Z.of_N (N_of_ascii c))
      (list_ascii_of_string (NilEmpty.string_of_uint (Nat.to_uint i))).

Definition for_each_index {A} (f : nat -> A -> M bool)
  : nat -> list A -> M bool :=
  fix go (i : nat) (l : list A) : M bool :=
    match l with
    | [] => ret true
    | x :: r => b <- f i x ;; if b then go (S i) r else ret false
    end.

Definition _pushObject_indices {A} (id : nat) (elems : list A)
           (keep : bool -> A -> bool) (pushElem : A -> M bool)
           (indefinite : bool) : M bool :=
  omit <- gets omitUndefinedProperties ;;
  (if indefinite
   then _pushUInt8 (Z.lor (Z.shiftl MT.MAP 5) NUMBYTES.INDEFINITE)
   else _pushInt (Z.of_nat (length (List.filter (keep omit) elems)))
                 MT.MAP NaN) <&&>
  for_each_index
    (fun i x => if keep omit x
                then _pushString (index_key i) <&&> pushElem x
                else ret true) O elems <&&>
  (if indefinite then push BREAK else leave id).

(** [_pushObject(obj, {indefinite, skipTypes})]; [obj] is a value whose
    [typeof] is ['object'].  No modelled object has an [encodeCBOR]
    method; the converters of [semanticTypes] are those the constructor
    installs: [_pushArray] for an array, [_pushMap] for a [Map],
    [_pushTypedArray] for a [Uint8Array], none for a plain object. *)
Definition _pushObject (obj : value) (indefinite skipTypes : bool)
  : M bool :=
  match obj with
  | JArray id elems =>
      (if negb indefinite then enter id else ret true) <&&>
      if negb skipTypes then _pushArray elems false
      else _pushObject_indices id elems keep_key pushAny_ indefinite
  | JMap id entries =>
      (if negb indefinite then enter id else ret true) <&&>
      if negb skipTypes then _pushMap entries false
      else _pushObject_generic id [] indefinite
  | JUint8Array id data =>
      (if negb indefinite then enter id else ret true) <&&>
      if negb skipTypes then _pushTypedArray data
      else _pushObject_indices id data (fun _ _ => true)
             (fun b => _pushNumber (of_Z b)) indefinite
  | JObject id props =>
      (if negb indefinite then enter id else ret true) <&&>
      _pushObject_generic id props indefinite
  | _ => _pushNull
  end.
End Recursive.

(** [pushAny(obj)] *)
Fixpoint pushAny (obj : value) {struct obj} : M bool :=
  match obj with
  | JNumber x => _pushNumber x
  | JBigInt z => _pushJSBigint z
  | JString s => _pushString s
  | JBoolean b => _pushBoolean b
  | JUndefined => _pushUndefined
  | JSymbol SYM_NULL => _pushNull
  | JSymbol SYM_UNDEFINED => _pushUndefined
  | JSymbol _ => throw "Unknown symbol"
  | JFunction => throw "Unknown type: function"
  | JNull | JArray _ _ | JMap _ _ | JUint8Array _ _ | JObject _ _ =>
      _pushObject pushAny obj false false
  end.

(** [flush()] *)
Definition flush : M bytes :=
  fun e => Ret (stream e) (set_stream [] e).

(** [_encodeAll(objs)] *)
Definition _encodeAll (objs : list value) : M bytes :=
  (fix go (l : list value) : M bytes :=
     match l with
     | [] => flush
     | o :: r => _ <- pushAny o ;; go r
     end) objs.

Definition returned {A} (o : outcome A) : A + string :=
  match o with
  | Ret a _ => inl a
  | Throw msg _ => inr msg
  end.

(** [Encoder.encodeOne(obj, options)] and [Encoder.encode(...objs)] *)
Definition encodeOne (obj : value) (options : EncodingOptions)
  : bytes + string :=
  match new_Encoder options with
  | inl e => returned (_encodeAll [obj] e)
  | inr msg => inr msg
  end.

Definition encode (objs : list value) : bytes + string :=
  match new_Encoder default_options with
  | inl e => returned (_encodeAll objs e)
  | inr msg => inr msg
  end.

(** The [while(offset < obj.length)] loops of [encodeIndefinite].  The
    loop does not end when [chunkSize] is not positive; [fuel] bounds the
    number of iterations and [None] stands for a loop still running when
    the fuel is spent. *)
Fixpoint chunk_loop {A} (fuel : nat) (emit : list A -> M bool)
         (obj : list A) (chunkSize offset : Z) (ret_ : bool) (e : Encoder)
  : option (outcome bool) :=
  if offset <? Z.of_nat (length obj) then
    match fuel with
    | O => None
    | S fuel' =>
        let endIndex := offset + chunkSize in
        match (if ret_ then emit (slice obj offset endIndex)
               else ret false) e with
        | Ret r e' => chunk_loop fuel' emit obj chunkSize endIndex r e'
        | Throw msg e' => Some (Throw msg e')
        end
    end
  else Some (Ret ret_ e).

Definition chunked {A} (fuel : nat) (head : Z) (emit : list A -> M bool)
           (obj : list A) (chunkSize : Z) (e : Encoder)
  : option (outcome bool) :=
  match _pushUInt8 head e with
  | Ret r e1 =>
      match chunk_loop fuel emit obj chunkSize 0 r e1 with
      | Some (Ret r2 e2) => Some ((if r2 then push BREAK else ret false) e2)
      | other => other
      end
  | Throw msg e1 => Some (Throw msg e1)
  end.

(** [Encoder.encodeIndefinite(gen, obj, {chunkSize})], called with an
    explicit [obj] (the fallback to [this] is not modelled). *)
Definition encodeIndefinite (fuel : nat) (obj : value) (chunkSize : Z)
           (gen : Encoder) : option (outcome bool) :=
  match obj with
  | JNull | JUndefined => Some (Throw "No object to encode" gen)
  | JString s =>
      chunked fuel (Z.lor (Z.shiftl MT.UTF8_STRING 5) NUMBYTES.INDEFINITE)
              _pushString s chunkSize gen
  | JUint8Array _ buf =>
      chunked fuel (Z.lor (Z.shiftl MT.BYTE_STRING 5) NUMBYTES.INDEFINITE)
              _pushTypedArray buf chunkSize gen
  | JArray _ elems => Some (_pushArray pushAny elems true gen)
  | JMap _ entries => Some (_pushMap pushAny entries true gen)
  | JObject _ _ => Some (_pushObject pushAny obj true true gen)
  | _ => Some (Throw "Invalid indefinite encoding" gen)
  end.

End Enc.

(** ** lib/Simple.js *)

Module Simple.

(** What [Simple.decode] returns. *)
Inductive decoded :=
| DBoolean (b : bool)
| DNull
| DUndefined
| DSymbol (s : sym)
| DSimple (value : Z).

(** [new Simple(value)] for a number holding the integer [value] *)
Definition new_Simple (value : Z) : decoded + string :=
  if (value <? 0) || (255 <? value)
  then inr "value must be a small positive integer"%string
  else inl (DSimple value).

(** [Simple.decode(val, has_parent = true, parent_indefinite = false)] *)
Definition decode (val : Z) (has_parent parent_indefinite : bool)
  : decoded + string :=
  if val =? SIMPLE.FALSE then inl (DBoolean false)
  else if val =? SIMPLE.TRUE then inl (DBoolean true)
  else if val =? SIMPLE.NULL then
    if has_parent then inl DNull else inl (DSymbol SYM_NULL)
  else if val =? SIMPLE.UNDEFINED then
    if has_parent then inl DUndefined else inl (DSymbol SYM_UNDEFINED)
  else if val =? -1 then
    if negb has_parent || negb parent_indefinite
    then inr "Invalid BREAK"%string
    else inl (DSymbol SYM_BREAK)
  else new_Simple val.

End Simple.

(** ** lib/Tagged.js *)

Module Tagged.

(** What a converter can throw: an [Error] with its message, or any other
    value. *)
Inductive thrown :=
| ErrorObject (message : string)
| OtherValue (description : string).

(** The [err] field: unset, a message, or the thrown value itself. *)
Inductive errval :=
| ErrUnset
| ErrMessage (message : string)
| ErrThrown (t : thrown).

Section Convert.
(** [V] is the type of decoded values. *)
Context {V : Type}.

Record Tagged := mkTagged { tag : Z; value : V; err : errval }.

(** A converter is called as [f.call(this, this.value)]: it returns a
    value, returns [this], or throws. *)
Inductive call_result :=
| Returns (v : V)
| ReturnsThis
| Throws (t : thrown).

Definition converter := Tagged -> V -> call_result.

(** An entry of the [converters] object of the caller. *)
Inductive entry :=
| Absent
| NotAFunction
| Function (f : converter).

(** What [convert] does: it returns a value or the wrapper, or lets an
    exception through. *)
Inductive result :=
| Return (r : V + Tagged)
| Propagate (t : thrown).

(** The static methods [Tagged._tag_N] and the [TYPED_ARRAY_TAGS] table
    with [_toTypedArray]. *)
Variable builtin : Z -> option converter.
Variable typed_array : Z -> option converter.

(** The converter [convert] selects, [None] when it returns [this]
    without calling any. *)
Definition select (converters : option (Z -> entry)) (this : Tagged)
  : option converter :=
  let f := match converters with
           | Some c => c (tag this)
           | None => Absent
           end in
  match f with
  | Function f => Some f
  | _ =>
      match builtin (tag this) with
      | Some f => Some f
      | None => typed_array (tag this)
      end
  end.

Definition set_err (this : Tagged) (e : errval) : Tagged :=
  mkTagged (tag this) (value this) e.

(** The [catch] clause *)
Definition caught (error : thrown) : errval :=
  match error with
  | ErrorObject message =>
      if Nat.ltb 0 (String.length message) then ErrMessage message
      else ErrThrown error
  | OtherValue _ => ErrThrown error
  end.

(** [try { body } catch(error) { handler }] *)
Definition try_catch (body : call_result) (this : Tagged)
           (handler : thrown -> result) : result :=
  match body with
  | Returns v => Return (inl v)
  | ReturnsThis => Return (inr this)
  | Throws t => handler t
  end.

(** [convert(converters)] *)
Definition convert (converters : option (Z -> entry)) (this : Tagged)
  : result :=
  match select converters this with
  | None => Return (inr this)
  | Some f =>
      try_catch (f this (value this)) this
                (fun error => Return (inr (set_err this (caught error))))
  end.
End Convert.
Arguments Tagged : clear implicits.
Arguments converter : clear implicits.
Arguments entry : clear implicits.
Arguments result : clear implicits.
Arguments call_result : clear implicits.

End Tagged.

(** ** The decoder

    [lib/Decoder.js] is not part of the sources at hand.  Its helpers
    ([parseCBORint], [parseCBORfloat], [Simple.decode], [Tagged.convert],
    the text decoder) are those above; the item grammar is taken from the
    specification (sections 3, 4.1, 4.5 and 4.6). *)

Module Dec.

(** The decoded items (specification, section 3).  A native number holds
    unsigned and negative integers up to 2^53 and floats. *)
Inductive item :=
| INumber (x : number)
| IBigInt (z : Z)
| IBytes (bs : bytes)
| IString (s : jsstring)
| IArray (elems : list item)
| IMap (entries : list (item * item))
| ITagged (tag : Z) (value : item) (err : Tagged.errval)
| IBoolean (b : bool)
| INull
| IUndefined
| ISymbol (s : sym)
| ISimple (value : Z).

Inductive res (A : Type) :=
| Ok (a : A)
| Err (msg : string).
Arguments Ok {A} a.
Arguments Err {A} msg.

Notation "'let*' x ':=' m 'in' k" :=
  (match m with Ok x => k | Err msg => Err msg end)
  (at level 10, x pattern, m at level 100, k at level 200).

(** Modelled from the spec: the input source of section 6, [read(n)]
    with "Insufficient data" past the end of the input. *)
Definition read (n : nat) (bs : bytes) : res (bytes * bytes) :=
  if Nat.ltb (length bs) n then Err "Insufficient data"
  else Ok (firstn n bs, skipn n bs).

(** Modelled from the spec: [read_head] of section 4.1.  It returns the
    major type, the additional info, the bytes of the tail and the rest
    of the input. *)
Definition read_head (bs : bytes) : res (Z * Z * bytes * bytes) :=
  match bs with
  | [] => Err "Insufficient data"
  | b :: r =>
      let mt := Z.shiftr b 5 in
      let ai := Z.land b 0x1F in
      if ai <? 24 then Ok (mt, ai, [], r)
      else if ai <=? 27 then
        let* (buf, r') := read (Nat.pow 2 (Z.to_nat (ai - 24))) r in
        Ok (mt, ai, buf, r')
      else if ai =? 31 then
        if (mt =? 2) || (mt =? 3) || (mt =? 4) || (mt =? 5) || (mt =? 7)
        then Ok (mt, ai, [], r)
        else Err "Invalid indefinite encoding"
      else Err "Additional info not implemented"
  end.

(** The argument of a head that is not indefinite. *)
Definition argument (ai : Z) (buf : bytes) : res Util.intval :=
  if ai <? 24 then Ok (Util.Native ai)
  else match Util.parseCBORint ai buf true with
       | inl v => Ok v
       | inr msg => Err msg
       end.

Definition arg_value (v : Util.intval) : Z :=
  match v with
  | Util.Native n | Util.JSBigInt n | Util.BigNum n => n
  end.

Definition item_of_simple (d : Simple.decoded) : item :=
  match d with
  | Simple.DBoolean b => IBoolean b
  | Simple.DNull => INull
  | Simple.DUndefined => IUndefined
  | Simple.DSymbol s => ISymbol s
  | Simple.DSimple n => ISimple n
  end.

(** Modelled from the spec: the interpreters of tags 2 and 3 of section
    4.6 (the other interpreters of the registry are not modelled: their
    tags decode to the tagged wrapper). *)
Definition tag_registry (t : Z) : option (Tagged.converter item) :=
  if t =? TAG.POS_BIGINT then
    Some (fun _ v => match v with
                     | IBytes (b :: bs) =>
                         Tagged.Returns (IBigInt (be_value (b :: bs)))
                     | _ => Tagged.Throws (Tagged.ErrorObject "Cannot convert to a BigInt")
                     end)
  else if t =? TAG.NEG_BIGINT then
    Some (fun _ v => match v with
                     | IBytes (b :: bs) =>
                         Tagged.Returns (IBigInt (-1 - be_value (b :: bs)))
                     | _ => Tagged.Throws (Tagged.ErrorObject "Cannot convert to a BigInt")
                     end)
  else None.

Definition interpret (tag : Z) (inner : item) : res item :=
  match Tagged.convert tag_registry (fun _ => None) None
          (Tagged.mkTagged tag inner Tagged.ErrUnset) with
  | Tagged.Return (inl v) => Ok v
  | Tagged.Return (inr t) =>
      Ok (ITagged (Tagged.tag t) (Tagged.value t) (Tagged.err t))
  | Tagged.Propagate _ => Err "tag interpreter"
  end.

(** Modelled from the spec: the chunks of an indefinite-length string
    (section 4.5, MT 2/3): definite-length strings of the same major
    type, up to BREAK. *)
Fixpoint chunks (k : nat) (mt : Z) (bs : bytes) : res (bytes * bytes) :=
  match k with
  | O => Err "Insufficient data"
  | S k' =>
      match bs with
      | [] => Err "Insufficient data"
      | b :: r =>
          if b =? 0xff then Ok ([], r)
          else
            let* (mt', ai, buf, r') := read_head bs in
            if negb (mt' =? mt) then
              Err "Invalid major type in indefinite encoding"
            else if ai =? 31 then Err "Invalid indefinite encoding"
            else
              let* n := argument ai buf in
              let* (payload, r'') := read (Z.to_nat (arg_value n)) r' in
              let* (more, r''') := chunks k' mt r'' in
              Ok (payload ++ more, r''')
      end
  end.

Definition is_break (x : item) : bool :=
  match x with ISymbol SYM_BREAK => true | _ => false end.

(** Modelled from the spec: the item decoder of section 4.5.
    [has_parent] and [parent_indefinite] describe the enclosing frame;
    [fuel] bounds the nesting depth (an item is never deeper than it is
    long). *)
Fixpoint decode_item (fuel : nat) (has_parent parent_indefinite : bool)
         (bs : bytes) {struct fuel} : res (item * bytes) :=
  match fuel with
  | O => Err "Insufficient data"
  | S fuel' =>
      let items :=
        fix items (k : nat) (bs : bytes) : res (list item * bytes) :=
          match k with
          | O => Ok ([], bs)
          | S k' =>
              let* (x, bs1) := decode_item fuel' true false bs in
              let* (xs, bs2) := items k' bs1 in
              Ok (x :: xs, bs2)
          end in
      let pairs :=
        fix pairs (k : nat) (bs : bytes) : res (list (item * item) * bytes) :=
          match k with
          | O => Ok ([], bs)
          | S k' =>
              let* (x, bs1) := decode_item fuel' true false bs in
              let* (y, bs2) := decode_item fuel' true false bs1 in
              let* (xs, bs3) := pairs k' bs2 in
              Ok ((x, y) :: xs, bs3)
          end in
      let items_until_break :=
        fix until (k : nat) (bs : bytes) : res (list item * bytes) :=
          match k with
          | O => Err "Insufficient data"
          | S k' =>
              let* (x, bs1) := decode_item fuel' true true bs in
              if is_break x then Ok ([], bs1)
              else
                let* (xs, bs2) := until k' bs1 in
                Ok (x :: xs, bs2)
          end in
      let pairs_until_break :=
        fix until (k : nat) (bs : bytes) : res (list (item * item) * bytes) :=
          match k with
          | O => Err "Insufficient data"
          | S k' =>
              let* (x, bs1) := decode_item fuel' true true bs in
              if is_break x then Ok ([], bs1)
              else
                let* (y, bs2) := decode_item fuel' true true bs1 in
                if is_break y then Err "Invalid map length"
                else
                  let* (xs, bs3) := until k' bs2 in
                  Ok ((x, y) :: xs, bs3)
          end in
      let* (mt, ai, buf, r) := read_head bs in
      if mt =? MT.POS_INT then
        let* n := argument ai buf in
        match n with
        | Util.Native n => Ok (INumber (of_Z n), r)
        | Util.JSBigInt n | Util.BigNum n => Ok (IBigInt n, r)
        end
      else if mt =? MT.NEG_INT then
        let* n := argument ai buf in
        match n with
        | Util.Native n => Ok (INumber (sub (of_Z (-1)) (of_Z n)), r)
        | Util.JSBigInt n | Util.BigNum n => Ok (IBigInt (-1 - n), r)
        end
      else if mt =? MT.BYTE_STRING then
        if ai =? 31 then
          let* (payload, r') := chunks (length r) mt r in
          Ok (IBytes payload, r')
        else
          let* n := argument ai buf in
          let* (payload, r') := read (Z.to_nat (arg_value n)) r in
          Ok (IBytes payload, r')
      else if mt =? MT.UTF8_STRING then
        let* (payload, r') :=
          (if ai =? 31 then chunks (length r) mt r
           else let* n := argument ai buf in
                read (Z.to_nat (arg_value n)) r) in
        match TextDecoder_decode payload with
        | Some s => Ok (IString s, r')
        | None => Err "The encoded data was not valid for encoding utf-8"
        end
      else if mt =? MT.ARRAY then
        if ai =? 31 then
          let* (xs, r') := items_until_break (length r) r in
          Ok (IArray xs, r')
        else
          let* n := argument ai buf in
          let* (xs, r') := items (Z.to_nat (arg_value n)) r in
          Ok (IArray xs, r')
      else if mt =? MT.MAP then
        if ai =? 31 then
          let* (xs, r') := pairs_until_break (length r) r in
          Ok (IMap xs, r')
        else
          let* n := argument ai buf in
          let* (xs, r') := pairs (Z.to_nat (arg_value n)) r in
          Ok (IMap xs, r')
      else if mt =? MT.TAG then
        let* n := argument ai buf in
        let* (inner, r') := decode_item fuel' true false r in
        let* x := interpret (arg_value n) inner in
        Ok (x, r')
      else
        let simple val :=
          match Simple.decode val has_parent parent_indefinite with
          | inl d => Ok (item_of_simple d, r)
          | inr msg => Err msg
          end in
        if ai <? 24 then simple ai
        else if ai =? 24 then
          let val := be_value buf in
          if val <? 32 then Err "Invalid two-byte encoding of simple value"
          else simple val
        else if ai =? 31 then simple (-1)
        else
          match Util.parseCBORfloat buf with
          | inl x => Ok (INumber x, r)
          | inr msg => Err msg
          end
  end.

(** Modelled from the spec: [decode_first_sync] of section 4.5, the
    [decode] entry point: exactly one item, with no enclosing frame. *)
Definition decodeFirstSync (input : bytes) : res item :=
  let* (x, rest) := decode_item (S (length input)) false false input in
  match rest with
  | [] => Ok x
  | _ => Err "Unexpected data"
  end.

Definition decode := decodeFirstSync.

End Dec.

Import Enc.

(** ** The specification's own words

    Definitions that follow the text of the specification, to be compared
    with the code. *)

(** [write_head(mt, n)] of section 4.1: the smallest of the widths 1, 2, 4
    and 8 that holds [n], and the head it selects. *)
Definition smallest_width (n : Z) : nat :=
  if n <? 2 ^ 8 then 1 else if n <? 2 ^ 16 then 2
  else if n <? 2 ^ 32 then 4 else 8.

Definition width_code (w : nat) : Z :=
  (* 23 + log2(w) + 1 *)
  23 + Z.log2 (Z.of_nat w) + 1.

Definition write_head (mt n : Z) : bytes :=
  if n <? 24 then [Z.lor (Z.shiftl mt 5) n]
  else
    let w := smallest_width n in
    Z.lor (Z.shiftl mt 5) (width_code w) :: be_bytes w n.

(** The bytes an encoder has produced since the state [e]. *)
Definition emits (e : Encoder) (o : outcome bool) (bs : bytes) : Prop :=
  o = Ret true (set_stream (stream e ++ bs) e).



(** A method that only appends to the stream, whatever the encoder. *)
Definition writes (m : M bool) (bs : bytes) : Prop := forall e, emits e (m e) bs.

(** The canonical binary64 form of the integers [k] and [-k], for a
    positive [k] below 2^53. *)
Definition int_exp (k : positive) : Z := Zpos (digits2_pos k) - 53.
Definition int_mant (k : positive) : positive :=
  Z.to_pos (Zpos k * 2 ^ (53 - Zpos (digits2_pos k))).
Definition int_float (s : bool) (k : positive) : number :=
  S754_finite s (int_mant k) (int_exp k).

(** A number whose value is an integer. *)
Definition is_integral (x : number) : bool :=
  match x with
  | S754_zero _ => true
  | S754_finite _ m e => (0 <=? e) || (Zpos m mod 2 ^ (- e) =? 0)
  | _ => false
  end.

(** The [k] hexadecimal digits of [n mod 16^k], most significant first. *)
Fixpoint hex_be (k : nat) (n : Z) : list ascii :=
  match k with
  | O => []
  | S k' => Hex.digit_char ((n / 16 ^ Z.of_nat k') mod 16) :: hex_be k' n
  end.

(** The number of hexadecimal digits of [n >= 0] (1 for zero). *)
Definition hex_length (n : Z) : nat := S (Z.to_nat (Z.log2 n / 4)).

(** [unsigned_be_bytes] of section 4.4.4: the big-endian bytes of [n],
    as few as hold it (one for zero). *)
Definition byte_length (n : Z) : nat := S (Z.to_nat (Z.log2 n / 8)).
Definition unsigned_be_bytes (n : Z) : bytes := be_bytes (byte_length n) n.

(** The magnitude, major type and tag that the big-integer methods
    select. *)
Definition bigint_magnitude (v : Z) : Z := if v <? 0 then - v - 1 else v.
Definition bigint_mt (v : Z) : Z := if v <? 0 then MT.NEG_INT else MT.POS_INT.
Definition bigint_tag (v : Z) : Z :=
  if v <? 0 then TAG.NEG_BIGINT else TAG.POS_BIGINT.

(** The consecutive chunks of [size] elements of a sequence (the last one
    may be shorter); [fuel] bounds their number. *)
Fixpoint chunks_of {A} (fuel size : nat) (s : list A) : list (list A) :=
  match fuel with
  | O => []
  | S fuel' =>
      match s with
      | [] => []
      | _ => firstn size s :: chunks_of fuel' size (skipn size s)
      end
  end.

(** The definite-length text and byte string items. *)
Definition text_item (s : jsstring) : bytes :=
  write_head MT.UTF8_STRING (Z.of_nat (length (TextEncoder_encode s)))
  ++ TextEncoder_encode s.

Definition bytes_item (b : bytes) : bytes :=
  write_head MT.BYTE_STRING (Z.of_nat (length b)) ++ b.

(** The loop detector of one state is contained in that of another. *)
Definition detector_within (e e' : Encoder) : Prop :=
  match detectLoops e, detectLoops e' with
  | Some ws, Some ws' => ws ⊆ ws'
  | None, None => True
  | _, _ => False
  end.

(** A method that leaves the loop detector alone when it returns. *)
Definition keeps_detector (m : M bool) : Prop :=
  forall e b e', m e = Ret b e' -> detectLoops e' = detectLoops e.

(** A method under which the loop detector can only grow. *)
Definition grows_detector (m : M bool) : Prop :=
  forall e b e', m e = Ret b e' -> detector_within e e'.



(** The converters of [semanticTypes] written out: arrays, Maps and typed
    arrays. *)
Definition has_converter (v : value) : option nat :=
  match v with
  | JArray id _ | JMap id _ | JUint8Array id _ => Some id
  | _ => None
  end.

(** The state a method ends in: what it returned or threw. *)
Definition finish (ok : bool + string) (e : Encoder) : outcome bool :=
  match ok with
  | inl r => Ret r e
  | inr msg => Throw msg e
  end.

(** A method that only appends to the stream, with a result, bytes and a
    loop detector that do not depend on what the stream holds; a detector
    that is off stays off. *)
Definition appends (m : M bool) : Prop :=
  forall e, exists bs d ok,
    (detectLoops e = None -> d = None)
    /\ forall s0, m (set_stream s0 e)
                  = finish ok (set_stream (s0 ++ bs) (set_detectLoops d e)).




(** The states in which the object [id] is being encoded. *)
Definition encoding (id : nat) (omit : bool) (e : Encoder) : Prop :=
  (exists ws, detectLoops e = Some ws /\ id ∈ ws)
  /\ omitUndefinedProperties e = omit.

(** A method that throws in every such state. *)
Definition refuses (id : nat) (omit : bool) (m : M bool) : Prop :=
  forall e, encoding id omit e -> exists msg e', m e = Throw msg e'.



(** [Tagged.prototype.encodeCBOR(gen)] of lib/Tagged.js: the result of
    [_pushTag] is dropped. *)
Definition Tagged_encodeCBOR (tag : Z) (value : value) : M bool :=
  _ <- _pushTag tag ;; pushAny value.

(** ** lib/hex-browser.js

    Strings are those of [Module Hex]: sequences of code units below 256. *)

Module HexBrowser.

(** [encode(buf)]: the loop appends, for each byte, ['0'] when the byte
    is below 16 and then [buf[i].toString(16)]. *)
Definition encode (buf : bytes) : list ascii :=
  fold_left (fun s b =>
               s ++ (if b <? 16 then ["0"%char] else []) ++ Hex.toString16 b)
            buf [].

(** The line terminators, which [.] does not match, and the white space
    that [parseInt] skips. *)
Definition is_line_terminator (c : ascii) : bool :=
  let n := Z.of_N (N_of_ascii c) in (n =? 10) || (n =? 13).

Definition is_white_space (c : ascii) : bool :=
  let n := Z.of_N (N_of_ascii c) in
  ((9 <=? n) && (n <=? 13)) || (n =? 32) || (n =? 160).

(** [s.match(/.{1,2}/g)]: from left to right, two characters, or one
    before a line terminator or the end; [[]] stands for [null]. *)
Fixpoint pairs (s : list ascii) : list (list ascii) :=
  match s with
  | [] => []
  | a :: r =>
      if is_line_terminator a then pairs r
      else
        match r with
        | [] => [[a]]
        | b :: r' =>
            if is_line_terminator b then [a] :: pairs r
            else [a; b] :: pairs r'
        end
  end.

Fixpoint skip_white_space (s : list ascii) : list ascii :=
  match s with
  | c :: r => if is_white_space c then skip_white_space r else s
  | [] => []
  end.

(** The value of the longest prefix of hexadecimal digits, after [acc]. *)
Fixpoint digits_prefix (acc : Z) (s : list ascii) : Z :=
  match s with
  | c :: r =>
      match Hex.digit_value c with
      | Some d => digits_prefix (16 * acc + d) r
      | None => acc
      end
  | [] => acc
  end.

(** [parseInt(s, 16)]: white space, a sign and [0x] are skipped, then the
    digits are read; [None] is [NaN].  The result is exact for the
    strings of at most two characters that [decode] passes. *)
Definition parseInt16 (s : list ascii) : option Z :=
  let s := skip_white_space s in
  let '(sign, s) :=
    match s with
    | "-"%char :: r => (-1, r)
    | "+"%char :: r => (1, r)
    | _ => (1, s)
    end in
  let s :=
    match s with
    | "0"%char :: "x"%char :: r => r
    | "0"%char :: "X"%char :: r => r
    | _ => s
    end in
  match s with
  | c :: r =>
      match Hex.digit_value c with
      | Some d => Some (sign * digits_prefix d r)
      | None => None
      end
  | [] => None
  end.

(** Storing a number in a [Uint8Array]: [NaN] becomes 0, an integer is
    taken modulo 256. *)
Definition to_uint8 (x : option Z) : Z :=
  match x with
  | Some n => n mod 256
  | None => 0
  end.

(** [decode(s)]; [None] is the [TypeError] raised on [pairs.length] when
    nothing matches. *)
Definition decode (s : list ascii) : option bytes :=
  match pairs s with
  | [] => None
  | ps => Some (map (fun p => to_uint8 (parseInt16 p)) ps)
  end.

End HexBrowser.

(** [BigInt('0x' + digits)]: one or more hexadecimal digits, then white
    space only; [None] is the [SyntaxError]. *)
Fixpoint hex_literal (acc : Z) (seen : bool) (s : list ascii) : option Z :=
  match s with
  | [] => if seen then Some acc else None
  | c :: r =>
      match Hex.digit_value c with
      | Some d => hex_literal (16 * acc + d) true r
      | None =>
          if seen && forallb HexBrowser.is_white_space s then Some acc
          else None
      end
  end.

(** [bufferToBigInt(buf)] of lib/utils.js *)
Definition bufferToBigInt (buf : bytes) : option Z :=
  hex_literal 0 false (HexBrowser.encode buf).

(** ** lib/utils.js: [BufferStream]

    The stream over a byte array given without an [encoding]; counts are
    integers. *)

Module BufferStream.

Record t := mk { bytes : Bytes.bytes; index : Z }.

(** [new BufferStream({input})] *)
Definition new (input : Bytes.bytes) : t := mk input 0.

(** [get length()] *)
Definition length (s : t) : Z := Z.of_nat (List.length (bytes s)) - index s.

(** The count that [read] is called with, [this.length] when it is
    left out *)
Definition requested (count : option Z) (s : t) : Z :=
  match count with
  | Some c => c
  | None => length s
  end.

(** [read(count = this.length)]: the view returned ([None] for [null])
    and the stream afterwards; [inr] is the [RangeError] of a typed array
    of negative length. *)
Definition read (count : option Z) (s : t)
  : (option Bytes.bytes * t) + string :=
  let count := Z.min (requested count s) (length s) in
  if count =? 0 then inl (None, s)
  else if count <? 0 then inr "Invalid typed array length"%string
  else
    inl (Some (take (Z.to_nat count) (drop (Z.to_nat (index s)) (bytes s))),
         mk (bytes s) (index s + count)).

(** [unshift(bytes)] *)
Definition unshift (b : Bytes.bytes) (s : t) : t + string :=
  if index s <? Z.of_nat (List.length b)
  then inr "Cannot rewind that far."%string
  else inl (mk (bytes s) (index s - Z.of_nat (List.length b))).

(** The index is a position in the bytes. *)
Definition wf (s : t) : Prop :=
  0 <= index s <= Z.of_nat (List.length (bytes s)).

End BufferStream.

(** ** lib/Tagged.js: typed arrays *)

Module TypedArray.

Inductive typed_class :=
| Uint8Array | Uint16Array | Uint32Array | BigUint64Array
| Uint8ClampedArray
| Int8Array | Int16Array | Int32Array | BigInt64Array
| Float32Array | Float64Array.

(** [TypedClass.BYTES_PER_ELEMENT] *)
Definition BYTES_PER_ELEMENT (c : typed_class) : Z :=
  match c with
  | Uint8Array | Uint8ClampedArray | Int8Array => 1
  | Uint16Array | Int16Array => 2
  | Uint32Array | Int32Array | Float32Array => 4
  | BigUint64Array | BigInt64Array | Float64Array => 8
  end.

(** [TYPED_ARRAY_TAGS[tag]], on a host that has the 64-bit integer
    arrays. *)
Definition TYPED_ARRAY_TAGS (tag : Z) : option typed_class :=
  if tag =? 64 then Some Uint8Array
  else if tag =? 65 then Some Uint16Array
  else if tag =? 66 then Some Uint32Array
  else if tag =? 67 then Some BigUint64Array
  else if tag =? 68 then Some Uint8ClampedArray
  else if tag =? 69 then Some Uint16Array
  else if tag =? 70 then Some Uint32Array
  else if tag =? 71 then Some BigUint64Array
  else if tag =? 72 then Some Int8Array
  else if tag =? 73 then Some Int16Array
  else if tag =? 74 then Some Int32Array
  else if tag =? 75 then Some BigInt64Array
  else if tag =? 77 then Some Int16Array
  else if tag =? 78 then Some Int32Array
  else if tag =? 79 then Some BigInt64Array
  else if tag =? 81 then Some Float32Array
  else if tag =? 82 then Some Float64Array
  else if tag =? 85 then Some Float32Array
  else if tag =? 86 then Some Float64Array
  else None.

(** The element size [sz] that [_toTypedArray] computes from the tag. *)
Definition sz (tag : Z) : Z :=
  let float := Z.shiftr (Z.land tag 16) 4 in
  2 ^ (float + Z.land tag 3).

(** One step of the loop of [swapEndian]: the [size] bytes at [offset]
    are read little-endian and written big-endian. *)
Definition swap_at (ab : bytes) (size offset : nat) : bytes :=
  take offset ab ++ rev (take size (drop offset ab))
  ++ drop (offset + size) ab.

(** The loop of [swapEndian], run [iterations] times; the accessors of
    the [DataView] raise a [RangeError] beyond the end of the buffer, and
    the buffer keeps what was written before. *)
Fixpoint swap_loop (iterations : nat) (ab : bytes) (size offset : nat)
  : bytes + string * bytes :=
  match iterations with
  | O => inl ab
  | S k =>
      if (offset + size <=? length ab)%nat
      then swap_loop k (swap_at ab size offset) size (offset + size)
      else inr ("Offset is outside the bounds of the DataView"%string, ab)
  end.

(** [swapEndian(ab, size, byteOffset, byteLength)]: the loop
    [for(offset = byteOffset; offset < end; offset += size)] runs
    [ceil(byteLength / size)] times; a [size] other than 2, 4 or 8 has
    no accessors. *)
Definition swapEndian (ab : bytes) (size byteOffset byteLength : nat)
  : bytes + string * bytes :=
  if (size =? 2)%nat || (size =? 4)%nat || (size =? 8)%nat then
    swap_loop ((byteLength + size - 1) / size) ab size byteOffset
  else inr ("undefined is not iterable"%string, ab).

(** The bytes of [n] chunks of [size] bytes, each reversed. *)
Fixpoint rev_chunks (n size : nat) (l : bytes) : bytes :=
  match n with
  | O => l
  | S k => rev (take size l) ++ rev_chunks k size (drop size l)
  end.

End TypedArray.

(*SPEC-DEFS-END*)

(** * Properties *)

(** ** Big-endian words *)

Section BytesFacts.

Lemma length_be_bytes (w : nat) (v : Z) : length (be_bytes w v) = w.
Proof. induction w as [|w IH]; simpl; [reflexivity | now rewrite IH]. Qed.

Lemma be_bytes_in_range (w : nat) (v : Z) : Forall is_byte (be_bytes w v).
Proof.
  induction w as [|w IH]; simpl; constructor; [|exact IH].
  unfold is_byte. apply Z.mod_pos_bound. lia.
Qed.

Lemma be_value_snoc (bs : bytes) (b : Z) :
  be_value (bs ++ [b]) = be_value bs * 256 + b.
Proof. unfold be_value. now rewrite fold_left_app. Qed.

Lemma be_value_fold (bs : bytes) (acc : Z) :
  fold_left (fun a b => a * 256 + b) bs acc
  = acc * 256 ^ Z.of_nat (length bs) + be_value bs.
Proof.
  unfold be_value. revert acc.
  induction bs as [|b bs IH]; intros acc.
  - simpl. lia.
  - cbn [fold_left length]. rewrite IH, (IH (0 * 256 + b)).
    rewrite Nat2Z.inj_succ, Z.pow_succ_r by lia. ring.
Qed.

Lemma be_value_cons (b : Z) (bs : bytes) :
  be_value (b :: bs) = b * 256 ^ Z.of_nat (length bs) + be_value bs.
Proof. unfold be_value at 1. cbn [fold_left]. now rewrite be_value_fold. Qed.

Lemma be_value_app (xs ys : bytes) :
  be_value (xs ++ ys) = be_value xs * 256 ^ Z.of_nat (length ys) + be_value ys.
Proof.
  unfold be_value at 1. rewrite fold_left_app. now rewrite be_value_fold.
Qed.

Lemma be_value_range (bs : bytes) :
  Forall is_byte bs -> 0 <= be_value bs < 256 ^ Z.of_nat (length bs).
Proof.
  induction 1 as [|b bs Hb _ IH].
  - cbn. lia.
  - rewrite be_value_cons. cbn [length]. rewrite Nat2Z.inj_succ, Z.pow_succ_r by lia.
    unfold is_byte in Hb. nia.
Qed.

(** Reading back what was written gives the value modulo the width. *)
Lemma be_value_be_bytes (w : nat) (v : Z) :
  be_value (be_bytes w v) = v mod 256 ^ Z.of_nat w.
Proof.
  induction w as [|w IH].
  - cbn. now rewrite Z.mod_1_r.
  - cbn [be_bytes]. rewrite be_value_cons, length_be_bytes, IH.
    rewrite Nat2Z.inj_succ, Z.pow_succ_r by lia.
    replace (2 ^ (8 * Z.of_nat w)) with (256 ^ Z.of_nat w)
      by (change 256 with (2 ^ 8); now rewrite <- Z.pow_mul_r by lia).
    set (p := 256 ^ Z.of_nat w).
    assert (Hp : 0 < p) by (apply Z.pow_pos_nonneg; lia).
    rewrite (Z.mul_comm 256 p), Z.rem_mul_r by lia. lia.
Qed.

Lemma be_value_be_bytes_small (w : nat) (v : Z) :
  0 <= v < 256 ^ Z.of_nat w -> be_value (be_bytes w v) = v.
Proof. intros H. rewrite be_value_be_bytes. now apply Z.mod_small. Qed.

End BytesFacts.

(** ** C4: the 64-bit argument of a head *)

(** The eight bytes of the tail, read as two 32-bit words. *)
Lemma be_value_words (buf : bytes) :
  length buf = 8%nat ->
  be_value buf = be_value (take 4 buf) * SHIFT32 + be_value (take 4 (drop 4 buf)).
Proof.
  intros Hlen.
  do 9 (destruct buf as [|? buf]; try discriminate Hlen).
  unfold SHIFT32, be_value. cbn. lia.
Qed.

Lemma take4_range (buf : bytes) :
  Forall is_byte buf -> (4 <= length buf)%nat ->
  0 <= be_value (take 4 buf) < 2 ^ 32.
Proof.
  intros Hb Hlen.
  assert (Hf : Forall is_byte (take 4 buf)) by (apply Forall_take; exact Hb).
  pose proof (be_value_range _ Hf) as Hr.
  rewrite length_take in Hr.
  replace (4 `min` length buf)%nat with 4%nat in Hr by lia.
  exact Hr.
Qed.

Lemma parseCBORint_EIGHT (buf : bytes) (bigInt : bool) :
  Util.parseCBORint NUMBYTES.EIGHT buf bigInt
  = let f := be_value (take 4 buf) in
    let g := be_value (take 4 (drop 4 buf)) in
    if MAX_SAFE_HIGH <? f then
      if bigInt then inl (Util.JSBigInt (f * BI.SHIFT32 + g))
      else inl (Util.BigNum (f * SHIFT32 + g))
    else inl (Util.Native (f * SHIFT32 + g)).
Proof. reflexivity. Qed.

(** C4.  For an 8-byte tail (additional info 27), [parseCBORint] returns a
    native number exactly when the 64-bit big-endian value is at most
    2^53 - 1, and an arbitrary-precision integer (a BigInt, or a BigNumber
    when [bigInt] is false) with the same value when it is larger; the test
    [f > MAX_SAFE_HIGH] on the high word fires exactly above 2^53 - 1. *)
Theorem parseCBORint_eight_bytes (buf : bytes) (bigInt : bool) :
  length buf = 8%nat -> Forall is_byte buf ->
  Util.parseCBORint NUMBYTES.EIGHT buf bigInt
  = inl (if be_value buf <=? 2 ^ 53 - 1 then Util.Native (be_value buf)
         else if bigInt then Util.JSBigInt (be_value buf)
              else Util.BigNum (be_value buf))
  /\ ((MAX_SAFE_HIGH <? be_value (take 4 buf)) = true
      <-> 2 ^ 53 - 1 < be_value buf).
Proof.
  intros Hlen Hb.
  pose proof (be_value_words buf Hlen) as Hw.
  pose proof (take4_range buf Hb ltac:(lia)) as Hf.
  assert (Hg : 0 <= be_value (take 4 (drop 4 buf)) < 2 ^ 32).
  { apply take4_range.
    - apply Forall_drop. exact Hb.
    - rewrite length_drop. lia. }
  assert (Hiff : (MAX_SAFE_HIGH <? be_value (take 4 buf)) = true
                 <-> 2 ^ 53 - 1 < be_value buf).
  { rewrite Z.ltb_lt, Hw. unfold MAX_SAFE_HIGH, SHIFT32. lia. }
  split; [|exact Hiff].
  rewrite parseCBORint_EIGHT. cbv zeta. change BI.SHIFT32 with SHIFT32.
  rewrite <- Hw.
  destruct (MAX_SAFE_HIGH <? be_value (take 4 buf)) eqn:Hhigh.
  - assert (Hgt : 2 ^ 53 - 1 < be_value buf) by (apply Hiff; reflexivity).
    destruct (Z.leb_spec (be_value buf) (2 ^ 53 - 1)); [lia|].
    destruct bigInt; reflexivity.
  - destruct (Z.leb_spec (be_value buf) (2 ^ 53 - 1)); [reflexivity|].
    assert (Hcontra : false = true) by (apply Hiff; lia). discriminate.
Qed.

Lemma parseCBORint_eight_bytes_witness :
  Util.parseCBORint NUMBYTES.EIGHT [0; 32; 0; 0; 0; 0; 0; 0] true
  = inl (Util.JSBigInt (2 ^ 53)).
Proof.
  refine (proj1 (parseCBORint_eight_bytes [0; 32; 0; 0; 0; 0; 0; 0] true _ _)).
  - reflexivity.
  - repeat constructor; unfold is_byte; lia.
Defined.

(** ** C5: BREAK *)

(** C5.  [Simple.decode] on the BREAK item (value -1) yields the BREAK
    sentinel when the item has a parent that is an indefinite-length
    container, and throws "Invalid BREAK" in every other position. *)
Theorem Simple_decode_BREAK (has_parent parent_indefinite : bool) :
  Simple.decode (-1) has_parent parent_indefinite
  = if has_parent && parent_indefinite
    then inl (Simple.DSymbol SYM_BREAK)
    else inr "Invalid BREAK"%string.
Proof. destruct has_parent, parent_indefinite; reflexivity. Qed.

(** In the decoder, the byte [0xff] is major type 7 with additional info 31,
    and is handed to [Simple.decode] as -1 with the enclosing frame. *)
Lemma decode_item_BREAK (fuel : nat) (has_parent parent_indefinite : bool)
      (rest : bytes) :
  Dec.decode_item (S fuel) has_parent parent_indefinite (0xff :: rest)
  = if has_parent && parent_indefinite
    then Dec.Ok (Dec.ISymbol SYM_BREAK, rest)
    else Dec.Err "Invalid BREAK".
Proof. destruct has_parent, parent_indefinite; reflexivity. Qed.

Example decode_stray_BREAK : Dec.decode [0xff] = Dec.Err "Invalid BREAK".
Proof. reflexivity. Qed.

Example decode_BREAK_in_definite_array :
  Dec.decode [0x81; 0xff] = Dec.Err "Invalid BREAK".
Proof. reflexivity. Qed.

Example decode_BREAK_closes_indefinite_array :
  Dec.decode [0x9f; 0x01; 0xff] = Dec.Ok (Dec.IArray [Dec.INumber (of_Z 1)]).
Proof. reflexivity. Qed.

(** ** C8: failures of tag interpreters *)

Section TaggedFacts.
Context {V : Type}.
Variables builtin typed_array : Z -> option (Tagged.converter V).

(** A function the caller installs for a tag is the one [convert] calls. *)
Lemma select_installed (c : Z -> Tagged.entry V) (this : Tagged.Tagged V)
      (f : Tagged.converter V) :
  c (Tagged.tag this) = Tagged.Function f ->
  Tagged.select builtin typed_array (Some c) this = Some f.
Proof. intros H. unfold Tagged.select. now rewrite H. Qed.


End TaggedFacts.



(** ** Splitting big-endian words *)

Lemma pow256 (k : nat) : 2 ^ (8 * Z.of_nat k) = 256 ^ Z.of_nat k.
Proof. change 256 with (2 ^ 8). now rewrite <- Z.pow_mul_r by lia. Qed.

Lemma pow256_pos (k : nat) : 0 < 256 ^ Z.of_nat k.
Proof. apply Z.pow_pos_nonneg; lia. Qed.

(** The high bytes of a word are the bytes of its quotient. *)
Lemma be_bytes_app_div (a b : nat) (n : Z) :
  be_bytes (a + b) n = be_bytes a (n / 256 ^ Z.of_nat b) ++ be_bytes b n.
Proof.
  induction a as [|a IH]; [reflexivity|].
  cbn [Nat.add be_bytes app]. rewrite IH. f_equal.
  rewrite !pow256, Nat2Z.inj_add, Z.pow_add_r by lia.
  pose proof (pow256_pos a). pose proof (pow256_pos b).
  rewrite Z.div_div by lia. f_equal. f_equal. lia.
Qed.

(** The low bytes of a word only depend on its low bits. *)
Lemma be_bytes_mod (b c : nat) (n : Z) :
  (b <= c)%nat -> be_bytes b (n mod 256 ^ Z.of_nat c) = be_bytes b n.
Proof.
  induction b as [|b IH]; intros Hle; [reflexivity|].
  cbn [be_bytes]. rewrite IH by lia. f_equal.
  rewrite pow256.
  pose proof (pow256_pos b) as Hb.
  replace (Z.of_nat c) with (Z.of_nat b + Z.of_nat (c - b)) by lia.
  rewrite Z.pow_add_r by lia.
  pose proof (pow256_pos (c - b)) as Hcb.
  rewrite Z.rem_mul_r by lia.
  rewrite (Z.mul_comm (256 ^ Z.of_nat b)), Z.div_add by lia.
  rewrite (Z.div_small (n mod _)) by (apply Z.mod_pos_bound; lia).
  rewrite Z.add_0_l.
  apply Z.mod_mod_divide.
  exists (256 ^ Z.of_nat (c - b - 1)).
  replace (Z.of_nat (c - b)) with (Z.of_nat (c - b - 1) + 1) by lia.
  rewrite Z.pow_add_r by lia. lia.
Qed.

Lemma be_bytes_8_words (n : Z) :
  0 <= n ->
  be_bytes 4 (n / SHIFT32) ++ be_bytes 4 (Z.rem n SHIFT32) = be_bytes 8 n.
Proof.
  intros Hn. rewrite Z.rem_mod_nonneg by (unfold SHIFT32; lia).
  change SHIFT32 with (256 ^ Z.of_nat 4).
  rewrite be_bytes_mod by lia.
  symmetry. apply (be_bytes_app_div 4 4).
Qed.

(** ** The encoder monad *)

Lemma set_stream_set_stream (xs ys : bytes) (e : Encoder) :
  set_stream ys (set_stream xs e) = set_stream ys e.
Proof. reflexivity. Qed.

Lemma emits_push (e : Encoder) (buf : bytes) : emits e (push buf e) buf.
Proof. reflexivity. Qed.

Lemma emits_ret (e : Encoder) : emits e (ret true e) [].
Proof. unfold emits, ret. rewrite app_nil_r. now destruct e. Qed.

Lemma emits_and_then (e : Encoder) (a b : M bool) (xs ys : bytes) :
  emits e (a e) xs ->
  emits (set_stream (stream e ++ xs) e) (b (set_stream (stream e ++ xs) e)) ys ->
  emits e ((a <&&> b) e) (xs ++ ys).
Proof.
  unfold emits, and_then, bind. intros -> ->.
  cbn. now rewrite app_assoc.
Qed.

Lemma writes_push (buf : bytes) : writes (push buf) buf.
Proof. intros e. apply emits_push. Qed.

Lemma writes_and_then (a b : M bool) (xs ys : bytes) :
  writes a xs -> writes b ys -> writes (a <&&> b) (xs ++ ys).
Proof. intros Ha Hb e. apply emits_and_then; [apply Ha | apply Hb]. Qed.

(** ** C2: heads of minimal length *)

Lemma lor_head (mt a : Z) :
  0 <= mt <= 7 -> 0 <= a < 32 -> Z.lor (Z.shiftl mt 5) a = 32 * mt + a.
Proof.
  intros Hmt Ha.
  rewrite Z.shiftl_mul_pow2 by lia.
  rewrite <- Z.lxor_lor, <- Z.add_nocarry_lxor; try lia.
  all: apply Z.bits_inj'; intros k Hk; rewrite Z.land_spec, Z.bits_0.
  all: destruct (Z.ltb_spec k 5) as [Hlt|Hge].
  all: try (rewrite Z.mul_pow2_bits_low by lia; reflexivity).
  all: rewrite (Z.bits_above_log2 a k), andb_false_r; try reflexivity; try lia.
  all: destruct (Z.eq_dec a 0) as [->|Hnz]; [cbn; lia|].
  all: assert (Z.log2 a < 5) by (apply Z.log2_lt_pow2; lia); lia.
Qed.

Lemma head_byte (mt a : Z) :
  0 <= mt <= 7 -> 0 <= a < 32 ->
  be_bytes 1 (Z.lor (Z.shiftl mt 5) a) = [Z.lor (Z.shiftl mt 5) a].
Proof.
  intros Hmt Ha. cbn [be_bytes]. rewrite lor_head by assumption.
  cbn. rewrite Z.div_1_r. rewrite Z.mod_small by lia. reflexivity.
Qed.

(** What [_pushInt] writes for a safe integer, branch by branch. *)
Lemma pushInt_writes (n mt : Z) (orig : number) :
  0 <= n <= MAX_SAFE_INTEGER -> 0 <= mt <= 7 ->
  writes (_pushInt n mt orig) (write_head mt n).
Proof.
  intros Hn Hmt. unfold MAX_SAFE_INTEGER in Hn.
  unfold _pushInt, write_head, smallest_width.
  destruct (Z.ltb_spec n 24) as [H24|H24].
  { unfold _pushUInt8. rewrite head_byte by lia. apply writes_push. }
  destruct (Z.leb_spec n 0xff) as [H8|H8].
  { destruct (Z.ltb_spec n (2 ^ 8)); [|lia].
    unfold _pushUInt8. rewrite head_byte by (unfold NUMBYTES.ONE; lia).
    apply (writes_and_then _ _ [_] _); apply writes_push. }
  destruct (Z.ltb_spec n (2 ^ 8)); [lia|].
  destruct (Z.leb_spec n 0xffff) as [H16|H16].
  { destruct (Z.ltb_spec n (2 ^ 16)); [|lia].
    unfold _pushUInt8, _pushUInt16BE.
    rewrite head_byte by (unfold NUMBYTES.TWO; lia).
    apply (writes_and_then _ _ [_] _); apply writes_push. }
  destruct (Z.ltb_spec n (2 ^ 16)); [lia|].
  destruct (Z.leb_spec n 0xffffffff) as [H32|H32].
  { destruct (Z.ltb_spec n (2 ^ 32)); [|lia].
    unfold _pushUInt8, _pushUInt32BE.
    rewrite head_byte by (unfold NUMBYTES.FOUR; lia).
    apply (writes_and_then _ _ [_] _); apply writes_push. }
  destruct (Z.ltb_spec n (2 ^ 32)); [lia|].
  destruct (Z.leb_spec n MAX_SAFE_INTEGER) as [H53|H53];
    [|unfold MAX_SAFE_INTEGER in H53; lia].
  unfold _pushUInt8, _pushUInt32BE.
  rewrite head_byte by (unfold NUMBYTES.EIGHT; lia).
  rewrite <- be_bytes_8_words by lia.
  apply (writes_and_then _ _ [_] _); [apply writes_push|].
  apply writes_and_then; apply writes_push.
Qed.

(** C2 (as amended).  For every major type and every integer argument
    [0 <= n <= 2^53 - 1], [_pushInt] emits the head of minimal length: the
    single byte [(mt << 5) | n] when [n < 24], and otherwise the byte
    [(mt << 5) | ai] followed by [n] in [w] big-endian bytes, where [w] is
    the smallest of 1, 2, 4 and 8 that holds [n] and [ai] is 24, 25, 26 or
    27 accordingly. *)
Theorem pushInt_minimal_head (n mt : Z) (orig : number) (e : Encoder) :
  0 <= n <= 2 ^ 53 - 1 -> 0 <= mt <= 7 ->
  emits e (_pushInt n mt orig e) (write_head mt n)
  /\ (n < 24 -> write_head mt n = [Z.lor (Z.shiftl mt 5) n])
  /\ (24 <= n ->
      exists w ai,
        In (w, ai) [(1%nat, 24); (2%nat, 25); (4%nat, 26); (8%nat, 27)]
        /\ write_head mt n = Z.lor (Z.shiftl mt 5) ai :: be_bytes w n
        /\ n < 256 ^ Z.of_nat w
        /\ (forall w', In w' [1%nat; 2%nat; 4%nat; 8%nat] ->
                       n < 256 ^ Z.of_nat w' -> (w <= w')%nat)
        /\ be_value (be_bytes w n) = n).
Proof.
  intros Hn Hmt. split; [|split].
  - apply pushInt_writes; [exact Hn | exact Hmt].
  - intros H24. unfold write_head.
    destruct (Z.ltb_spec n 24); [reflexivity | lia].
  - intros H24. unfold write_head.
    destruct (Z.ltb_spec n 24); [lia|].
    exists (smallest_width n), (width_code (smallest_width n)).
    assert (Hsmall : n < 256 ^ Z.of_nat (smallest_width n)).
    { unfold smallest_width.
      repeat match goal with
             | |- context [?a <? ?b] => destruct (Z.ltb_spec a b)
             end; cbn; lia. }
    split; [|split; [reflexivity|split; [exact Hsmall|split]]].
    + unfold smallest_width.
      repeat match goal with
             | |- context [?a <? ?b] => destruct (Z.ltb_spec a b)
             end; cbn; tauto.
    + intros w' Hin Hw'. unfold smallest_width.
      cbn in Hin.
      repeat match goal with
             | |- context [?a <? ?b] => destruct (Z.ltb_spec a b)
             end;
        destruct Hin as [<-|[<-|[<-|[<-|[]]]]]; cbn in Hw'; lia.
    + apply be_value_be_bytes_small. lia.
Qed.

Lemma pushInt_minimal_head_witness :
  emits (mkEncoder [] false None false false None false)
        (_pushInt 1000000 MT.POS_INT NaN
                  (mkEncoder [] false None false false None false))
        [0x1a; 0x00; 0x0f; 0x42; 0x40].
Proof.
  refine (proj1 (pushInt_minimal_head 1000000 MT.POS_INT NaN
                   (mkEncoder [] false None false false None false) _ _)).
  - lia.
  - unfold MT.POS_INT. lia.
Defined.

(** The claim as stated fails above 2^53 - 1: the integer 2^53, which is
    at most 2^64 - 1 and which the encoder accepts, is not written as a
    head followed by 8 big-endian bytes but as a single-precision float. *)
Lemma pushInt_above_safe_range_is_a_float :
  _pushInt (2 ^ 53) MT.POS_INT NaN
           (mkEncoder [] false None false false None false)
  = Ret true (mkEncoder [0xfa; 0x5a; 0x00; 0x00; 0x00]
                        false None false false None false)
  /\ [0xfa; 0x5a; 0x00; 0x00; 0x00] <> write_head MT.POS_INT (2 ^ 53)
  /\ encode [JNumber (of_Z (2 ^ 53))] = inl [0xfa; 0x5a; 0x00; 0x00; 0x00].
Proof. split; [vm_compute; reflexivity|]. split; [discriminate|]. vm_compute. reflexivity. Qed.

(** ** Exact rounding

    The arithmetic of [SpecFloat] is exact on the numbers the encoder
    meets on its integer paths: a dyadic number that has a canonical
    representation is rounded to it. *)

Lemma digits2_pos_size (m : positive) : digits2_pos m = Pos.size m.
Proof. induction m; cbn; congruence. Qed.

Lemma digits_bounds (m : positive) :
  2 ^ (Zpos (digits2_pos m) - 1) <= Zpos m < 2 ^ Zpos (digits2_pos m).
Proof.
  induction m as [m IH|m IH|]; cbn [digits2_pos].
  - rewrite Pos2Z.inj_succ.
    replace (Z.succ (Zpos (digits2_pos m)) - 1) with (Zpos (digits2_pos m) - 1 + 1) by lia.
    rewrite Z.pow_add_r, Z.pow_succ_r by lia. lia.
  - rewrite Pos2Z.inj_succ.
    replace (Z.succ (Zpos (digits2_pos m)) - 1) with (Zpos (digits2_pos m) - 1 + 1) by lia.
    rewrite Z.pow_add_r, Z.pow_succ_r by lia. lia.
  - cbn. lia.
Qed.

Lemma digits_unique (m : positive) (d : Z) :
  2 ^ (d - 1) <= Zpos m < 2 ^ d -> Zpos (digits2_pos m) = d.
Proof.
  intros [Hlo Hhi]. pose proof (digits_bounds m) as [Blo Bhi].
  assert (0 < d).
  { destruct (Z.ltb_spec 0 d); [lia|].
    assert (2 ^ d <= 2 ^ 0) by (apply Z.pow_le_mono_r; lia). cbn in *. lia. }
  destruct (Z.lt_trichotomy (Zpos (digits2_pos m)) d) as [Hlt|[Heq|Hgt]]; [|exact Heq|].
  - assert (2 ^ Zpos (digits2_pos m) <= 2 ^ (d - 1)) by (apply Z.pow_le_mono_r; lia). lia.
  - assert (2 ^ d <= 2 ^ (Zpos (digits2_pos m) - 1)) by (apply Z.pow_le_mono_r; lia). lia.
Qed.

Lemma digits_mul_pow2 (m m' : positive) (k : Z) :
  0 <= k -> Zpos m' = Zpos m * 2 ^ k ->
  Zpos (digits2_pos m') = Zpos (digits2_pos m) + k.
Proof.
  intros Hk Heq. apply digits_unique. rewrite Heq.
  pose proof (digits_bounds m) as [Blo Bhi].
  replace (Zpos (digits2_pos m) + k - 1) with (Zpos (digits2_pos m) - 1 + k) by lia.
  rewrite !Z.pow_add_r by lia.
  assert (0 < 2 ^ k) by (apply Z.pow_pos_nonneg; lia).
  nia.
Qed.

Lemma iter_pos_nat {A} (f : A -> A) (p : positive) (x : A) :
  SpecFloat.iter_pos f p x = Nat.iter (Pos.to_nat p) f x.
Proof.
  revert x. induction p as [p IH|p IH|]; intros x; cbn [SpecFloat.iter_pos].
  - rewrite !IH. rewrite Pos2Nat.inj_xI.
    replace (S (2 * Pos.to_nat p)) with (Pos.to_nat p + (Pos.to_nat p + 1))%nat by lia.
    rewrite !Nat.iter_add. cbn. reflexivity.
  - rewrite !IH. rewrite Pos2Nat.inj_xO.
    replace (2 * Pos.to_nat p)%nat with (Pos.to_nat p + Pos.to_nat p)%nat by lia.
    rewrite Nat.iter_add. reflexivity.
  - reflexivity.
Qed.

Lemma shr_1_even (q : Z) :
  0 <= q -> shr_1 (Build_shr_record (2 * q) false false) = Build_shr_record q false false.
Proof. intros Hq. destruct q as [|q|q]; [reflexivity|reflexivity|lia]. Qed.

Lemma iter_shr_1_exact (k : nat) (q : Z) :
  0 <= q ->
  Nat.iter k shr_1 (Build_shr_record (q * 2 ^ Z.of_nat k) false false)
  = Build_shr_record q false false.
Proof.
  intros Hq. induction k as [|k IH].
  - cbn. now rewrite Z.mul_1_r.
  - rewrite Nat.iter_succ_r.
    rewrite Nat2Z.inj_succ, Z.pow_succ_r by lia.
    replace (q * (2 * 2 ^ Z.of_nat k)) with (2 * (q * 2 ^ Z.of_nat k)) by ring.
    rewrite shr_1_even; [exact IH|].
    assert (0 < 2 ^ Z.of_nat k) by (apply Z.pow_pos_nonneg; lia). nia.
Qed.

Lemma pos_iter_xO (m d : positive) : Zpos (Pos.iter xO m d) = Zpos m * 2 ^ Zpos d.
Proof.
  rewrite <- Z.shiftl_mul_pow2 by lia. cbn.
  apply (Pos.iter_swap_gen _ _ Zpos xO (Z.mul 2)). reflexivity.
Qed.

Section Exact.
Variables prec emax : Z.

Lemma binary_round_aux_canonical (s : bool) (m : positive) (e : Z) :
  canonical_mantissa prec emax m e = true -> e <= emax - prec ->
  binary_round_aux prec emax s (Zpos m) e loc_Exact = S754_finite s m e.
Proof.
  intros Hc He. unfold canonical_mantissa in Hc. apply Z.eqb_eq in Hc.
  unfold binary_round_aux, shr_fexp. cbn [Zdigits2 shr_record_of_loc].
  rewrite Hc, Z.sub_diag. cbn [shr shr_m loc_of_shr_record round_nearest_even].
  cbn [Zdigits2 shr_record_of_loc].
  rewrite Hc, Z.sub_diag. cbn [shr shr_m].
  destruct (Z.leb_spec e (emax - prec)); [reflexivity|lia].
Qed.

Lemma binary_round_exact (s : bool) (m m' : positive) (e e' : Z) :
  canonical_mantissa prec emax m' e' = true -> e' <= emax - prec ->
  (e' <= e /\ Zpos m' = Zpos m * 2 ^ (e - e')) \/
  (e <= e' /\ Zpos m = Zpos m' * 2 ^ (e' - e)) ->
  binary_round prec emax s m e = S754_finite s m' e'.
Proof.
  intros Hc He Hval.
  assert (Hd : Zpos (digits2_pos m) + e = Zpos (digits2_pos m') + e').
  { destruct Hval as [[Hle Hv]|[Hle Hv]].
    - rewrite (digits_mul_pow2 m m' (e - e')) by (lia || exact Hv). lia.
    - rewrite (digits_mul_pow2 m' m (e' - e)) by (lia || exact Hv). lia. }
  assert (Hf : fexp prec emax (Zpos (digits2_pos m) + e) = e').
  { rewrite Hd. unfold canonical_mantissa in Hc. now apply Z.eqb_eq in Hc. }
  unfold binary_round. rewrite Hf.
  destruct (Z.lt_trichotomy e e') as [Hlt|[Heq|Hgt]].
  - (* the mantissa is shifted right, exactly *)
    destruct Hval as [[Hle Hv]|[Hle Hv]]; [lia|].
    unfold shl_align. destruct (e' - e) as [|p|p] eqn:Hp; try lia.
    unfold binary_round_aux, shr_fexp. cbn [Zdigits2 shr_record_of_loc].
    rewrite Hf, Hp. cbn [shr]. rewrite iter_pos_nat.
    rewrite Hv.
    replace (Zpos m' * 2 ^ Zpos p)
      with (Zpos m' * 2 ^ Z.of_nat (Pos.to_nat p))
      by (now rewrite positive_nat_Z).
    rewrite iter_shr_1_exact by lia.
    cbn [shr_m loc_of_shr_record round_nearest_even Zdigits2 shr_record_of_loc].
    unfold canonical_mantissa in Hc. apply Z.eqb_eq in Hc.
    replace (e + Zpos p) with e' by lia.
    rewrite Hc, Z.sub_diag. cbn [shr shr_m].
    destruct (Z.leb_spec e' (emax - prec)); [reflexivity|lia].
  - subst e.
    assert (m' = m).
    { destruct Hval as [[_ Hv]|[_ Hv]]; rewrite Z.sub_diag, Z.mul_1_r in Hv;
        congruence. }
    subst m'. unfold shl_align. rewrite Z.sub_diag.
    now apply binary_round_aux_canonical.
  - destruct Hval as [[Hle Hv]|[Hle Hv]]; [|lia].
    unfold shl_align. destruct (e' - e) as [|p|p] eqn:Hp; try lia.
    assert (Pos.iter xO m p = m').
    { apply Pos2Z.inj. rewrite pos_iter_xO, Hv.
      pose proof (Pos2Z.opp_pos p).
      replace (e - e') with (Zpos p) by lia. reflexivity. }
    rewrite H. now apply binary_round_aux_canonical.
Qed.
End Exact.


Lemma digits_lt_pow2 (k : positive) (d : Z) :
  Zpos k < 2 ^ d -> Zpos (digits2_pos k) <= d.
Proof.
  intros H. pose proof (digits_bounds k) as [Blo _].
  destruct (Z.leb_spec (Zpos (digits2_pos k)) d); [assumption|].
  assert (2 ^ d <= 2 ^ (Zpos (digits2_pos k) - 1)).
  { apply Z.pow_le_mono_r; lia. }
  lia.
Qed.

Lemma int_mant_value (k : positive) :
  Zpos k < 2 ^ 53 ->
  Zpos (int_mant k) = Zpos k * 2 ^ (53 - Zpos (digits2_pos k)).
Proof.
  intros Hk. pose proof (digits_lt_pow2 k 53 Hk).
  unfold int_mant. rewrite Z2Pos.id; [reflexivity|].
  assert (0 < 2 ^ (53 - Zpos (digits2_pos k))) by (apply Z.pow_pos_nonneg; lia).
  nia.
Qed.

Lemma int_exp_range (k : positive) : Zpos k < 2 ^ 53 -> -52 <= int_exp k <= 0.
Proof.
  intros Hk. pose proof (digits_lt_pow2 k 53 Hk). unfold int_exp. lia.
Qed.

Lemma int_float_canonical (k : positive) :
  Zpos k < 2 ^ 53 ->
  canonical_mantissa prec64 emax64 (int_mant k) (int_exp k) = true.
Proof.
  intros Hk. pose proof (digits_lt_pow2 k 53 Hk).
  unfold canonical_mantissa. apply Z.eqb_eq.
  rewrite (digits_mul_pow2 k (int_mant k) (53 - Zpos (digits2_pos k)))
    by (lia || now apply int_mant_value).
  unfold fexp, emin, int_exp, prec64, emax64. lia.
Qed.

(** Rounding a dyadic number that is an integer below 2^53 is exact. *)
Lemma round_integer (s : bool) (v k : positive) (ez : Z) :
  ez <= 0 -> Zpos v = Zpos k * 2 ^ (- ez) -> Zpos k < 2 ^ 53 ->
  binary_round prec64 emax64 s v ez = int_float s k.
Proof.
  intros Hez Hv Hk.
  pose proof (int_exp_range k Hk) as He.
  pose proof (int_mant_value k Hk) as Hm.
  apply binary_round_exact.
  - now apply int_float_canonical.
  - unfold emax64, prec64. lia.
  - unfold int_exp in *.
    destruct (Z.leb_spec (Zpos (digits2_pos k) - 53) ez).
    + left. split; [assumption|]. rewrite Hm, Hv.
      rewrite <- Z.mul_assoc, <- Z.pow_add_r by lia. f_equal. f_equal. lia.
    + right. split; [lia|]. rewrite Hm, Hv.
      rewrite <- Z.mul_assoc, <- Z.pow_add_r by lia. f_equal. f_equal. lia.
Qed.

Lemma of_Z_pos (k : positive) : Zpos k < 2 ^ 53 -> of_Z (Zpos k) = int_float false k.
Proof.
  intros Hk. unfold of_Z, binary_normalize.
  apply round_integer; [lia| |assumption]. cbn. lia.
Qed.

Lemma of_Z_neg (k : positive) : Zpos k < 2 ^ 53 -> of_Z (Zneg k) = int_float true k.
Proof.
  intros Hk. unfold of_Z, binary_normalize.
  apply round_integer; [lia| |assumption]. cbn. lia.
Qed.

Lemma to_Z_int_float (s : bool) (k : positive) :
  Zpos k < 2 ^ 53 -> to_Z (int_float s k) = if s then Zneg k else Zpos k.
Proof.
  intros Hk. pose proof (int_exp_range k Hk) as He.
  pose proof (int_mant_value k Hk) as Hm.
  unfold int_float, to_Z. rewrite Hm.
  assert (Ha : (if 0 <=? int_exp k
                then Zpos k * 2 ^ (53 - Zpos (digits2_pos k)) * 2 ^ int_exp k
                else Zpos k * 2 ^ (53 - Zpos (digits2_pos k)) / 2 ^ (- int_exp k))
               = Zpos k).
  { unfold int_exp in *. destruct (Z.leb_spec 0 (Zpos (digits2_pos k) - 53)).
    - replace (Zpos (digits2_pos k) - 53) with 0 by lia.
      replace (53 - Zpos (digits2_pos k)) with 0 by lia. cbn. lia.
    - replace (- (Zpos (digits2_pos k) - 53)) with (53 - Zpos (digits2_pos k)) by lia.
      apply Z.div_mul. apply Z.pow_nonzero; lia. }
  rewrite Ha. destruct s; reflexivity.
Qed.

Lemma to_Z_of_Z (n : Z) : - 2 ^ 53 < n < 2 ^ 53 -> to_Z (of_Z n) = n.
Proof.
  intros Hn. destruct n as [|k|k].
  - reflexivity.
  - rewrite of_Z_pos by lia. apply to_Z_int_float. lia.
  - rewrite of_Z_neg by lia. apply to_Z_int_float. lia.
Qed.

Lemma eqb_finite_refl (s : bool) (m : positive) (e : Z) :
  eqb (S754_finite s m e) (S754_finite s m e) = true.
Proof.
  unfold eqb, SFeqb, SFcompare.
  rewrite Z.compare_refl, Pos.compare_cont_refl. destruct s; reflexivity.
Qed.

Lemma Math_round_int_float (s : bool) (k : positive) :
  Zpos k < 2 ^ 53 -> Math_round (int_float s k) = int_float s k.
Proof.
  intros Hk. pose proof (int_exp_range k Hk) as He.
  pose proof (int_mant_value k Hk) as Hm.
  unfold int_float, Math_round.
  destruct (Z.leb_spec 0 (int_exp k)) as [H0|H0]; [reflexivity|].
  set (j := - int_exp k) in *.
  assert (Hj : 53 - Zpos (digits2_pos k) = j) by (unfold j, int_exp; lia).
  rewrite Hj in Hm.
  assert (Hp : 0 < 2 ^ j) by (apply Z.pow_pos_nonneg; lia).
  assert (Hn : (2 * (if s then Zneg (int_mant k) else Zpos (int_mant k)) + 2 ^ j)
               / 2 ^ (j + 1) = if s then Zneg k else Zpos k).
  { rewrite Z.pow_add_r by lia. change (2 ^ 1) with 2.
    destruct s.
    - replace (Zneg (int_mant k)) with (- Zpos (int_mant k)) by reflexivity.
      rewrite Hm.
      replace (2 * - (Zpos k * 2 ^ j) + 2 ^ j) with ((2 * Zneg k + 1) * 2 ^ j)
        by (replace (Zneg k) with (- Zpos k) by reflexivity; ring).
      rewrite (Z.mul_comm (2 ^ j) 2), Z.div_mul_cancel_r by lia.
      replace (Zneg k) with (- Zpos k) by reflexivity.
      symmetry. apply (Z.div_unique _ _ _ 1); lia.
    - rewrite Hm.
      replace (2 * (Zpos k * 2 ^ j) + 2 ^ j) with ((2 * Zpos k + 1) * 2 ^ j) by ring.
      rewrite (Z.mul_comm (2 ^ j) 2), Z.div_mul_cancel_r by lia.
      symmetry. apply (Z.div_unique _ _ _ 1); lia. }
  cbv zeta. rewrite Hn.
  destruct s; cbn [Z.eqb]; [apply of_Z_neg | apply of_Z_pos]; assumption.
Qed.

(** ** Heads read back *)

Lemma head_fields (mt a : Z) :
  0 <= mt <= 7 -> 0 <= a < 32 ->
  Z.shiftr (Z.lor (Z.shiftl mt 5) a) 5 = mt
  /\ Z.land (Z.lor (Z.shiftl mt 5) a) 0x1F = a.
Proof.
  intros Hmt Ha. rewrite lor_head by assumption. split.
  - rewrite Z.shiftr_div_pow2 by lia. change (2 ^ 5) with 32.
    symmetry. apply (Z.div_unique _ _ _ a); lia.
  - change 0x1F with (Z.ones 5). rewrite Z.land_ones by lia.
    change (2 ^ 5) with 32. symmetry. apply (Z.mod_unique _ _ mt); lia.
Qed.

Lemma take_all_be_bytes (w : nat) (n : Z) : take w (be_bytes w n) = be_bytes w n.
Proof. apply firstn_all2. rewrite length_be_bytes. lia. Qed.

(** [parseCBORint] on the tail that [write_head] gives to an argument
    that needs one. *)
Lemma parseCBORint_write_head_tail (n : Z) (bigInt : bool) :
  24 <= n <= 2 ^ 53 - 1 ->
  Util.parseCBORint (width_code (smallest_width n))
                    (be_bytes (smallest_width n) n) bigInt
  = inl (Util.Native n).
Proof.
  intros Hn. unfold smallest_width.
  destruct (Z.ltb_spec n (2 ^ 8)) as [H8|H8].
  { unfold Util.parseCBORint. cbn [width_code]. 
    change (width_code 1 =? NUMBYTES.ONE) with true. cbv iota.
    rewrite take_all_be_bytes, be_value_be_bytes_small by (cbn; lia).
    reflexivity. }
  destruct (Z.ltb_spec n (2 ^ 16)) as [H16|H16].
  { unfold Util.parseCBORint.
    change (width_code 2 =? NUMBYTES.ONE) with false.
    change (width_code 2 =? NUMBYTES.TWO) with true. cbv iota.
    rewrite take_all_be_bytes, be_value_be_bytes_small by (cbn; lia).
    reflexivity. }
  destruct (Z.ltb_spec n (2 ^ 32)) as [H32|H32].
  { unfold Util.parseCBORint.
    change (width_code 4 =? NUMBYTES.ONE) with false.
    change (width_code 4 =? NUMBYTES.TWO) with false.
    change (width_code 4 =? NUMBYTES.FOUR) with true. cbv iota.
    rewrite take_all_be_bytes, be_value_be_bytes_small by (cbn; lia).
    reflexivity. }
  change (width_code 8) with NUMBYTES.EIGHT.
  rewrite parseCBORint_EIGHT. cbv zeta.
  pose proof (be_value_words (be_bytes 8 n) (length_be_bytes 8 n)) as Hw.
  rewrite be_value_be_bytes_small in Hw by (cbn; lia).
  pose proof (take4_range (be_bytes 8 n) (be_bytes_in_range 8 n)) as Hf.
  rewrite length_be_bytes in Hf. specialize (Hf ltac:(lia)).
  assert (Hg : 0 <= be_value (take 4 (drop 4 (be_bytes 8 n))) < 2 ^ 32).
  { apply take4_range.
    - apply Forall_drop, be_bytes_in_range.
    - rewrite length_drop, length_be_bytes. lia. }
  destruct (Z.ltb_spec MAX_SAFE_HIGH (be_value (take 4 (be_bytes 8 n)))) as [Hhi|Hhi].
  - unfold MAX_SAFE_HIGH, SHIFT32 in *. lia.
  - rewrite <- Hw. reflexivity.
Qed.

(** X1.  What [_pushInt] writes for a major type and a safe integer is read
    back by the decoder's helpers: the head byte splits into the major type
    and the additional info, and the additional info is the argument itself
    below 24 and otherwise selects, in [parseCBORint], the native number
    [n] from the bytes that follow. *)
Theorem pushInt_head_reads_back (n mt : Z) (orig : number) (e : Encoder)
        (bigInt : bool) :
  0 <= n <= 2 ^ 53 - 1 -> 0 <= mt <= 7 ->
  exists head tail,
    emits e (_pushInt n mt orig e) (head :: tail)
    /\ Z.shiftr head 5 = mt
    /\ (if n <? 24
        then Z.land head 0x1F = n /\ tail = []
        else Util.parseCBORint (Z.land head 0x1F) tail bigInt
             = inl (Util.Native n)).
Proof.
  intros Hn Hmt.
  pose proof (pushInt_writes n mt orig Hn Hmt e) as Hw.
  unfold write_head in Hw.
  destruct (Z.ltb_spec n 24) as [H24|H24].
  - exists (Z.lor (Z.shiftl mt 5) n), [].
    destruct (head_fields mt n Hmt ltac:(lia)) as [Hs Hl].
    repeat split; assumption.
  - exists (Z.lor (Z.shiftl mt 5) (width_code (smallest_width n))),
           (be_bytes (smallest_width n) n).
    assert (Hai : 24 <= width_code (smallest_width n) < 32).
    { unfold smallest_width.
      repeat match goal with
             | |- context [?a <? ?b] => destruct (Z.ltb_spec a b)
             end; vm_compute; (split; [discriminate | reflexivity]). }
    destruct (head_fields mt (width_code (smallest_width n)) Hmt ltac:(lia))
      as [Hs Hl].
    split; [exact Hw|]. split; [exact Hs|].
    rewrite Hl. apply parseCBORint_write_head_tail. lia.
Qed.

Lemma pushInt_head_reads_back_witness :
  exists head tail,
    emits (mkEncoder [] false None false false None false)
          (_pushInt 500 MT.ARRAY NaN
                    (mkEncoder [] false None false false None false))
          (head :: tail)
    /\ Z.shiftr head 5 = MT.ARRAY
    /\ (if 500 <? 24
        then Z.land head 0x1F = 500 /\ tail = []
        else Util.parseCBORint (Z.land head 0x1F) tail true
             = inl (Util.Native 500)).
Proof.
  apply (pushInt_head_reads_back 500 MT.ARRAY NaN
           (mkEncoder [] false None false false None false) true).
  - lia.
  - unfold MT.ARRAY. lia.
Defined.

(** ** Integers as numbers *)

Lemma shl_align_value (m : positive) (e ez : Z) :
  ez <= e -> Zpos (fst (shl_align m e ez)) = Zpos m * 2 ^ (e - ez).
Proof.
  intros Hle. unfold shl_align.
  destruct (ez - e) as [|p|p] eqn:Hp.
  - replace (e - ez) with 0 by lia. cbn [fst]. lia.
  - lia.
  - cbn [fst]. rewrite pos_iter_xO. pose proof (Pos2Z.opp_pos p).
    replace (e - ez) with (Zpos p) by lia. reflexivity.
Qed.

Lemma of_Z_1 : of_Z 1 = S754_finite false 4503599627370496 (-52).
Proof. reflexivity. Qed.

(** [x - 1] is exact on the positive integers below 2^53. *)
Lemma sub_int_float_1 (k : positive) :
  Zpos k < 2 ^ 53 -> sub (int_float false k) (of_Z 1) = of_Z (Zpos k - 1).
Proof.
  intros Hk. pose proof (int_exp_range k Hk) as He.
  pose proof (int_mant_value k Hk) as Hm.
  rewrite of_Z_1. unfold sub, int_float, SFsub.
  rewrite Z.min_r by lia.
  replace (fst (shl_align 4503599627370496 (-52) (-52))) with 4503599627370496%positive
    by reflexivity.
  unfold cond_Zopp.
  rewrite shl_align_value by lia. rewrite Hm.
  replace (Zpos k * 2 ^ (53 - Zpos (digits2_pos k)) * 2 ^ (int_exp k - -52)
           - 4503599627370496)
    with ((Zpos k - 1) * 2 ^ 52).
  2:{ rewrite <- Z.mul_assoc, <- Z.pow_add_r by (unfold int_exp in *; lia).
      replace (53 - Zpos (digits2_pos k) + (int_exp k - -52)) with 52
        by (unfold int_exp; lia).
      change 4503599627370496 with (2 ^ 52). ring. }
  destruct (Zpos k - 1) as [|j|j] eqn:Hj; [reflexivity| |lia].
  assert (Hjk : Zpos j < 2 ^ 53) by lia.
  rewrite (of_Z_pos j Hjk).
  unfold binary_normalize.
  assert (Hpos : exists v, Zpos j * 2 ^ 52 = Zpos v).
  { destruct (Zpos j * 2 ^ 52) as [|v|v] eqn:Hv; [lia|now exists v|lia]. }
  destruct Hpos as [v Hv]. rewrite Hv.
  apply round_integer; [lia | exact (eq_sym Hv) | exact Hjk].
Qed.

Lemma ltb_int_float (s : bool) (k : positive) : ltb (int_float s k) pos_zero = s.
Proof. destruct s; reflexivity. Qed.

Lemma eqb_int_float (s : bool) (k : positive) :
  eqb (int_float s k) (int_float s k) = true.
Proof. apply eqb_finite_refl. Qed.

(** The integer path of [_pushNumber] on the number that holds a safe
    integer. *)
Lemma pushNumber_safe_integer_writes (n : Z) :
  - 2 ^ 53 <= n <= 2 ^ 53 - 1 ->
  writes (_pushNumber (of_Z n))
         (if n <? 0 then write_head MT.NEG_INT (- n - 1)
          else write_head MT.POS_INT n).
Proof.
  intros Hn. destruct n as [|k|k].
  - intros e. apply (pushInt_writes 0 MT.POS_INT NaN); unfold MAX_SAFE_INTEGER, MT.POS_INT; lia.
  - rewrite of_Z_pos by lia.
    unfold _pushNumber. cbn [int_float isNaN isFinite negb].
    fold (int_float false k). rewrite Math_round_int_float, eqb_int_float by lia.
    unfold _pushIntNum. cbn [int_float is_neg_zero].
    fold (int_float false k). rewrite ltb_int_float, to_Z_int_float by lia.
    destruct (Z.ltb_spec (Zpos k) 0); [lia|].
    apply pushInt_writes; unfold MAX_SAFE_INTEGER, MT.POS_INT; lia.
  - destruct (Z.eq_dec (Zneg k) (- 2 ^ 53)) as [Heq|Hne].
    + rewrite Heq. intros e.
      apply (pushInt_writes (2 ^ 53 - 1) MT.NEG_INT (of_Z (- 2 ^ 53)));
        unfold MAX_SAFE_INTEGER, MT.NEG_INT; lia.
    + assert (Hk : Zpos k < 2 ^ 53).
      { pose proof (Pos2Z.opp_pos k). lia. }
      rewrite of_Z_neg by lia.
      unfold _pushNumber. cbn [int_float isNaN isFinite negb].
      fold (int_float true k). rewrite Math_round_int_float, eqb_int_float by lia.
      unfold _pushIntNum. cbn [int_float is_neg_zero].
      fold (int_float true k). rewrite ltb_int_float.
      change (opp (int_float true k)) with (int_float false k).
      rewrite sub_int_float_1 by lia.
      rewrite to_Z_of_Z by lia.
      destruct (Z.ltb_spec (Zneg k) 0); [|lia].
      replace (- Zneg k - 1) with (Zpos k - 1) by (pose proof (Pos2Z.opp_pos k); lia).
      apply pushInt_writes; unfold MAX_SAFE_INTEGER, MT.NEG_INT; lia.
Qed.

(** X2.  A number that holds an integer of the safe range
    [-2^53 .. 2^53 - 1] is written as a CBOR integer with the head of
    minimal length: major type 0 with argument [n] when [n >= 0], major
    type 1 with argument [-n - 1] when [n < 0]. *)
Theorem pushNumber_safe_integer (n : Z) (e : Encoder) :
  - 2 ^ 53 <= n <= 2 ^ 53 - 1 ->
  emits e (_pushNumber (of_Z n) e)
        (if n <? 0 then write_head MT.NEG_INT (- n - 1)
         else write_head MT.POS_INT n).
Proof. intros Hn. now apply pushNumber_safe_integer_writes. Qed.

Lemma pushNumber_safe_integer_witness :
  emits (mkEncoder [] false None false false None false)
        (_pushNumber (of_Z (-1000))
                     (mkEncoder [] false None false false None false))
        [0x39; 0x03; 0xe7].
Proof.
  apply (pushNumber_safe_integer (-1000)
           (mkEncoder [] false None false false None false)).
  lia.
Defined.

(** ** The dispatch of numbers *)

Lemma eqb_finite_inv (s1 s2 : bool) (m1 m2 : positive) (e1 e2 : Z) :
  eqb (S754_finite s1 m1 e1) (S754_finite s2 m2 e2) = true ->
  s1 = s2 /\ m1 = m2 /\ e1 = e2.
Proof.
  unfold eqb, SFeqb, SFcompare.
  destruct s1, s2; try discriminate;
    destruct (Z.compare_spec e1 e2) as [He|He|He]; try discriminate;
    destruct (Pos.compare_cont Eq m1 m2) eqn:Hm; try discriminate;
    intros _; apply Pos.compare_eq in Hm; auto.
Qed.

Lemma valid_finite (s : bool) (m : positive) (e : Z) :
  valid (S754_finite s m e) = true ->
  canonical_mantissa prec64 emax64 m e = true /\ e <= emax64 - prec64
  /\ Zpos m < 2 ^ 53.
Proof.
  unfold valid, valid_binary, bounded. intros H.
  apply andb_true_iff in H as [Hc He]. apply Z.leb_le in He.
  split; [exact Hc|]. split; [exact He|].
  unfold canonical_mantissa in Hc. apply Z.eqb_eq in Hc.
  unfold fexp, prec64 in Hc.
  pose proof (digits_bounds m) as [_ Hhi].
  assert (Hd : Zpos (digits2_pos m) <= 53) by lia.
  assert (2 ^ Zpos (digits2_pos m) <= 2 ^ 53) by (apply Z.pow_le_mono_r; lia).
  lia.
Qed.

(** A valid number is its own rounding. *)
Lemma binary_round_valid (s : bool) (m : positive) (e : Z) :
  valid (S754_finite s m e) = true ->
  binary_round prec64 emax64 s m e = S754_finite s m e.
Proof.
  intros Hv. apply valid_finite in Hv as (Hc & He & _).
  apply binary_round_exact; [exact Hc | exact He |].
  left. rewrite Z.sub_diag. cbn. lia.
Qed.

(** A valid number with an integer value is the canonical form of that
    integer. *)
Lemma integral_is_int_float (s : bool) (m k : positive) (e : Z) :
  valid (S754_finite s m e) = true -> e < 0 ->
  Zpos m = Zpos k * 2 ^ (- e) ->
  S754_finite s m e = int_float s k.
Proof.
  intros Hv He Hk. rewrite <- (binary_round_valid s m e Hv).
  apply round_integer; [lia | exact Hk |].
  apply valid_finite in Hv as (_ & _ & Hm).
  assert (0 < 2 ^ (- e)) by (apply Z.pow_pos_nonneg; lia). nia.
Qed.

Lemma Math_round_fixes_integral (x : number) :
  valid x = true -> isFinite x = true ->
  eqb (Math_round x) x = is_integral x.
Proof.
  intros Hv Hfin. destruct x as [s|s| |s m e]; try discriminate.
  - destruct s; reflexivity.
  - unfold is_integral. destruct (Z.leb_spec 0 e) as [He|He].
    + unfold Math_round. destruct (Z.leb_spec 0 e); [|lia].
      apply eqb_finite_refl.
    + cbn [orb]. assert (Hp : 0 < 2 ^ (- e)) by (apply Z.pow_pos_nonneg; lia).
      destruct (Z.eqb_spec (Zpos m mod 2 ^ (- e)) 0) as [Hdiv|Hndiv].
      * (* an integer: Math.round returns it *)
        assert (Hk : exists k, Zpos m = Zpos k * 2 ^ (- e)).
        { apply Z.mod_divide in Hdiv; [|lia]. destruct Hdiv as [q Hq].
          destruct q as [|k|k]; [lia| |lia]. now exists k. }
        destruct Hk as [k Hk].
        rewrite (integral_is_int_float s m k e Hv He Hk).
        rewrite Math_round_int_float; [apply eqb_int_float|].
        apply valid_finite in Hv as (_ & _ & Hm). nia.
      * (* not an integer: Math.round returns an integer, another number *)
        destruct (eqb (Math_round (S754_finite s m e)) (S754_finite s m e))
          eqn:Heq; [exfalso|reflexivity].
        unfold Math_round in Heq. destruct (Z.leb_spec 0 e); [lia|].
        cbv zeta in Heq.
        set (n := (2 * (if s then Zneg m else Zpos m) + 2 ^ (- e))
                  / 2 ^ (- e + 1)) in Heq.
        assert (Hm : Zpos m < 2 ^ 53) by (apply valid_finite in Hv; tauto).
        assert (Hn : - 2 ^ 53 < n < 2 ^ 53).
        { unfold n. rewrite Z.pow_add_r by lia. change (2 ^ 1) with 2.
          assert (H2 : 2 <= 2 ^ (- e)).
          { change 2 with (2 ^ 1) at 1. apply Z.pow_le_mono_r; lia. }
          split.
          - apply Z.lt_le_trans with (- Zpos m); [lia|].
            apply Z.div_le_lower_bound; [lia|].
            destruct s; [replace (Zneg m) with (- Zpos m) by reflexivity|]; nia.
          - apply Z.div_lt_upper_bound; [lia|].
            destruct s; [replace (Zneg m) with (- Zpos m) by reflexivity|]; nia. }
        destruct (Z.eqb_spec n 0) as [Hz|Hnz].
        { clear - Heq. destruct s; discriminate Heq. }
        assert (Hform : exists s' k, of_Z n = int_float s' k /\ Zpos k < 2 ^ 53).
        { destruct n as [|k|k]; [lia| |].
          - exists false, k. split; [apply of_Z_pos|]; lia.
          - exists true, k. pose proof (Pos2Z.opp_pos k).
            split; [apply of_Z_neg|]; lia. }
        destruct Hform as (s' & k & Hof & Hk). rewrite Hof in Heq.
        apply eqb_finite_inv in Heq as (_ & Hmk & Hek).
        apply Hndiv. rewrite <- Hmk, (int_mant_value k Hk).
        replace (53 - Zpos (digits2_pos k)) with (- e) by (unfold int_exp in Hek; lia).
        apply Z.mod_mul. lia.
Qed.

Lemma length_setFloat32 (x : number) : length (setFloat32 x) = 4%nat.
Proof. apply length_be_bytes. Qed.

Lemma length_setFloat64 (x : number) : length (setFloat64 x) = 8%nat.
Proof. apply length_be_bytes. Qed.

Lemma pushFloat_writes (x : number) (e : Encoder) :
  canonical e = false ->
  emits e (_pushFloat x e)
        (if eqb (Math_fround x) x then 0xfa :: setFloat32 x
         else 0xfb :: setFloat64 x).
Proof.
  intros Hc. unfold _pushFloat, bind, gets. rewrite Hc.
  destruct (Util.writeHalf [0; 0] x) as [ok b2]. cbn [andb].
  destruct (eqb (Math_fround x) x).
  - apply (emits_and_then e _ _ [0xfa] (setFloat32 x)); apply emits_push.
  - apply (emits_and_then e _ _ [0xfb] (setFloat64 x)); apply emits_push.
Qed.

(** X3.  On a valid finite number, [_pushNumber] takes the integer path
    exactly when the value of the number is an integer.  Every other
    finite number is written, by an encoder that is not canonical, as
    [0xfa] and its 4 single-precision bytes when [Math.fround(x) === x],
    and as [0xfb] and its 8 double-precision bytes otherwise. *)
Theorem pushNumber_dispatch (x : number) (e : Encoder) :
  valid x = true -> isFinite x = true -> canonical e = false ->
  if is_integral x then _pushNumber x e = _pushIntNum x e
  else
    emits e (_pushNumber x e)
          (if eqb (Math_fround x) x then 0xfa :: setFloat32 x
           else 0xfb :: setFloat64 x)
    /\ length (setFloat32 x) = 4%nat /\ length (setFloat64 x) = 8%nat.
Proof.
  intros Hv Hfin Hc.
  pose proof (Math_round_fixes_integral x Hv Hfin) as Hr.
  unfold _pushNumber.
  assert (Hnan : isNaN x = false) by (destruct x; try reflexivity; discriminate).
  rewrite Hnan, Hfin, Hr. cbn [negb].
  destruct (is_integral x); [reflexivity|].
  split; [now apply pushFloat_writes|].
  split; [apply length_setFloat32 | apply length_setFloat64].
Qed.

Lemma pushNumber_dispatch_witness :
  emits (mkEncoder [] false None false false None false)
        (_pushNumber (S754_finite false 6755399441055744 (-52))
                     (mkEncoder [] false None false false None false))
        [0xfa; 0x3f; 0xc0; 0x00; 0x00].
Proof.
  refine (proj1 (pushNumber_dispatch (S754_finite false 6755399441055744 (-52))
                   (mkEncoder [] false None false false None false) _ _ _));
    reflexivity.
Defined.

(** ** Hexadecimal digits and bytes *)

Lemma digit_value_char (d : Z) :
  0 <= d < 16 -> Hex.digit_value (Hex.digit_char d) = Some d.
Proof.
  intros Hd. rewrite <- (Z2Nat.id d) by lia.
  assert (Hn : (Z.to_nat d < 16)%nat) by lia.
  generalize dependent (Z.to_nat d). intros n Hn.
  do 16 (destruct n as [|n]; [reflexivity|]). lia.
Qed.

Lemma length_hex_be (k : nat) (n : Z) : length (hex_be k n) = k.
Proof. induction k as [|k IH]; cbn; [reflexivity | now rewrite IH]. Qed.

Lemma pow16_pos (k : nat) : 0 < 16 ^ Z.of_nat k.
Proof. apply Z.pow_pos_nonneg; lia. Qed.

Lemma hex_be_snoc (k : nat) (n : Z) :
  hex_be (S k) n = hex_be k (n / 16) ++ [Hex.digit_char (n mod 16)].
Proof.
  induction k as [|k IH].
  - cbn. now rewrite Z.div_1_r.
  - change (hex_be (S (S k)) n)
      with (Hex.digit_char ((n / 16 ^ Z.of_nat (S k)) mod 16) :: hex_be (S k) n).
    rewrite IH. cbn [hex_be app]. f_equal. f_equal. f_equal.
    rewrite Nat2Z.inj_succ, Z.pow_succ_r by lia.
    pose proof (pow16_pos k). rewrite Z.div_div by lia. reflexivity.
Qed.

Lemma hex_length_small (n : Z) : 0 <= n < 16 -> hex_length n = 1%nat.
Proof.
  intros Hn. unfold hex_length.
  destruct (Z.eq_dec n 0) as [->|Hnz]; [reflexivity|].
  assert (Z.log2 n < 4) by (apply Z.log2_lt_pow2; lia).
  pose proof (Z.log2_nonneg n).
  rewrite Z.div_small by lia. reflexivity.
Qed.

Lemma hex_length_div (n : Z) : 16 <= n -> hex_length n = S (hex_length (n / 16)).
Proof.
  intros Hn. unfold hex_length.
  change (n / 16) with (n / 2 ^ 4). rewrite <- Z.shiftr_div_pow2, Z.log2_shiftr by lia.
  assert (4 <= Z.log2 n) by (apply Z.log2_le_pow2; lia).
  rewrite Z.max_r by lia.
  replace (Z.log2 n) with ((Z.log2 n - 4) + 1 * 4) at 1 by lia.
  rewrite Z.div_add by lia.
  rewrite Z2Nat.inj_add by (try apply Z.div_pos; lia).
  cbn. lia.
Qed.

Lemma toString16_loop_digits (fuel : nat) (n : Z) (acc : list ascii) :
  0 <= n -> (hex_length n <= fuel)%nat ->
  Hex.toString16_loop fuel n acc = hex_be (hex_length n) n ++ acc.
Proof.
  revert n acc. induction fuel as [|fuel IH]; intros n acc Hn Hfuel.
  - unfold hex_length in Hfuel. lia.
  - cbn [Hex.toString16_loop]. destruct (Z.ltb_spec n 16) as [Hlt|Hge].
    + rewrite hex_length_small by lia. cbn. now rewrite Z.div_1_r, Z.mod_small by lia.
    + rewrite hex_length_div in * by lia.
      rewrite IH; [|apply Z.div_pos; lia|lia].
      rewrite hex_be_snoc, <- app_assoc. reflexivity.
Qed.

Lemma toString16_digits (n : Z) :
  0 <= n -> Hex.toString16 n = hex_be (hex_length n) n.
Proof.
  intros Hn. unfold Hex.toString16.
  rewrite toString16_loop_digits, app_nil_r; [reflexivity|exact Hn|].
  unfold hex_length. pose proof (Z.log2_nonneg n).
  assert (Z.log2 n / 4 <= Z.log2 n) by (apply Z.div_le_upper_bound; lia).
  lia.
Qed.

(** Two hexadecimal digits make one byte. *)
Lemma decode_hex_be (k : nat) (n : Z) :
  Hex.decode (hex_be (2 * k) n) = be_bytes k n.
Proof.
  induction k as [|k IH]; [reflexivity|].
  replace (2 * S k)%nat with (S (S (2 * k))) by lia.
  cbn [hex_be Hex.decode be_bytes].
  rewrite !digit_value_char by (apply Z.mod_pos_bound; lia).
  rewrite IH. f_equal.
  replace (2 ^ (8 * Z.of_nat k)) with (16 ^ Z.of_nat (2 * k)).
  2:{ change 16 with (2 ^ 4). rewrite <- Z.pow_mul_r by lia. f_equal. lia. }
  rewrite Nat2Z.inj_succ, Z.pow_succ_r by lia.
  pose proof (pow16_pos (2 * k)) as Hp.
  rewrite (Z.mul_comm 16 (16 ^ Z.of_nat (2 * k))), <- Z.div_div by lia.
  generalize (n / 16 ^ Z.of_nat (2 * k)). intros a.
  pose proof (Z.div_mod a 16 ltac:(lia)).
  pose proof (Z.div_mod (a / 16) 16 ltac:(lia)).
  pose proof (Z.mod_pos_bound a 16 ltac:(lia)).
  pose proof (Z.mod_pos_bound (a / 16) 16 ltac:(lia)).
  apply (Z.mod_unique _ _ (a / 16 / 16)); lia.
Qed.

Lemma below_hex_length (n : Z) : 0 <= n -> n < 16 ^ Z.of_nat (hex_length n).
Proof.
  intros Hn. unfold hex_length.
  destruct (Z.eq_dec n 0) as [->|Hnz]; [reflexivity|].
  pose proof (Z.log2_nonneg n) as Hl.
  pose proof (Z.log2_spec n ltac:(lia)) as [_ Hhi].
  assert (H4 : 0 <= Z.log2 n / 4) by (apply Z.div_pos; lia).
  rewrite Nat2Z.inj_succ, Z2Nat.id by exact H4.
  change 16 with (2 ^ 4). rewrite <- Z.pow_mul_r by lia.
  apply Z.lt_le_trans with (2 ^ Z.succ (Z.log2 n)); [exact Hhi|].
  apply Z.pow_le_mono_r; [lia|].
  pose proof (Z.div_mod (Z.log2 n) 4 ltac:(lia)).
  pose proof (Z.mod_pos_bound (Z.log2 n) 4 ltac:(lia)). lia.
Qed.

Lemma hex_be_pad (n : Z) :
  0 <= n ->
  "0"%char :: hex_be (hex_length n) n = hex_be (S (hex_length n)) n.
Proof.
  intros Hn. cbn [hex_be]. f_equal.
  rewrite Z.div_small by (split; [lia | now apply below_hex_length]).
  reflexivity.
Qed.

Lemma byte_length_hex_length (n : Z) :
  0 <= n ->
  (if Nat.eqb (hex_length n mod 2) 0
   then hex_length n = (2 * byte_length n)%nat
   else S (hex_length n) = (2 * byte_length n)%nat).
Proof.
  intros Hn. unfold hex_length, byte_length.
  pose proof (Z.log2_nonneg n) as Hl.
  set (l := Z.log2 n) in *.
  assert (Hq : l / 4 = 2 * (l / 8) + (l / 4) mod 2).
  { replace (l / 8) with (l / 4 / 2) by (rewrite Z.div_div by lia; reflexivity).
    apply Z.div_mod. lia. }
  pose proof (Z.mod_pos_bound (l / 4) 2 ltac:(lia)) as Hb.
  assert (H8 : 0 <= l / 8) by (apply Z.div_pos; lia).
  assert (Hcases : (l / 4) mod 2 = 0 \/ (l / 4) mod 2 = 1) by lia.
  destruct Hcases as [H0|H1].
  - replace (Z.to_nat (l / 4)) with (2 * Z.to_nat (l / 8))%nat by lia.
    replace (S (2 * Z.to_nat (l / 8))) with (1 + Z.to_nat (l / 8) * 2)%nat by lia.
    rewrite Nat.Div0.mod_add. cbn. lia.
  - replace (Z.to_nat (l / 4)) with (1 + 2 * Z.to_nat (l / 8))%nat by lia.
    replace (S (1 + 2 * Z.to_nat (l / 8))) with (0 + (1 + Z.to_nat (l / 8)) * 2)%nat by lia.
    rewrite Nat.Div0.mod_add. cbn. lia.
Qed.

(** The bytes the big-integer methods give to [_pushByteString]. *)
Lemma hex_bytes_unsigned_be_bytes (n : Z) :
  0 <= n -> hex_bytes n = unsigned_be_bytes n.
Proof.
  intros Hn. unfold hex_bytes, unsigned_be_bytes.
  rewrite toString16_digits by exact Hn. rewrite length_hex_be.
  pose proof (byte_length_hex_length n Hn) as Hlen.
  destruct (Nat.eqb (hex_length n mod 2) 0).
  - rewrite Hlen. apply decode_hex_be.
  - rewrite hex_be_pad by exact Hn. rewrite Hlen. apply decode_hex_be.
Qed.

Lemma byte_length_bounds (n : Z) :
  0 <= n ->
  n < 256 ^ Z.of_nat (byte_length n)
  /\ (0 < n -> 256 ^ (Z.of_nat (byte_length n) - 1) <= n).
Proof.
  intros Hn. unfold byte_length.
  pose proof (Z.log2_nonneg n) as Hl.
  assert (H8 : 0 <= Z.log2 n / 8) by (apply Z.div_pos; lia).
  rewrite Nat2Z.inj_succ, Z2Nat.id by exact H8.
  pose proof (Z.div_mod (Z.log2 n) 8 ltac:(lia)) as Hdm.
  pose proof (Z.mod_pos_bound (Z.log2 n) 8 ltac:(lia)) as Hmb.
  change 256 with (2 ^ 8). rewrite <- !Z.pow_mul_r by lia.
  split.
  - destruct (Z.eq_dec n 0) as [->|Hnz].
    + apply Z.pow_pos_nonneg; lia.
    + pose proof (Z.log2_spec n ltac:(lia)) as [_ Hhi].
      apply Z.lt_le_trans with (2 ^ Z.succ (Z.log2 n)); [exact Hhi|].
      apply Z.pow_le_mono_r; lia.
  - intros Hpos. pose proof (Z.log2_spec n Hpos) as [Hlo _].
    apply Z.le_trans with (2 ^ Z.log2 n); [|exact Hlo].
    apply Z.pow_le_mono_r; lia.
Qed.

(** X4.  The byte string that carries a big integer of magnitude [n] is
    the shortest big-endian form of [n]: it has at least one byte, its
    value is [n], and its first byte is not zero unless [n] is zero (then
    it is the single byte 0). *)
Theorem hex_bytes_shortest (n : Z) :
  0 <= n ->
  be_value (hex_bytes n) = n
  /\ Forall is_byte (hex_bytes n)
  /\ (1 <= length (hex_bytes n))%nat
  /\ (0 < n -> 256 ^ (Z.of_nat (length (hex_bytes n)) - 1) <= n)
  /\ (n = 0 -> hex_bytes n = [0]).
Proof.
  intros Hn. rewrite hex_bytes_unsigned_be_bytes by exact Hn.
  unfold unsigned_be_bytes. rewrite length_be_bytes.
  destruct (byte_length_bounds n Hn) as [Hhi Hlo].
  split; [apply be_value_be_bytes_small; lia|].
  split; [apply be_bytes_in_range|].
  split; [unfold byte_length; lia|].
  split; [exact Hlo|]. intros ->. reflexivity.
Qed.

Lemma hex_bytes_shortest_witness :
  be_value (hex_bytes (2 ^ 64)) = 2 ^ 64
  /\ Forall is_byte (hex_bytes (2 ^ 64))
  /\ (1 <= length (hex_bytes (2 ^ 64)))%nat
  /\ (0 < 2 ^ 64 -> 256 ^ (Z.of_nat (length (hex_bytes (2 ^ 64))) - 1) <= 2 ^ 64)
  /\ (2 ^ 64 = 0 -> hex_bytes (2 ^ 64) = [0]).
Proof. apply (hex_bytes_shortest (2 ^ 64)). lia. Defined.

(** ** Big integers *)

Lemma bigint_magnitude_nonneg (v : Z) : 0 <= bigint_magnitude v.
Proof. unfold bigint_magnitude. destruct (Z.ltb_spec v 0); lia. Qed.

Lemma bigint_mt_range (v : Z) : 0 <= bigint_mt v <= 7.
Proof.
  unfold bigint_mt, MT.NEG_INT, MT.POS_INT. destruct (v <? 0); lia.
Qed.

Lemma pushJSBigint_unfold (v : Z) :
  _pushJSBigint v
  = bind (gets collapseBigIntegers) (fun collapse =>
      if collapse && (bigint_magnitude v <=? BI.MAXINT64) then
        if bigint_magnitude v <=? 0xffffffff
        then _pushInt (bigint_magnitude v) (bigint_mt v) NaN
        else
          _pushUInt8 (Z.lor (Z.shiftl (bigint_mt v) 5) NUMBYTES.EIGHT) <&&>
          _pushUInt32BE (bigint_magnitude v / BI.SHIFT32) <&&>
          _pushUInt32BE (Z.rem (bigint_magnitude v) BI.SHIFT32)
      else
        _pushTag (bigint_tag v) <&&> _pushByteString (hex_bytes (bigint_magnitude v))).
Proof.
  unfold _pushJSBigint, bigint_magnitude, bigint_mt, bigint_tag.
  destruct (v <? 0); [|reflexivity].
  replace (- v + BI.MINUS_ONE) with (- v - 1) by (unfold BI.MINUS_ONE; lia).
  reflexivity.
Qed.



Lemma write_head_8 (mt n : Z) :
  0 <= mt <= 7 -> 2 ^ 32 <= n ->
  write_head mt n
  = [Z.lor (Z.shiftl mt 5) NUMBYTES.EIGHT]
      ++ be_bytes 4 (n / SHIFT32) ++ be_bytes 4 (Z.rem n SHIFT32).
Proof.
  intros Hmt Hn. unfold write_head, smallest_width.
  destruct (Z.ltb_spec n 24); [lia|].
  destruct (Z.ltb_spec n (2 ^ 8)); [lia|].
  destruct (Z.ltb_spec n (2 ^ 16)); [lia|].
  destruct (Z.ltb_spec n (2 ^ 32)); [lia|].
  rewrite be_bytes_8_words by lia. reflexivity.
Qed.

Lemma pushByteString_writes (buf : bytes) :
  Z.of_nat (length buf) <= 2 ^ 53 - 1 ->
  writes (_pushByteString buf)
         (write_head MT.BYTE_STRING (Z.of_nat (length buf)) ++ buf).
Proof.
  intros Hlen. unfold _pushByteString.
  apply writes_and_then; [|apply writes_push].
  apply pushInt_writes; unfold MAX_SAFE_INTEGER, MT.BYTE_STRING; lia.
Qed.

Lemma pushTag_writes (tag : Z) :
  0 <= tag <= 2 ^ 53 - 1 -> writes (_pushTag tag) (write_head MT.TAG tag).
Proof.
  intros Ht. apply pushInt_writes; unfold MAX_SAFE_INTEGER, MT.TAG; lia.
Qed.

(** X6.  A [bigint] [v] is encoded from its magnitude ([v], or [-v - 1]
    for a negative [v]).  With [collapseBigIntegers] and a magnitude of at
    most 2^64 - 1, the output is the integer head of minimal length, of
    major type 0 or 1 (8 bytes of tail above 2^32 - 1, also above 2^53 - 1
    where numbers are no longer written as integers).  Otherwise it is tag
    2 or 3 and a byte string with the shortest big-endian form of the
    magnitude. *)
Theorem pushJSBigint_encoding (v : Z) (e : Encoder) :
  Z.of_nat (byte_length (bigint_magnitude v)) <= 2 ^ 53 - 1 ->
  emits e (_pushJSBigint v e)
        (if collapseBigIntegers e && (bigint_magnitude v <=? 2 ^ 64 - 1)
         then write_head (bigint_mt v) (bigint_magnitude v)
         else write_head MT.TAG (bigint_tag v)
              ++ write_head MT.BYTE_STRING
                   (Z.of_nat (byte_length (bigint_magnitude v)))
              ++ unsigned_be_bytes (bigint_magnitude v)).
Proof.
  intros Hlen.
  pose proof (bigint_magnitude_nonneg v) as Hmag.
  pose proof (bigint_mt_range v) as Hmt.
  rewrite pushJSBigint_unfold. unfold bind, gets.
  change BI.MAXINT64 with (2 ^ 64 - 1).
  destruct (collapseBigIntegers e && (bigint_magnitude v <=? 2 ^ 64 - 1)) eqn:Hc.
  - destruct (Z.leb_spec (bigint_magnitude v) 0xffffffff) as [H32|H32].
    + apply pushInt_writes; [unfold MAX_SAFE_INTEGER; lia | exact Hmt].
    + rewrite write_head_8 by lia.
      unfold _pushUInt8, _pushUInt32BE.
      rewrite head_byte by (unfold NUMBYTES.EIGHT; lia).
      apply writes_and_then; [apply writes_push|].
      apply writes_and_then; apply writes_push.
  - rewrite hex_bytes_unsigned_be_bytes by exact Hmag.
    replace (byte_length (bigint_magnitude v))
      with (length (unsigned_be_bytes (bigint_magnitude v))) in *
      by apply length_be_bytes.
    apply writes_and_then.
    + apply pushTag_writes. unfold bigint_tag, TAG.NEG_BIGINT, TAG.POS_BIGINT.
      destruct (v <? 0); lia.
    + apply pushByteString_writes. exact Hlen.
Qed.

Lemma pushJSBigint_encoding_witness :
  emits (mkEncoder [] false None false false None false)
        (_pushJSBigint (- 2 ^ 64 - 1)
                       (mkEncoder [] false None false false None false))
        [0xc3; 0x49; 0x01; 0; 0; 0; 0; 0; 0; 0; 0].
Proof.
  apply (pushJSBigint_encoding (- 2 ^ 64 - 1)
           (mkEncoder [] false None false false None false)).
  vm_compute. discriminate.
Defined.

(** ** Indefinite-length strings *)

Lemma slice_chunk {A} (obj : list A) (off size : nat) :
  (off <= length obj)%nat ->
  slice obj (Z.of_nat off) (Z.of_nat off + Z.of_nat size)
  = firstn size (skipn off obj).
Proof.
  intros Hoff. unfold slice.
  destruct (Z.ltb_spec (Z.of_nat off) 0); [lia|].
  destruct (Z.ltb_spec (Z.of_nat off + Z.of_nat size) 0); [lia|].
  rewrite (Z.min_l (Z.of_nat off)) by lia. rewrite Nat2Z.id.
  destruct (Z.le_ge_cases (Z.of_nat off + Z.of_nat size) (Z.of_nat (length obj))).
  - rewrite Z.min_l by lia. f_equal. lia.
  - rewrite Z.min_r by lia.
    rewrite !firstn_all2; try reflexivity; rewrite length_skipn; lia.
Qed.

Lemma chunks_of_concat {A} (fuel size : nat) (s : list A) :
  (1 <= size)%nat -> (length s <= fuel)%nat ->
  concat (chunks_of fuel size s) = s.
Proof.
  intros Hsize. revert s. induction fuel as [|fuel IH]; intros s Hfuel.
  - destruct s; [reflexivity | cbn in Hfuel; lia].
  - destruct s as [|a s]; [reflexivity|].
    cbn [chunks_of concat]. rewrite IH.
    + apply firstn_skipn.
    + rewrite length_skipn. cbn [length] in *. lia.
Qed.

Lemma chunks_of_sizes {A} (fuel size : nat) (s : list A) :
  (1 <= size)%nat ->
  Forall (fun c => (1 <= length c <= size)%nat) (chunks_of fuel size s).
Proof.
  intros Hsize. revert s. induction fuel as [|fuel IH]; intros s.
  - constructor.
  - destruct s as [|a s]; [constructor|].
    cbn [chunks_of]. constructor; [|apply IH].
    rewrite length_firstn. cbn [length]. lia.
Qed.

Lemma chunks_of_fuel {A} (f1 f2 size : nat) (s : list A) :
  (1 <= size)%nat -> (length s <= f1)%nat -> (length s <= f2)%nat ->
  chunks_of f1 size s = chunks_of f2 size s.
Proof.
  intros Hsize. revert f2 s. induction f1 as [|f1 IH]; intros f2 s H1 H2.
  - destruct s; [now destruct f2 | cbn in H1; lia].
  - destruct s as [|a s]; [now destruct f2|].
    destruct f2 as [|f2]; [cbn in H2; lia|].
    cbn [chunks_of]. f_equal. cbn [length] in *.
    apply IH; rewrite length_skipn; cbn [length]; lia.
Qed.

(** The loop over the chunks, for a method [emit] that writes [enc c] for
    every chunk [c] of at most [size] elements. *)
Lemma chunk_loop_writes {A} (emit : list A -> M bool) (enc : list A -> bytes)
      (obj : list A) (size : nat) :
  (forall c, (length c <= size)%nat -> writes (emit c) (enc c)) ->
  (1 <= size)%nat ->
  forall (fuel off : nat) (e : Encoder),
    (off <= length obj)%nat -> (length obj - off < fuel)%nat ->
    chunk_loop fuel emit obj (Z.of_nat size) (Z.of_nat off) true e
    = Some (Ret true
              (set_stream
                 (stream e ++ concat (map enc (chunks_of fuel size (skipn off obj))))
                 e)).
Proof.
  intros Hemit Hsize. induction fuel as [|fuel IH]; intros off e Hoff Hfuel; [lia|].
  cbn [chunk_loop].
  destruct (Z.ltb_spec (Z.of_nat off) (Z.of_nat (length obj))) as [Hlt|Hge].
  - rewrite slice_chunk by lia.
    rewrite (Hemit (firstn size (skipn off obj))) by (rewrite length_firstn; lia).
    assert (Hlen : length (skipn off obj) = (length obj - off)%nat)
      by apply length_skipn.
    cbn [chunks_of]. destruct (skipn off obj) as [|a r] eqn:Hs;
      [cbn in Hlen; lia|].
    rewrite <- Hs. cbn [map concat].
    replace (Z.of_nat off + Z.of_nat size) with (Z.of_nat (off + size)) by lia.
    destruct (Nat.le_gt_cases (off + size) (length obj)) as [Hin|Hout].
    + rewrite IH by (cbn [stream set_stream]; lia).
      rewrite skipn_skipn, (Nat.add_comm size off).
      cbn. rewrite <- app_assoc. reflexivity.
    + (* the last chunk *)
      rewrite (skipn_all2 (skipn off obj)) by (rewrite length_skipn; lia).
      destruct fuel as [|fuel']; cbn [chunk_loop chunks_of];
        (destruct (Z.ltb_spec (Z.of_nat (off + size)) (Z.of_nat (length obj)));
         [lia|]);
        cbn; rewrite app_nil_r; reflexivity.
  - assert (off = length obj) by lia. subst off.
    rewrite skipn_all. destruct fuel; cbn; rewrite app_nil_r; now destruct e.
Qed.

Lemma chunked_writes {A} (head : Z) (emit : list A -> M bool)
      (enc : list A -> bytes) (obj : list A) (size fuel : nat) (e : Encoder) :
  (forall c, (length c <= size)%nat -> writes (emit c) (enc c)) ->
  (1 <= size)%nat -> (length obj < fuel)%nat ->
  chunked fuel head emit obj (Z.of_nat size) e
  = Some (Ret true
            (set_stream
               (stream e ++ be_bytes 1 head
                  ++ concat (map enc (chunks_of (length obj) size obj))
                  ++ [0xff])
               e)).
Proof.
  intros Hemit Hsize Hfuel. unfold chunked, _pushUInt8, push.
  pose proof (chunk_loop_writes emit enc obj size Hemit Hsize fuel O) as Hloop.
  cbn [Z.of_nat] in Hloop. rewrite Hloop; [|lia|clear Hloop; lia].
  change (skipn 0 obj) with obj. cbn [stream set_stream]. unfold BREAK.
  rewrite (chunks_of_fuel fuel (length obj) size obj Hsize) by lia.
  cbn. rewrite <- !app_assoc. reflexivity.
Qed.

Lemma length_utf8_of_code_point (c : Z) :
  (length (utf8_of_code_point c) <= 4)%nat.
Proof.
  unfold utf8_of_code_point.
  repeat match goal with
         | |- context [?a <? ?b] => destruct (a <? b)
         end; cbn; lia.
Qed.

Lemma length_code_points (s : jsstring) :
  (length (code_points s) <= length s)%nat.
Proof.
  assert (H : forall n (s : jsstring), (length s <= n)%nat ->
                (length (code_points s) <= length s)%nat).
  { clear s. induction n as [|n IH]; intros s Hn.
    - destruct s; [cbn; lia | cbn in Hn; lia].
    - destruct s as [|u r]; [cbn; lia|].
      cbn [code_points]. cbn [length] in Hn.
      destruct (is_high u).
      + destruct r as [|l r']; [cbn; lia|].
        destruct (is_low l).
        * cbn [length] in *. specialize (IH r' ltac:(lia)). lia.
        * specialize (IH (l :: r') ltac:(cbn [length] in *; lia)).
          cbn [length] in *. lia.
      + destruct (is_low u); specialize (IH r ltac:(lia)); cbn [length]; lia. }
  apply (H (length s)). lia.
Qed.

Lemma length_TextEncoder_encode (s : jsstring) :
  (length (TextEncoder_encode s) <= 4 * length s)%nat.
Proof.
  unfold TextEncoder_encode.
  pose proof (length_code_points s) as Hcp.
  assert (H : forall l, (length (flat_map utf8_of_code_point l) <= 4 * length l)%nat).
  { induction l as [|c l IH]; [cbn; lia|].
    cbn [flat_map]. rewrite length_app. cbn [length].
    pose proof (length_utf8_of_code_point c). lia. }
  specialize (H (code_points s)). lia.
Qed.

Lemma pushString_writes (s : jsstring) :
  4 * Z.of_nat (length s) <= 2 ^ 53 - 1 ->
  writes (_pushString s) (text_item s).
Proof.
  intros Hlen. unfold _pushString, text_item.
  apply writes_and_then; [|apply writes_push].
  pose proof (length_TextEncoder_encode s).
  apply pushInt_writes; unfold MAX_SAFE_INTEGER, MT.UTF8_STRING; lia.
Qed.

(** X7.  For a chunk size of at least 1 (and at most 2^51 - 1, so that
    lengths stay safe integers), the indefinite encoding of a string ends
    and writes the head [0x7f], then one definite-length text item for
    each chunk, then BREAK [0xff]; the chunks are consecutive pieces of
    the string, in order, of at least one and at most [chunkSize] code
    units. *)
Theorem encodeIndefinite_string (s : jsstring) (chunkSize : Z) (fuel : nat)
        (e : Encoder) :
  1 <= chunkSize <= 2 ^ 51 - 1 -> (length s < fuel)%nat ->
  let chunks := chunks_of (length s) (Z.to_nat chunkSize) s in
  encodeIndefinite fuel (JString s) chunkSize e
  = Some (Ret true
            (set_stream
               (stream e ++ [0x7f] ++ concat (map text_item chunks) ++ [0xff])
               e))
  /\ concat chunks = s
  /\ Forall (fun c => 1 <= Z.of_nat (length c) <= chunkSize) chunks.
Proof.
  intros Hsize Hfuel chunks. split; [|split].
  - cbn [encodeIndefinite].
    rewrite <- (Z2Nat.id chunkSize) by lia.
    rewrite (chunked_writes _ _ text_item); [reflexivity| |lia|exact Hfuel].
    intros c Hc. apply pushString_writes. lia.
  - apply chunks_of_concat; lia.
  - pose proof (chunks_of_sizes (length s) (Z.to_nat chunkSize) s ltac:(lia)) as H.
    eapply Forall_impl; [exact H|]. cbn. intros c Hc. lia.
Qed.

Lemma encodeIndefinite_string_witness :
  let chunks := chunks_of 3 (Z.to_nat 2) [0x61; 0x62; 0x63] in
  encodeIndefinite 4 (JString [0x61; 0x62; 0x63]) 2
                   (mkEncoder [] false None false false None false)
  = Some (Ret true
            (set_stream
               ([] ++ [0x7f] ++ concat (map text_item chunks) ++ [0xff])
               (mkEncoder [] false None false false None false)))
  /\ concat chunks = [0x61; 0x62; 0x63]
  /\ Forall (fun c => 1 <= Z.of_nat (length c) <= 2) chunks.
Proof.
  apply (encodeIndefinite_string [0x61; 0x62; 0x63] 2 4
           (mkEncoder [] false None false false None false)).
  - lia.
  - cbn. lia.
Defined.

(** X8.  The same for a byte buffer: head [0x5f], one definite-length byte
    string for each chunk of at most [chunkSize] bytes, then BREAK; the
    payloads of the chunks, in order, are the bytes of the buffer. *)
Theorem encodeIndefinite_bytes (id : nat) (buf : bytes) (chunkSize : Z)
        (fuel : nat) (e : Encoder) :
  1 <= chunkSize <= 2 ^ 53 - 1 -> (length buf < fuel)%nat ->
  let chunks := chunks_of (length buf) (Z.to_nat chunkSize) buf in
  encodeIndefinite fuel (JUint8Array id buf) chunkSize e
  = Some (Ret true
            (set_stream
               (stream e ++ [0x5f] ++ concat (map bytes_item chunks) ++ [0xff])
               e))
  /\ concat chunks = buf
  /\ Forall (fun c => 1 <= Z.of_nat (length c) <= chunkSize) chunks.
Proof.
  intros Hsize Hfuel chunks. split; [|split].
  - cbn [encodeIndefinite].
    rewrite <- (Z2Nat.id chunkSize) by lia.
    rewrite (chunked_writes _ _ bytes_item); [reflexivity| |lia|exact Hfuel].
    intros c Hc. apply pushByteString_writes. lia.
  - apply chunks_of_concat; lia.
  - pose proof (chunks_of_sizes (length buf) (Z.to_nat chunkSize) buf ltac:(lia)) as H.
    eapply Forall_impl; [exact H|]. cbn. intros c Hc. lia.
Qed.

Lemma encodeIndefinite_bytes_witness :
  let chunks := chunks_of 3 (Z.to_nat 2) [1; 2; 3] in
  encodeIndefinite 4 (JUint8Array 0 [1; 2; 3]) 2
                   (mkEncoder [] false None false false None false)
  = Some (Ret true
            (set_stream
               ([] ++ [0x5f] ++ concat (map bytes_item chunks) ++ [0xff])
               (mkEncoder [] false None false false None false)))
  /\ concat chunks = [1; 2; 3]
  /\ Forall (fun c => 1 <= Z.of_nat (length c) <= 2) chunks.
Proof.
  apply (encodeIndefinite_bytes 0%nat [1; 2; 3] 2 4
           (mkEncoder [] false None false false None false)).
  - lia.
  - cbn. lia.
Defined.

(** Methods that always return. *)
Lemma pushFloat_returns (x : number) (e : Encoder) :
  exists e', _pushFloat x e = Ret true e'.
Proof.
  unfold _pushFloat, bind, gets.
  destruct (Util.writeHalf [0; 0] x) as [ok b2].
  destruct (canonical e && ok); [|destruct (eqb (Math_fround x) x)];
    eexists; reflexivity.
Qed.

Lemma pushInt_returns (n mt : Z) (orig : number) (e : Encoder) :
  exists e', _pushInt n mt orig e = Ret true e'.
Proof.
  unfold _pushInt.
  repeat match goal with
         | |- context [if ?c then _ else _] => destruct c
         end; try (eexists; reflexivity); apply pushFloat_returns.
Qed.

Lemma pushString_returns (s : jsstring) (e : Encoder) :
  exists e', _pushString s e = Ret true e'.
Proof.
  unfold _pushString, and_then, bind.
  destruct (pushInt_returns (Z.of_nat (length (TextEncoder_encode s)))
                            MT.UTF8_STRING NaN e) as [e' ->].
  eexists; reflexivity.
Qed.

Lemma chunk_loop_runs_on {A} (emit : list A -> M bool) (obj : list A)
      (chunkSize : Z) :
  (forall c e, exists e', emit c e = Ret true e') ->
  chunkSize <= 0 -> obj <> [] ->
  forall (fuel : nat) (offset : Z) (e : Encoder),
    offset <= 0 -> chunk_loop fuel emit obj chunkSize offset true e = None.
Proof.
  intros Hemit Hsize Hne. induction fuel as [|fuel IH]; intros offset e Hoff.
  - cbn [chunk_loop].
    destruct (Z.ltb_spec offset (Z.of_nat (length obj))); [reflexivity|].
    destruct obj; [congruence | cbn [length] in *; lia].
  - cbn [chunk_loop].
    destruct (Z.ltb_spec offset (Z.of_nat (length obj))).
    + destruct (Hemit (slice obj offset (offset + chunkSize)) e) as [e' ->].
      apply IH. lia.
    + destruct obj; [congruence | cbn [length] in *; lia].
Qed.

(** X9.  With a chunk size that is not positive, the chunk loop of
    [encodeIndefinite] never ends on a string that is not empty: whatever
    the number of iterations allowed, it is still running. *)
Theorem encodeIndefinite_string_loops (s : jsstring) (chunkSize : Z)
        (e : Encoder) :
  chunkSize <= 0 -> s <> [] ->
  forall fuel, encodeIndefinite fuel (JString s) chunkSize e = None.
Proof.
  intros Hsize Hne fuel. cbn [encodeIndefinite]. unfold chunked, _pushUInt8, push.
  rewrite (chunk_loop_runs_on _pushString s chunkSize); try assumption; try lia.
  - reflexivity.
  - intros c e'. apply pushString_returns.
Qed.

Lemma encodeIndefinite_string_loops_witness :
  encodeIndefinite 1000 (JString [0x61]) 0
                   (mkEncoder [] false None false false None false) = None.
Proof.
  apply (encodeIndefinite_string_loops [0x61] 0
           (mkEncoder [] false None false false None false)).
  - lia.
  - discriminate.
Defined.

(** ** Induction on host values *)

Lemma value_ind_nested (P : value -> Prop) :
  (forall x, P (JNumber x)) ->
  (forall z, P (JBigInt z)) ->
  (forall s, P (JString s)) ->
  (forall b, P (JBoolean b)) ->
  P JUndefined -> P JNull ->
  (forall s, P (JSymbol s)) ->
  P JFunction ->
  (forall id elems, Forall P elems -> P (JArray id elems)) ->
  (forall id entries,
      Forall (fun kv => P (fst kv) /\ P (snd kv)) entries ->
      P (JMap id entries)) ->
  (forall id data, P (JUint8Array id data)) ->
  (forall id props,
      Forall (fun kv => P (snd kv)) props -> P (JObject id props)) ->
  forall v, P v.
Proof.
  intros Hnum Hbig Hstr Hbool Hund Hnull Hsym Hfun Harr Hmap Hbuf Hobj.
  fix IH 1. intros [x|z|s|b| | |s| |id elems|id entries|id data|id props].
  - apply Hnum.
  - apply Hbig.
  - apply Hstr.
  - apply Hbool.
  - apply Hund.
  - apply Hnull.
  - apply Hsym.
  - apply Hfun.
  - apply Harr. induction elems as [|v l IHl]; constructor; [apply IH | exact IHl].
  - apply Hmap. induction entries as [|[k v] l IHl]; constructor;
      [split; apply IH | exact IHl].
  - apply Hbuf.
  - apply Hobj. induction props as [|[k v] l IHl]; constructor;
      [apply IH | exact IHl].
Qed.

(** ** The loop detector *)

Lemma detector_within_refl (e : Encoder) : detector_within e e.
Proof. unfold detector_within. destruct (detectLoops e); [set_solver|exact I]. Qed.

Lemma detector_within_trans (e1 e2 e3 : Encoder) :
  detector_within e1 e2 -> detector_within e2 e3 -> detector_within e1 e3.
Proof.
  unfold detector_within.
  destruct (detectLoops e1), (detectLoops e2), (detectLoops e3);
    try tauto; set_solver.
Qed.

Lemma keeps_grows (m : M bool) : keeps_detector m -> grows_detector m.
Proof.
  intros H e b e' Hr. unfold detector_within. rewrite (H e b e' Hr).
  destruct (detectLoops e); [set_solver|exact I].
Qed.

Lemma keeps_push (buf : bytes) : keeps_detector (push buf).
Proof. intros e b e' H. inversion H. reflexivity. Qed.

Lemma keeps_ret (b0 : bool) : keeps_detector (ret b0).
Proof. intros e b e' H. inversion H. reflexivity. Qed.

Lemma keeps_throw (msg : string) : keeps_detector (throw msg).
Proof. intros e b e' H. discriminate H. Qed.

Lemma keeps_and_then (a b : M bool) :
  keeps_detector a -> keeps_detector b -> keeps_detector (a <&&> b).
Proof.
  intros Ha Hb e r e' H. unfold and_then, bind in H.
  destruct (a e) as [x e1|msg e1] eqn:Hae; [|discriminate].
  destruct x.
  - rewrite (Hb e1 r e' H). exact (Ha e true e1 Hae).
  - inversion H; subst. exact (Ha e false e' Hae).
Qed.

Lemma keeps_gets {A} (f : Encoder -> A) (k : A -> M bool) :
  (forall a, keeps_detector (k a)) -> keeps_detector (bind (gets f) k).
Proof. intros Hk e r e' H. unfold bind, gets in H. exact (Hk _ e r e' H). Qed.

Lemma keeps_if (c : bool) (a b : M bool) :
  keeps_detector a -> keeps_detector b -> keeps_detector (if c then a else b).
Proof. destruct c; auto. Qed.

Ltac keeps_step :=
  first [ apply keeps_push | apply keeps_ret | apply keeps_throw
        | apply keeps_and_then
        | match goal with
          | |- keeps_detector (if _ then _ else _) => apply keeps_if
          end ].

Lemma keeps_pushFloat (x : number) : keeps_detector (_pushFloat x).
Proof.
  unfold _pushFloat. apply keeps_gets. intros c.
  destruct (Util.writeHalf [0; 0] x) as [ok b2].
  unfold _pushUInt8, _pushFloatBE, _pushDoubleBE. repeat keeps_step.
Qed.

Lemma keeps_pushInt (n mt : Z) (orig : number) : keeps_detector (_pushInt n mt orig).
Proof.
  unfold _pushInt, _pushUInt8, _pushUInt16BE, _pushUInt32BE.
  repeat first [keeps_step | apply keeps_pushFloat].
Qed.

Lemma keeps_pushNumber (x : number) : keeps_detector (_pushNumber x).
Proof.
  unfold _pushNumber, _pushNaN, _pushInfinity, _pushIntNum.
  repeat first [keeps_step | apply keeps_pushInt | apply keeps_pushFloat].
Qed.

Lemma keeps_pushString (s : jsstring) : keeps_detector (_pushString s).
Proof.
  unfold _pushString. apply keeps_and_then; [apply keeps_pushInt | apply keeps_push].
Qed.

Lemma keeps_pushByteString (b : bytes) : keeps_detector (_pushByteString b).
Proof.
  unfold _pushByteString. apply keeps_and_then; [apply keeps_pushInt | apply keeps_push].
Qed.

Lemma keeps_pushJSBigint (v : Z) : keeps_detector (_pushJSBigint v).
Proof.
  rewrite pushJSBigint_unfold. apply keeps_gets. intros c.
  unfold _pushTag, _pushUInt8, _pushUInt32BE.
  repeat first [keeps_step | apply keeps_pushInt | apply keeps_pushByteString].
Qed.

Lemma keeps_pushUndefined : keeps_detector _pushUndefined.
Proof.
  unfold _pushUndefined. apply keeps_gets. intros [buf|]; apply keeps_push.
Qed.

Lemma grows_and_then (a b : M bool) :
  grows_detector a -> grows_detector b -> grows_detector (a <&&> b).
Proof.
  intros Ha Hb e r e' H. unfold and_then, bind in H.
  destruct (a e) as [x e1|msg e1] eqn:Hae; [|discriminate].
  destruct x.
  - eapply detector_within_trans; [exact (Ha e true e1 Hae) | exact (Hb e1 r e' H)].
  - inversion H; subst. exact (Ha e false e' Hae).
Qed.

Lemma grows_gets {A} (f : Encoder -> A) (k : A -> M bool) :
  (forall a, grows_detector (k a)) -> grows_detector (bind (gets f) k).
Proof. intros Hk e r e' H. unfold bind, gets in H. exact (Hk _ e r e' H). Qed.

Lemma grows_for_each {A} (f : A -> M bool) (l : list A) :
  Forall (fun x => grows_detector (f x)) l -> grows_detector (for_each f l).
Proof.
  induction 1 as [|x l Hx _ IH]; intros e r e' H.
  - inversion H. apply detector_within_refl.
  - cbn [for_each] in H. unfold bind in H.
    destruct (f x e) as [b e1|msg e1] eqn:Hfe; [|discriminate].
    destruct b.
    + eapply detector_within_trans; [exact (Hx e true e1 Hfe) | exact (IH e1 r e' H)].
    + inversion H; subst. exact (Hx e false e' Hfe).
Qed.

Lemma grows_enter (id : nat) : grows_detector (enter id).
Proof.
  intros e b e' H. unfold enter in H. unfold detector_within.
  destruct (detectLoops e) as [ws|] eqn:Hd.
  - destruct (bool_decide (id ∈ ws)); [discriminate|].
    inversion H; subst. cbn. set_solver.
  - inversion H; subst. rewrite Hd. exact I.
Qed.

(** Entering and leaving an object: the detector is as before. *)
Lemma enter_body_leave (id : nat) (body : M bool) :
  grows_detector body ->
  grows_detector (enter id <&&> body <&&> leave id).
Proof.
  intros Hbody e r e' H. unfold and_then, bind in H.
  unfold enter in H at 1. unfold detector_within.
  destruct (detectLoops e) as [ws|] eqn:Hd.
  - destruct (bool_decide (id ∈ ws)) eqn:Hin; [discriminate|].
    apply bool_decide_eq_false in Hin.
    destruct (body _) as [x e1|msg e1] eqn:Hb; [|discriminate].
    pose proof (Hbody _ _ _ Hb) as Hg. unfold detector_within in Hg.
    cbn [detectLoops set_detectLoops] in Hg.
    destruct (detectLoops e1) as [ws1|] eqn:Hd1; [|contradiction].
    destruct x.
    + unfold leave in H. rewrite Hd1 in H. inversion H; subst.
      cbn. set_solver.
    + inversion H; subst. rewrite Hd1. set_solver.
  - destruct (body e) as [x e1|msg e1] eqn:Hb; [|discriminate].
    pose proof (Hbody _ _ _ Hb) as Hg. unfold detector_within in Hg.
    rewrite Hd in Hg.
    destruct (detectLoops e1) as [ws1|] eqn:Hd1; [contradiction|].
    destruct x.
    + unfold leave in H. rewrite Hd1 in H. inversion H; subst. now rewrite Hd1.
    + inversion H; subst. now rewrite Hd1.
Qed.

Lemma pushAny_JArray (id : nat) (elems : list value) :
  pushAny (JArray id elems) = enter id <&&> _pushArray pushAny elems false.
Proof. reflexivity. Qed.

Lemma pushAny_JMap (id : nat) (entries : list (value * value)) :
  pushAny (JMap id entries) = enter id <&&> _pushMap pushAny entries false.
Proof. reflexivity. Qed.

Lemma pushAny_JUint8Array (id : nat) (data : bytes) :
  pushAny (JUint8Array id data) = enter id <&&> _pushTypedArray data.
Proof. reflexivity. Qed.

Lemma pushAny_JObject (id : nat) (props : list (jsstring * value)) :
  pushAny (JObject id props)
  = enter id <&&> _pushObject_generic pushAny id props false.
Proof. reflexivity. Qed.

Lemma grows_pushArray (elems : list value) :
  Forall (fun v => grows_detector (pushAny v)) elems ->
  grows_detector (_pushArray pushAny elems false).
Proof.
  intros H. unfold _pushArray. cbv iota.
  apply grows_and_then; [apply keeps_grows, keeps_pushInt|].
  apply grows_and_then; [now apply grows_for_each|].
  apply keeps_grows, keeps_ret.
Qed.

Lemma grows_pushMap (entries : list (value * value)) :
  Forall (fun kv => grows_detector (pushAny (fst kv))
                    /\ grows_detector (pushAny (snd kv))) entries ->
  grows_detector (_pushMap pushAny entries false).
Proof.
  intros H. unfold _pushMap. apply grows_gets. intros omit. cbv iota.
  apply grows_and_then; [apply keeps_grows, keeps_pushInt|].
  apply grows_and_then; [|apply keeps_grows, keeps_ret].
  apply grows_for_each. eapply Forall_impl; [exact H|].
  cbn beta. intros kv [Hk Hv].
  destruct (keep_entry omit kv); [|apply keeps_grows, keeps_ret].
  apply grows_gets. intros d.
  destruct (d && is_undefined (fst kv)); [apply keeps_grows, keeps_throw|].
  now apply grows_and_then.
Qed.

Lemma grows_generic_body (omit : bool) (props : list (jsstring * value)) :
  Forall (fun kv => grows_detector (pushAny (snd kv))) props ->
  grows_detector
    (_pushInt (Z.of_nat (length (List.filter (fun kv => keep_key omit (snd kv)) props)))
              MT.MAP NaN <&&>
     for_each (fun kv => if keep_key omit (snd kv)
                         then _pushString (fst kv) <&&> pushAny (snd kv)
                         else ret true) props).
Proof.
  intros H. apply grows_and_then; [apply keeps_grows, keeps_pushInt|].
  apply grows_for_each. eapply Forall_impl; [exact H|].
  cbn beta. intros kv Hv.
  destruct (keep_key omit (snd kv)); [|apply keeps_grows, keeps_ret].
  apply grows_and_then; [apply keeps_grows, keeps_pushString | exact Hv].
Qed.

Lemma and_then_assoc (a b c : M bool) (e : Encoder) :
  (a <&&> b <&&> c) e = ((a <&&> b) <&&> c) e.
Proof.
  unfold and_then, bind. destruct (a e) as [[|] e1|msg e1]; reflexivity.
Qed.

Lemma pushObject_generic_shape (id : nat) (props : list (jsstring * value))
      (e : Encoder) :
  _pushObject_generic pushAny id props false e
  = ((_pushInt (Z.of_nat (length (List.filter
                 (fun kv => keep_key (omitUndefinedProperties e) (snd kv)) props)))
               MT.MAP NaN <&&>
      for_each (fun kv => if keep_key (omitUndefinedProperties e) (snd kv)
                          then _pushString (fst kv) <&&> pushAny (snd kv)
                          else ret true) props)
     <&&> leave id) e.
Proof.
  unfold _pushObject_generic, bind at 1, gets. cbv iota.
  apply and_then_assoc.
Qed.

Lemma grows_pushObject (id : nat) (props : list (jsstring * value)) :
  Forall (fun kv => grows_detector (pushAny (snd kv))) props ->
  grows_detector (pushAny (JObject id props)).
Proof.
  intros H e r e' Hr. rewrite pushAny_JObject in Hr.
  unfold and_then at 1, bind in Hr.
  destruct (enter id e) as [x e1|msg e1] eqn:Hen; [|discriminate].
  assert (Homit : omitUndefinedProperties e1 = omitUndefinedProperties e).
  { unfold enter in Hen. destruct (detectLoops e) as [ws|].
    - destruct (bool_decide (id ∈ ws)); [discriminate|]. now inversion Hen.
    - now inversion Hen. }
  destruct x.
  2:{ unfold enter in Hen. destruct (detectLoops e) as [ws|];
        [destruct (bool_decide (id ∈ ws))|]; discriminate. }
  rewrite pushObject_generic_shape, Homit in Hr.
  pose proof (enter_body_leave id _ (grows_generic_body
                (omitUndefinedProperties e) props H) e r e') as Hb.
  apply Hb. unfold and_then at 1, bind. rewrite Hen. exact Hr.
Qed.

Lemma grows_pushAny (v : value) : grows_detector (pushAny v).
Proof.
  induction v as [x|z|s|b| | |s| |id elems IH|id entries IH|id data|id props IH]
    using value_ind_nested.
  - apply keeps_grows, keeps_pushNumber.
  - apply keeps_grows, keeps_pushJSBigint.
  - apply keeps_grows, keeps_pushString.
  - apply keeps_grows. unfold pushAny, _pushBoolean, _pushUInt8. apply keeps_push.
  - apply keeps_grows, keeps_pushUndefined.
  - apply keeps_grows. cbn. unfold _pushNull, _pushUInt8. apply keeps_push.
  - apply keeps_grows. destruct s; cbn;
      first [apply keeps_pushUndefined | apply keeps_throw
            | unfold _pushNull, _pushUInt8; apply keeps_push].
  - apply keeps_grows. cbn. apply keeps_throw.
  - rewrite pushAny_JArray.
    apply grows_and_then; [apply grows_enter | now apply grows_pushArray].
  - rewrite pushAny_JMap.
    apply grows_and_then; [apply grows_enter | now apply grows_pushMap].
  - rewrite pushAny_JUint8Array.
    apply grows_and_then; [apply grows_enter|].
    apply keeps_grows, keeps_pushByteString.
  - now apply grows_pushObject.
Qed.



Lemma enter_present (id : nat) (ws : gset nat) (e : Encoder) :
  detectLoops e = Some ws -> id ∈ ws ->
  enter id e
  = Throw ("Loop detected while CBOR encoding. " ++
           "Call removeLoopDetectors before resuming.") e.
Proof.
  intros Hd Hin. unfold enter. rewrite Hd.
  now rewrite bool_decide_eq_true_2.
Qed.

Lemma pushAny_converter (v : value) (id : nat) :
  has_converter v = Some id ->
  exists body, grows_detector body /\ pushAny v = enter id <&&> body.
Proof.
  destruct v as [x|z|s|b| | |s| |i elems|i entries|i data|i props];
    try discriminate; intros [= ->].
  - exists (_pushArray pushAny elems false). split; [|reflexivity].
    apply grows_pushArray. apply Forall_forall. intros; apply grows_pushAny.
  - exists (_pushMap pushAny entries false). split; [|reflexivity].
    apply grows_pushMap. apply Forall_forall. intros; split; apply grows_pushAny.
  - exists (_pushTypedArray data). split; [|reflexivity].
    apply keeps_grows, keeps_pushByteString.
Qed.

(** X11.  With the loop detector on, an array, a [Map] or a typed array
    that has been encoded stays in the detector (the converters return
    without removing it), and encoding the same object again on this
    encoder throws "Loop detected", writing nothing. *)
Theorem converter_object_stays_in_detector
        (v : value) (id : nat) (e e' : Encoder) (b : bool) (ws : gset nat) :
  has_converter v = Some id ->
  detectLoops e = Some ws -> pushAny v e = Ret b e' ->
  (exists ws', detectLoops e' = Some ws' /\ id ∈ ws' /\ ws ⊆ ws')
  /\ pushAny v e'
     = Throw ("Loop detected while CBOR encoding. " ++
              "Call removeLoopDetectors before resuming.") e'.
Proof.
  intros Hc Hd Hr.
  destruct (pushAny_converter v id Hc) as (body & Hbody & Heq).
  assert (Hws : exists ws', detectLoops e' = Some ws' /\ id ∈ ws' /\ ws ⊆ ws').
  { rewrite Heq in Hr. unfold and_then, bind in Hr. unfold enter in Hr at 1.
    rewrite Hd in Hr.
    destruct (bool_decide (id ∈ ws)); [discriminate|].
    pose proof (Hbody _ _ _ Hr) as Hg. unfold detector_within in Hg.
    cbn [detectLoops set_detectLoops] in Hg.
    destruct (detectLoops e') as [ws'|]; [|contradiction].
    exists ws'. split; [reflexivity|]. set_solver. }
  split; [exact Hws|].
  destruct Hws as (ws' & Hd' & Hin & _).
  rewrite Heq. unfold and_then, bind.
  now rewrite (enter_present id ws' e' Hd' Hin).
Qed.

Lemma converter_object_stays_in_detector_witness :
  (exists ws', detectLoops (mkEncoder [0x80] false None false false (Some {[1%nat]}) false)
               = Some ws' /\ 1%nat ∈ ws' /\ (∅ : gset nat) ⊆ ws')
  /\ pushAny (JArray 1 [])
             (mkEncoder [0x80] false None false false (Some {[1%nat]}) false)
     = Throw ("Loop detected while CBOR encoding. " ++
              "Call removeLoopDetectors before resuming.")
             (mkEncoder [0x80] false None false false (Some {[1%nat]}) false).
Proof.
  apply (converter_object_stays_in_detector (JArray 1 []) 1%nat
           (mkEncoder [] false None false false (Some ∅) false)
           (mkEncoder [0x80] false None false false (Some {[1%nat]}) false)
           true ∅).
  - reflexivity.
  - reflexivity.
  - vm_compute. f_equal.
Defined.

(** Plain objects *)

























(** ** The stream is only appended to *)

Lemma appends_push (buf : bytes) : appends (push buf).
Proof.
  intros e. exists buf, (detectLoops e), (inl true). split; [auto|].
  intros s0. reflexivity.
Qed.

Lemma appends_ret (b : bool) : appends (ret b).
Proof.
  intros e. exists [], (detectLoops e), (inl b). split; [auto|].
  intros s0. cbn. now rewrite app_nil_r.
Qed.

Lemma appends_throw (msg : string) : appends (throw msg).
Proof.
  intros e. exists [], (detectLoops e), (inr msg). split; [auto|].
  intros s0. cbn. now rewrite app_nil_r.
Qed.

Lemma appends_and_then (a b : M bool) :
  appends a -> appends b -> appends (a <&&> b).
Proof.
  intros Ha Hb e. destruct (Ha e) as (bs1 & d1 & ok1 & Hn1 & H1).
  destruct ok1 as [[|]|msg].
  - destruct (Hb (set_detectLoops d1 e)) as (bs2 & d2 & ok2 & Hn2 & H2).
    exists (bs1 ++ bs2), d2, ok2. split.
    + intros Hd. apply Hn2. cbn. auto.
    + intros s0. unfold and_then, bind. rewrite H1. cbn [finish].
      specialize (H2 (s0 ++ bs1)). cbn in H2 |- *. rewrite H2.
      now rewrite app_assoc.
  - exists bs1, d1, (inl false). split; [exact Hn1|].
    intros s0. unfold and_then, bind. now rewrite H1.
  - exists bs1, d1, (inr msg). split; [exact Hn1|].
    intros s0. unfold and_then, bind. now rewrite H1.
Qed.

Lemma appends_gets {A} (f : Encoder -> A) (k : A -> M bool) :
  (forall s0 e, f (set_stream s0 e) = f e) ->
  (forall a, appends (k a)) -> appends (bind (gets f) k).
Proof.
  intros Hf Hk e. destruct (Hk (f e) e) as (bs & d & ok & Hn & H).
  exists bs, d, ok. split; [exact Hn|].
  intros s0. unfold bind, gets. rewrite Hf. apply H.
Qed.

Lemma appends_if (c : bool) (a b : M bool) :
  appends a -> appends b -> appends (if c then a else b).
Proof. destruct c; auto. Qed.

Lemma appends_for_each {A} (f : A -> M bool) (l : list A) :
  Forall (fun x => appends (f x)) l -> appends (for_each f l).
Proof.
  induction 1 as [|x l Hx _ IH].
  - apply appends_ret.
  - intros e. destruct (Hx e) as (bs1 & d1 & ok1 & Hn1 & H1).
    destruct ok1 as [[|]|msg].
    + destruct (IH (set_detectLoops d1 e)) as (bs2 & d2 & ok2 & Hn2 & H2).
      exists (bs1 ++ bs2), d2, ok2. split.
      * intros Hd. apply Hn2. cbn. auto.
      * intros s0. cbn [for_each]. unfold bind. rewrite H1. cbn [finish].
        specialize (H2 (s0 ++ bs1)). cbn in H2 |- *. rewrite H2.
        now rewrite app_assoc.
    + exists bs1, d1, (inl false). split; [exact Hn1|].
      intros s0. cbn [for_each]. unfold bind. now rewrite H1.
    + exists bs1, d1, (inr msg). split; [exact Hn1|].
      intros s0. cbn [for_each]. unfold bind. now rewrite H1.
Qed.

Ltac appends_step :=
  first [ apply appends_push | apply appends_ret | apply appends_throw
        | apply appends_and_then
        | match goal with
          | |- appends (if _ then _ else _) => apply appends_if
          | |- appends (bind (gets _) _) =>
              apply appends_gets; [reflexivity | intro]
          end ].

Lemma appends_pushFloat (x : number) : appends (_pushFloat x).
Proof.
  unfold _pushFloat. appends_step.
  destruct (Util.writeHalf [0; 0] x) as [ok b2].
  unfold _pushUInt8, _pushFloatBE, _pushDoubleBE. repeat appends_step.
Qed.

Lemma appends_pushInt (n mt : Z) (orig : number) : appends (_pushInt n mt orig).
Proof.
  unfold _pushInt, _pushUInt8, _pushUInt16BE, _pushUInt32BE.
  repeat first [appends_step | apply appends_pushFloat].
Qed.

Lemma appends_pushNumber (x : number) : appends (_pushNumber x).
Proof.
  unfold _pushNumber, _pushNaN, _pushInfinity, _pushIntNum.
  repeat first [appends_step | apply appends_pushInt | apply appends_pushFloat].
Qed.

Lemma appends_pushString (s : jsstring) : appends (_pushString s).
Proof.
  unfold _pushString.
  apply appends_and_then; [apply appends_pushInt | apply appends_push].
Qed.

Lemma appends_pushByteString (b : bytes) : appends (_pushByteString b).
Proof.
  unfold _pushByteString.
  apply appends_and_then; [apply appends_pushInt | apply appends_push].
Qed.

Lemma appends_pushJSBigint (v : Z) : appends (_pushJSBigint v).
Proof.
  rewrite pushJSBigint_unfold. appends_step.
  unfold _pushTag, _pushUInt8, _pushUInt32BE.
  repeat first [appends_step | apply appends_pushInt | apply appends_pushByteString].
Qed.

Lemma appends_pushUndefined : appends _pushUndefined.
Proof.
  unfold _pushUndefined. appends_step. destruct a; apply appends_push.
Qed.

Lemma appends_enter (id : nat) : appends (enter id).
Proof.
  intros e. unfold enter. destruct (detectLoops e) as [ws|] eqn:Hd.
  - destruct (bool_decide (id ∈ ws)) eqn:Hin.
    + exists [], (Some ws), (inr ("Loop detected while CBOR encoding. " ++
                                  "Call removeLoopDetectors before resuming.")%string).
      split; [discriminate|]. intros s0. cbn. rewrite Hd, Hin, app_nil_r.
      destruct e; cbn in *; now subst.
    + exists [], (Some ({[id]} ∪ ws : gset nat)), (inl true).
      split; [discriminate|]. intros s0. cbn. now rewrite Hd, Hin, app_nil_r.
  - exists [], None, (inl true). split; [reflexivity|].
    intros s0. cbn. rewrite Hd, app_nil_r. destruct e; cbn in *; now subst.
Qed.

Lemma appends_leave (id : nat) : appends (leave id).
Proof.
  intros e. unfold leave. destruct (detectLoops e) as [ws|] eqn:Hd.
  - exists [], (Some (ws ∖ {[id]} : gset nat)), (inl true).
    split; [discriminate|]. intros s0. cbn. now rewrite Hd, app_nil_r.
  - exists [], None, (inl true). split; [reflexivity|].
    intros s0. cbn. rewrite Hd, app_nil_r. destruct e; cbn in *; now subst.
Qed.

Lemma appends_pushAny (v : value) : appends (pushAny v).
Proof.
  induction v as [x|z|s|b| | |s| |id elems IH|id entries IH|id data|id props IH]
    using value_ind_nested.
  - apply appends_pushNumber.
  - apply appends_pushJSBigint.
  - apply appends_pushString.
  - unfold pushAny, _pushBoolean, _pushUInt8. apply appends_push.
  - apply appends_pushUndefined.
  - cbn. unfold _pushNull, _pushUInt8. apply appends_push.
  - destruct s; cbn;
      first [apply appends_pushUndefined | apply appends_throw
            | unfold _pushNull, _pushUInt8; apply appends_push].
  - cbn. apply appends_throw.
  - rewrite pushAny_JArray. apply appends_and_then; [apply appends_enter|].
    unfold _pushArray. cbv iota.
    apply appends_and_then; [apply appends_pushInt|].
    apply appends_and_then; [now apply appends_for_each | apply appends_ret].
  - rewrite pushAny_JMap. apply appends_and_then; [apply appends_enter|].
    unfold _pushMap. appends_step. cbv iota.
    apply appends_and_then; [apply appends_pushInt|].
    apply appends_and_then; [|apply appends_ret].
    apply appends_for_each. eapply Forall_impl; [exact IH|].
    cbn beta. intros kv [Hk Hv].
    destruct (keep_entry a kv); [|apply appends_ret].
    appends_step.
    destruct (a0 && is_undefined (fst kv)); [apply appends_throw|].
    now apply appends_and_then.
  - rewrite pushAny_JUint8Array.
    apply appends_and_then; [apply appends_enter | apply appends_pushByteString].
  - rewrite pushAny_JObject. apply appends_and_then; [apply appends_enter|].
    unfold _pushObject_generic. appends_step. cbv iota.
    apply appends_and_then; [apply appends_pushInt|].
    apply appends_and_then; [|apply appends_leave].
    apply appends_for_each. eapply Forall_impl; [exact IH|].
    cbn beta. intros kv Hv.
    destruct (keep_key a (snd kv)); [|apply appends_ret].
    apply appends_and_then; [apply appends_pushString | exact Hv].
Qed.

Lemma set_stream_self (e : Encoder) : set_stream (stream e) e = e.
Proof. now destruct e. Qed.

Lemma encodeAll_cons (v : value) (l : list value) :
  _encodeAll (v :: l) = bind (pushAny v) (fun _ => _encodeAll l).
Proof. reflexivity. Qed.

(** [_encodeAll] from a stream [s1]: its result is [s1] and the bytes of
    the values, which do not depend on [s1]. *)
Lemma encodeAll_frame (l : list value) :
  forall (e : Encoder) (s1 out : bytes) (e1 : Encoder),
    _encodeAll l (set_stream s1 e) = Ret out e1 ->
    exists bs d,
      out = s1 ++ bs
      /\ e1 = set_stream [] (set_detectLoops d e)
      /\ (detectLoops e = None -> d = None)
      /\ forall s0, _encodeAll l (set_stream s0 e) = Ret (s0 ++ bs) e1.
Proof.
  induction l as [|v l IH]; intros e s1 out e1 H.
  - cbn in H. inversion H; subst. exists [], (detectLoops e).
    split; [|split; [|split]].
    + now rewrite app_nil_r.
    + now destruct e.
    + auto.
    + intros s0. cbn. now rewrite app_nil_r.
  - rewrite encodeAll_cons in H. unfold bind in H.
    destruct (appends_pushAny v e) as (bs1 & d1 & ok1 & Hn1 & H1).
    rewrite H1 in H. destruct ok1 as [r|msg]; cbn [finish] in H; [|discriminate].
    destruct (IH (set_detectLoops d1 e) (s1 ++ bs1) out e1 H)
      as (bs2 & d2 & Hout & He1 & Hn2 & Hall).
    exists (bs1 ++ bs2), d2. split; [|split; [|split]].
    + now rewrite Hout, app_assoc.
    + exact He1.
    + intros Hd. apply Hn2. cbn. auto.
    + intros s0. rewrite encodeAll_cons. unfold bind. rewrite H1. cbn [finish].
      rewrite (Hall (s0 ++ bs1)). now rewrite app_assoc.
Qed.

Lemma encodeAll_app (xs ys : list value) :
  forall (e e1 e2 : Encoder) (a b : bytes),
    _encodeAll xs e = Ret a e1 -> _encodeAll ys e1 = Ret b e2 ->
    _encodeAll (xs ++ ys) e = Ret (a ++ b) e2.
Proof.
  induction xs as [|v xs IH]; intros e e1 e2 a b Hx Hy.
  - cbn in Hx. inversion Hx; subst. cbn [app].
    destruct (encodeAll_frame ys e [] b e2 Hy) as (bs & d & Hb & _ & _ & Hall).
    cbn in Hb. subst bs. rewrite <- (set_stream_self e) at 1. apply Hall.
  - cbn [app]. rewrite encodeAll_cons in *. unfold bind in *.
    destruct (pushAny v e) as [r e'|msg e']; [|discriminate].
    exact (IH e' e1 e2 a b Hx Hy).
Qed.

(** X13.  [encode(...xs, ...ys)] is [encode(...xs)] followed by
    [encode(...ys)]: with the default options, the bytes written for a
    value do not depend on what was written before it, and what was
    written is never changed. *)
Theorem encode_app (xs ys : list value) (a b : bytes) :
  encode xs = inl a -> encode ys = inl b -> encode (xs ++ ys) = inl (a ++ b).
Proof.
  unfold encode.
  change (new_Encoder default_options)
    with (inl (B := string) (mkEncoder [] false None false false None false)).
  cbv iota. set (e0 := mkEncoder [] false None false false None false).
  destruct (_encodeAll xs e0) as [a' e1|] eqn:Hxs; [|discriminate].
  destruct (_encodeAll ys e0) as [b' e2|] eqn:Hys; [|discriminate].
  cbn [returned]. intros Hx Hy. inversion Hx; inversion Hy; subst.
  destruct (encodeAll_frame xs e0 [] a e1 Hxs) as (bs & d & _ & He1 & Hd & _).
  rewrite (Hd eq_refl) in He1. change (set_stream [] (set_detectLoops None e0))
    with e0 in He1. subst e1.
  now rewrite (encodeAll_app xs ys e0 e0 e2 a b Hxs Hys).
Qed.

Lemma encode_app_witness :
  encode ([JBoolean true] ++ [JNull]) = inl ([0xf5] ++ [0xf6]).
Proof.
  apply (encode_app [JBoolean true] [JNull] [0xf5] [0xf6]); reflexivity.
Defined.

(** ** Rounding gives a number of the format *)

Lemma shr_m_shr_1 (mrs : shr_record) :
  0 <= shr_m mrs -> shr_m (shr_1 mrs) = shr_m mrs / 2.
Proof.
  destruct mrs as [m r s]. cbn [shr_m]. intros Hm.
  destruct m as [|[p|p|]|p]; cbn [shr_1 shr_m].
  - reflexivity.
  - apply Z.div_unique with 1; lia.
  - apply Z.div_unique with 0; lia.
  - reflexivity.
  - lia.
Qed.

Lemma shr_m_iter (k : nat) (mrs : shr_record) :
  0 <= shr_m mrs ->
  shr_m (Nat.iter k shr_1 mrs) = shr_m mrs / 2 ^ Z.of_nat k.
Proof.
  intros Hm. induction k as [|k IH].
  - cbn. now rewrite Z.div_1_r.
  - change (Nat.iter (S k) shr_1 mrs) with (shr_1 (Nat.iter k shr_1 mrs)).
    rewrite shr_m_shr_1, IH.
    + rewrite Z.div_div by (try apply Z.pow_pos_nonneg; lia).
      now rewrite Nat2Z.inj_succ, Z.pow_succ_r, Z.mul_comm by lia.
    + rewrite IH. apply Z.div_pos; [lia | apply Z.pow_pos_nonneg; lia].
Qed.

Lemma shr_spec (mrs : shr_record) (e n : Z) :
  0 <= shr_m mrs -> 0 <= n ->
  exists mrs', shr mrs e n = (mrs', e + n)
               /\ shr_m mrs' = shr_m mrs / 2 ^ n.
Proof.
  intros Hm Hn. destruct n as [|p|p]; [| |lia].
  - exists mrs. cbn. now rewrite Z.add_0_r, Z.div_1_r.
  - exists (SpecFloat.iter_pos shr_1 p mrs). split; [reflexivity|].
    rewrite iter_pos_nat, shr_m_iter by exact Hm.
    now rewrite positive_nat_Z.
Qed.

Lemma shr_nonpos (mrs : shr_record) (e n : Z) :
  n <= 0 -> shr mrs e n = (mrs, e).
Proof. intros Hn. destruct n as [|p|p]; [reflexivity|lia|reflexivity]. Qed.

Lemma round_nearest_even_bounds (mrs : shr_record) :
  shr_m mrs <= round_nearest_even (shr_m mrs) (loc_of_shr_record mrs)
            <= shr_m mrs + 1.
Proof.
  destruct mrs as [m r s]. cbn [shr_m].
  destruct r, s; cbn; try destruct (Z.even m); lia.
Qed.

Lemma digits_ge_pow2 (k : positive) (d : Z) :
  2 ^ (d - 1) <= Zpos k -> d <= Zpos (digits2_pos k).
Proof.
  intros H. pose proof (digits_bounds k) as [_ Bhi].
  destruct (Z.leb_spec d (Zpos (digits2_pos k))); [assumption|].
  assert (2 ^ Zpos (digits2_pos k) <= 2 ^ (d - 1)).
  { apply Z.pow_le_mono_r; lia. }
  lia.
Qed.

Section Valid.
Variables prec emax : Z.
Hypothesis Hprec : 0 < prec.

(** A mantissa [m] at an exponent [e] not above the one of the format:
    rounding shifts it to the exponent of the format, and renormalises
    when the mantissa overflows. *)
Lemma binary_round_aux_is_valid (s : bool) (m : positive) (e : Z) :
  e <= fexp prec emax (Zpos (digits2_pos m) + e) ->
  valid_binary prec emax
    (binary_round_aux prec emax s (Zpos m) e loc_Exact) = true.
Proof.
  intros He. unfold binary_round_aux, shr_fexp.
  cbn [Zdigits2 shr_record_of_loc].
  pose proof (digits_bounds m) as [Blo Bhi].
  set (d := Zpos (digits2_pos m)) in *.
  set (t := fexp prec emax (d + e)) in *.
  assert (Ht : t = Z.max (d + e - prec) (emin prec emax)) by reflexivity.
  destruct (shr_spec (Build_shr_record (Zpos m) false false) e (t - e))
    as (mrs1 & E1 & M1); [cbn; lia | lia |].
  rewrite E1. replace (e + (t - e)) with t by lia.
  cbn [shr_m] in M1.
  pose proof (round_nearest_even_bounds mrs1) as [Rlo Rhi].
  set (m2 := round_nearest_even (shr_m mrs1) (loc_of_shr_record mrs1)) in *.
  assert (Hn : 0 < 2 ^ (t - e)) by (apply Z.pow_pos_nonneg; lia).
  assert (H1hi : shr_m mrs1 < 2 ^ prec).
  { rewrite M1. apply Z.div_lt_upper_bound; [exact Hn|].
    rewrite <- Z.pow_add_r by lia.
    apply Z.lt_le_trans with (2 ^ d); [exact Bhi|].
    apply Z.pow_le_mono_r; lia. }
  assert (H1lo : 0 <= shr_m mrs1).
  { rewrite M1. apply Z.div_pos; lia. }
  assert (H1n : t = emin prec emax \/ 2 ^ (prec - 1) <= shr_m mrs1).
  { destruct (Z.eq_dec t (emin prec emax)) as [|Hne]; [now left|right].
    rewrite M1. apply Z.div_le_lower_bound; [exact Hn|].
    rewrite <- Z.pow_add_r by lia.
    replace (t - e + (prec - 1)) with (d - 1) by lia. exact Blo. }
  destruct m2 as [|p2|p2] eqn:Hm2; [| |lia].
  - (* rounded to zero *)
    cbn [Zdigits2]. rewrite shr_nonpos.
    + reflexivity.
    + unfold fexp. lia.
  - cbn [Zdigits2].
    destruct (Z.ltb_spec (Zpos p2) (2 ^ prec)) as [Hlt|Hge].
    + (* the mantissa fits *)
      pose proof (digits_lt_pow2 p2 prec Hlt) as Hd2.
      rewrite shr_nonpos by (unfold fexp; lia).
      cbn [shr_record_of_loc shr_m].
      destruct (Z.leb_spec t (emax - prec)) as [Hle|Hgt]; [|reflexivity].
      unfold valid_binary, bounded, canonical_mantissa.
      apply andb_true_iff. split; [|apply Z.leb_le; exact Hle].
      apply Z.eqb_eq. unfold fexp.
      destruct H1n as [Hmin|Hnorm]; [lia|].
      assert (prec <= Zpos (digits2_pos p2)) by (apply digits_ge_pow2; lia).
      lia.
    + (* the mantissa is 2^prec: one more shift *)
      assert (Hp2 : Zpos p2 = 2 ^ prec) by lia.
      assert (Hd2 : Zpos (digits2_pos p2) = prec + 1).
      { apply digits_unique. rewrite Hp2.
        replace (prec + 1 - 1) with prec by lia.
        split; [lia|]. apply Z.pow_lt_mono_r; lia. }
      rewrite Hd2.
      assert (Hs : fexp prec emax (prec + 1 + t) - t = 1)
        by (unfold fexp; lia).
      rewrite Hs.
      destruct (shr_spec (Build_shr_record (Zpos p2) false false) t 1)
        as (mrs3 & E3 & M3); [cbn; lia | lia |].
      cbn [shr_record_of_loc]. rewrite E3. cbn [shr_m] in M3.
      assert (H3 : shr_m mrs3 = 2 ^ (prec - 1)).
      { rewrite M3, Hp2. change (2 ^ 1) with 2.
        replace prec with (prec - 1 + 1) at 1 by lia.
        rewrite Z.pow_add_r by lia. change (2 ^ 1) with 2.
        apply Z.div_mul. lia. }
      assert (H3p : 0 < 2 ^ (prec - 1)) by (apply Z.pow_pos_nonneg; lia).
      destruct (shr_m mrs3) as [|p3|p3] eqn:Hm3; [lia| |lia].
      destruct (Z.leb_spec (t + 1) (emax - prec)) as [Hle|Hgt]; [|reflexivity].
      unfold valid_binary, bounded, canonical_mantissa.
      apply andb_true_iff. split; [|apply Z.leb_le; exact Hle].
      apply Z.eqb_eq.
      assert (Hd3 : Zpos (digits2_pos p3) = prec).
      { apply digits_unique. rewrite H3. split; [lia|].
        apply Z.pow_lt_mono_r; lia. }
      rewrite Hd3. unfold fexp. lia.
Qed.

Lemma binary_round_is_valid (s : bool) (m : positive) (e : Z) :
  valid_binary prec emax (binary_round prec emax s m e) = true.
Proof.
  unfold binary_round.
  set (t := fexp prec emax (Zpos (digits2_pos m) + e)).
  destruct (shl_align m e t) as [mz ez] eqn:Hal.
  apply binary_round_aux_is_valid.
  unfold shl_align in Hal. destruct (t - e) as [|p|p] eqn:Hp.
  - inversion Hal; subst mz ez. fold t. lia.
  - inversion Hal; subst mz ez. fold t. lia.
  - inversion Hal; subst mz ez.
    rewrite (digits_mul_pow2 m (Pos.iter xO m p) (Zpos p));
      [|lia|apply pos_iter_xO].
    replace (Zpos (digits2_pos m) + Zpos p + t)
      with (Zpos (digits2_pos m) + e) by lia.
    fold t. lia.
Qed.

End Valid.

Lemma round32_valid (x : number) :
  valid_binary prec32 emax32 (round32 x) = true.
Proof.
  destruct x as [s|s| |s m e]; try reflexivity.
  apply binary_round_is_valid. reflexivity.
Qed.

(** ** Interchange formats *)

Section Interchange.
Variables prec emax : Z.
Hypothesis Hprec : 2 <= prec.
Hypothesis Hemax : 2 <= emax.
Hypothesis Hew : 2 ^ exp_bits emax = 2 * emax.

Lemma exp_bits_nonneg : 0 <= exp_bits emax.
Proof. unfold exp_bits. pose proof (Z.log2_nonneg emax). lia. Qed.

(** The three fields of a bit pattern. *)
Lemma fields (s : bool) (E M : Z) :
  0 <= E < 2 ^ exp_bits emax -> 0 <= M < 2 ^ mant_bits prec ->
  let b := sign_bit prec emax s + (E * 2 ^ mant_bits prec + M) in
  (2 ^ (mant_bits prec + exp_bits emax) <=? b) = s
  /\ (b / 2 ^ mant_bits prec) mod 2 ^ exp_bits emax = E
  /\ b mod 2 ^ mant_bits prec = M
  /\ 0 <= b < 2 * 2 ^ (mant_bits prec + exp_bits emax).
Proof.
  intros HE HM b. subst b. unfold sign_bit.
  pose proof exp_bits_nonneg as Hw.
  assert (Hmw : 0 <= mant_bits prec) by (unfold mant_bits; lia).
  rewrite Z.pow_add_r by lia.
  set (P := 2 ^ mant_bits prec) in *. set (Q := 2 ^ exp_bits emax) in *.
  assert (HP : 0 < P) by (apply Z.pow_pos_nonneg; lia).
  assert (HQ : 0 < Q) by (apply Z.pow_pos_nonneg; lia).
  set (S := if s then 1 else 0).
  assert (HS : (if s then P * Q else 0) = S * Q * P) by (destruct s; cbn; lia).
  rewrite HS.
  assert (Hdiv : (S * Q * P + (E * P + M)) / P = S * Q + E).
  { symmetry. apply Z.div_unique with M; [left; lia | lia]. }
  assert (Hlow : E * P + M < Q * P) by nia.
  split; [|split; [|split]].
  - destruct s; subst S.
    + apply Z.leb_le. nia.
    + apply Z.leb_gt. nia.
  - rewrite Hdiv. rewrite Z.add_comm, Z.mod_add by lia.
    apply Z.mod_small. exact HE.
  - replace (S * Q * P + (E * P + M)) with (M + (S * Q + E) * P) by lia.
    rewrite Z.mod_add by lia. apply Z.mod_small. exact HM.
  - destruct s; subst S; nia.
Qed.

(** Reading the bit pattern of a number of the format gives the number
    back. *)
Lemma of_bits_bits_of (f : spec_float) :
  valid_binary prec emax f = true ->
  of_bits prec emax (bits_of prec emax f) = f
  /\ 0 <= bits_of prec emax f < 2 * 2 ^ (mant_bits prec + exp_bits emax).
Proof.
  intros Hv.
  pose proof exp_bits_nonneg as Hw.
  assert (Hmw : 1 <= mant_bits prec) by (unfold mant_bits; lia).
  assert (HP : 0 < 2 ^ mant_bits prec) by (apply Z.pow_pos_nonneg; lia).
  assert (HP1 : 0 < 2 ^ (mant_bits prec - 1) < 2 ^ mant_bits prec).
  { split; [apply Z.pow_pos_nonneg; lia | apply Z.pow_lt_mono_r; lia]. }
  assert (HP2 : 2 ^ prec = 2 * 2 ^ mant_bits prec).
  { unfold mant_bits. rewrite <- Z.pow_succ_r by lia. f_equal. lia. }
  destruct f as [s|s| |s m e].
  - (* zero *)
    destruct (fields s 0 0) as (Hs & HE & HM & Hr); [lia | lia |].
    cbv zeta in *. rewrite Z.mul_0_l, !Z.add_0_r in *.
    split; [|exact Hr].
    unfold of_bits, bits_of. cbv zeta. rewrite Hs, HE, HM. reflexivity.
  - (* infinity *)
    destruct (fields s (2 ^ exp_bits emax - 1) 0) as (Hs & HE & HM & Hr);
      [lia | lia |].
    cbv zeta in *. rewrite !Z.add_0_r in *.
    split; [|exact Hr].
    unfold of_bits, bits_of. cbv zeta. rewrite Hs, HE, HM.
    destruct (Z.eqb_spec (2 ^ exp_bits emax - 1) 0); [lia|].
    now rewrite Z.eqb_refl.
  - (* NaN *)
    destruct (fields false (2 ^ exp_bits emax - 1) (2 ^ (mant_bits prec - 1)))
      as (Hs & HE & HM & Hr); [lia | lia |].
    cbv zeta in *. cbn [sign_bit] in *. rewrite !Z.add_0_l in *.
    split; [|exact Hr].
    unfold of_bits, bits_of. cbv zeta. rewrite Hs, HE, HM.
    destruct (Z.eqb_spec (2 ^ exp_bits emax - 1) 0); [lia|].
    rewrite Z.eqb_refl.
    destruct (Z.eqb_spec (2 ^ (mant_bits prec - 1)) 0); [lia|reflexivity].
  - (* finite *)
    unfold valid_binary, bounded, canonical_mantissa in Hv.
    apply andb_true_iff in Hv as [Hc He].
    apply Z.eqb_eq in Hc. apply Z.leb_le in He. unfold fexp in Hc.
    pose proof (digits_bounds m) as [Blo Bhi].
    unfold bits_of. cbv zeta.
    destruct (Z.ltb_spec (Zpos m) (2 ^ mant_bits prec)) as [Hsub|Hnorm].
    + (* subnormal *)
      pose proof (digits_lt_pow2 m _ Hsub) as Hd. unfold mant_bits in Hd.
      destruct (fields s 0 (Zpos m)) as (Hs & HE & HM & Hr); [lia | lia |].
      cbv zeta in *. rewrite Z.mul_0_l, !Z.add_0_l in *.
      split; [|exact Hr].
      unfold of_bits. cbv zeta. rewrite Hs, HE, HM. cbn [Z.eqb].
      f_equal. lia.
    + (* normal *)
      assert (Hd : Zpos (digits2_pos m) = prec).
      { assert (prec <= Zpos (digits2_pos m)).
        { apply digits_ge_pow2. exact Hnorm. }
        lia. }
      rewrite Hd, HP2 in Bhi.
      assert (Hemin : emin prec emax = 3 - emax - prec) by reflexivity.
      destruct (fields s (e - emin prec emax + 1) (Zpos m - 2 ^ mant_bits prec))
        as (Hs & HE & HM & Hr); [lia | lia |].
      cbv zeta in *.
      split; [|exact Hr].
      unfold of_bits. cbv zeta. rewrite Hs, HE, HM.
      destruct (Z.eqb_spec (e - emin prec emax + 1) 0); [lia|].
      destruct (Z.eqb_spec (e - emin prec emax + 1) (2 ^ exp_bits emax - 1));
        [lia|].
      replace (Zpos m - 2 ^ mant_bits prec + 2 ^ mant_bits prec)
        with (Zpos m) by lia.
      f_equal. lia.
Qed.

End Interchange.

Lemma take_be_bytes (w : nat) (v : Z) : take w (be_bytes w v) = be_bytes w v.
Proof. apply firstn_all2. now rewrite length_be_bytes. Qed.

Lemma getFloat64_setFloat64 (x : number) :
  valid x = true -> getFloat64 (setFloat64 x) = x.
Proof.
  intros Hv. unfold getFloat64, setFloat64.
  destruct (of_bits_bits_of prec64 emax64) with (f := x) as [Hb Hr];
    [unfold prec64; lia | unfold emax64; lia | reflexivity | exact Hv |].
  rewrite take_be_bytes, be_value_be_bytes_small; [exact Hb|].
  change (256 ^ Z.of_nat 8) with (2 * 2 ^ (mant_bits prec64 + exp_bits emax64)).
  exact Hr.
Qed.

Lemma getFloat32_setFloat32 (x : number) :
  getFloat32 (setFloat32 x) = Math_fround x.
Proof.
  unfold getFloat32, setFloat32, Math_fround.
  destruct (of_bits_bits_of prec32 emax32) with (f := round32 x) as [Hb Hr];
    [unfold prec32; lia | unfold emax32; lia | reflexivity
    | apply round32_valid |].
  rewrite take_be_bytes, be_value_be_bytes_small; [now rewrite Hb|].
  change (256 ^ Z.of_nat 4) with (2 * 2 ^ (mant_bits prec32 + exp_bits emax32)).
  exact Hr.
Qed.

(** [Math.fround(x) === x] on a number that is not a zero: the two are
    the same number. *)
Lemma fround_eqb (x : number) :
  eqb (Math_fround x) x = true -> Math_fround x = x.
Proof.
  destruct x as [s|s| |s m e]; try reflexivity.
  intros H. destruct (Math_fround (S754_finite s m e)) as [s'|s'| |s' m' e'].
  - destruct s', s; discriminate H.
  - destruct s', s; discriminate H.
  - discriminate H.
  - apply eqb_finite_inv in H as (-> & -> & ->). reflexivity.
Qed.

Lemma pushNumber_not_integer (x : number) (e : Encoder) :
  valid x = true -> is_integral x = false -> canonical e = false ->
  exists ib payload,
    emits e (_pushNumber x e) (ib :: payload)
    /\ Z.shiftr ib 5 = MT.SIMPLE_FLOAT
    /\ Util.parseCBORfloat payload = inl x.
Proof.
  intros Hv Hi Hc. destruct (isFinite x) eqn:Hfin.
  - (* finite: [_pushFloat] *)
    pose proof (Math_round_fixes_integral x Hv Hfin) as Hr.
    assert (Hnan : isNaN x = false) by (destruct x; try reflexivity; discriminate).
    unfold _pushNumber. rewrite Hnan, Hfin, Hr, Hi. cbn [negb].
    pose proof (pushFloat_writes x e Hc) as Hw.
    destruct (eqb (Math_fround x) x) eqn:Heq.
    + exists 0xfa, (setFloat32 x). split; [exact Hw|]. split; [reflexivity|].
      unfold Util.parseCBORfloat. rewrite length_setFloat32.
      rewrite getFloat32_setFloat32. f_equal. now apply fround_eqb.
    + exists 0xfb, (setFloat64 x). split; [exact Hw|]. split; [reflexivity|].
      unfold Util.parseCBORfloat. rewrite length_setFloat64.
      now rewrite getFloat64_setFloat64.
  - destruct x as [s|s| |s m ex]; try discriminate.
    + exists 0xf9, (if s then [0xfc; 0x00] else [0x7c; 0x00]).
      split; [destruct s; reflexivity|]. split; [reflexivity|].
      destruct s; reflexivity.
    + exists 0xf9, [0x7e; 0x00]. repeat split.
Qed.

(** X14.  A number that is not an integer (NaN and the infinities
    included) is written by a non-canonical encoder as one initial byte
    of major type 7 and a payload that [parseCBORfloat] reads back as the
    same number: no precision is lost in choosing the width. *)
Theorem pushNumber_float_reads_back (x : number) (e : Encoder) :
  valid x = true -> is_integral x = false -> canonical e = false ->
  exists ib payload,
    emits e (_pushNumber x e) (ib :: payload)
    /\ Z.shiftr ib 5 = MT.SIMPLE_FLOAT
    /\ Util.parseCBORfloat payload = inl x.
Proof. exact (pushNumber_not_integer x e). Qed.

Lemma pushNumber_float_reads_back_witness :
  exists ib payload,
    emits (mkEncoder [] false None false false None false)
          (_pushNumber (S754_finite false 6755399441055744 (-52))
                       (mkEncoder [] false None false false None false))
          (ib :: payload)
    /\ Z.shiftr ib 5 = MT.SIMPLE_FLOAT
    /\ Util.parseCBORfloat payload = inl (S754_finite false 6755399441055744 (-52)).
Proof.
  apply (pushNumber_float_reads_back (S754_finite false 6755399441055744 (-52))
           (mkEncoder [] false None false false None false)); reflexivity.
Defined.

(** ** Half-precision floats *)


Lemma byte_values (b : Z) : is_byte b -> In b (map Z.of_nat (seq 0 256)).
Proof.
  intros Hb. apply in_map_iff. exists (Z.to_nat b).
  split; [unfold is_byte in Hb; lia|]. apply in_seq. unfold is_byte in Hb. lia.
Qed.




(** ** Cycles *)












Lemma refuses_throw (id : nat) (omit : bool) (msg : string) :
  refuses id omit (throw msg).
Proof. intros e _. now exists msg, e. Qed.











(** ** Containers *)

Lemma set_detectLoops_self (e : Encoder) : set_detectLoops (detectLoops e) e = e.
Proof. now destruct e. Qed.

(** What a method emits from one state, it emits whatever the stream
    holds. *)
Lemma emits_frame (m : M bool) (e : Encoder) (bs : bytes) :
  appends m -> emits e (m e) bs ->
  forall s0, emits (set_stream s0 e) (m (set_stream s0 e)) bs.
Proof.
  intros Ha H s0. destruct (Ha e) as (bs' & d & ok & _ & Hall).
  pose proof (Hall (stream e)) as H0. rewrite set_stream_self in H0.
  unfold emits in *. rewrite H in H0.
  destruct ok as [r|msg]; [|discriminate]. cbn [finish] in H0.
  inversion H0 as [[Hr Hs Hd]]. apply app_inv_head in Hs. subst r bs' d.
  rewrite Hall. cbn [finish]. now rewrite set_detectLoops_self.
Qed.

Lemma for_each_cons {A} (f : A -> M bool) (x : A) (l : list A) :
  for_each f (x :: l)
  = bind (f x) (fun b => if b then for_each f l else ret false).
Proof. reflexivity. Qed.

Lemma emits_at (e : Encoder) (s0 : bytes) (o : outcome bool) (bs : bytes) :
  emits (set_stream s0 e) o bs <-> o = Ret true (set_stream (s0 ++ bs) e).
Proof. reflexivity. Qed.


Lemma emits_for_each {A} (g : A -> M bool) (e : Encoder) (l : list A) :
  (forall x, appends (g x)) ->
  forall (bss : list bytes) (s0 : bytes),
    Forall2 (fun x bs => emits e (g x e) bs) l bss ->
    emits (set_stream s0 e) (for_each g l (set_stream s0 e)) (concat bss).
Proof.
  intros Hg. induction l as [|x l IH]; intros bss s0 H.
  - inversion H; subst. apply emits_ret.
  - rewrite for_each_cons. unfold bind.
    inversion H as [|? bs ? bss' Hx Hl]; subst.
    pose proof (emits_frame (g x) e bs (Hg x) Hx s0) as Hx0.
    apply emits_at in Hx0. rewrite Hx0. cbv iota.
    specialize (IH bss' (s0 ++ bs) Hl). apply emits_at in IH.
    apply emits_at. cbn [concat]. rewrite app_assoc. exact IH.
Qed.

Lemma enter_off (id : nat) (e : Encoder) :
  detectLoops e = None -> enter id e = Ret true e.
Proof. intros Hd. unfold enter. now rewrite Hd. Qed.


(** X17.  With the loop detector off, an array is encoded as the head of
    major type 4 holding its length, followed by the encodings of its
    elements, each as it is encoded on its own. *)
Theorem pushAny_array_encoding (id : nat) (elems : list value)
        (bss : list bytes) (e : Encoder) :
  detectLoops e = None ->
  Z.of_nat (length elems) <= MAX_SAFE_INTEGER ->
  Forall2 (fun v bs => emits e (pushAny v e) bs) elems bss ->
  emits e (pushAny (JArray id elems) e)
        (write_head MT.ARRAY (Z.of_nat (length elems)) ++ concat bss).
Proof.
  intros Hd Hlen Hel. rewrite pushAny_JArray.
  unfold and_then at 1. unfold bind. rewrite (enter_off id e Hd).
  unfold _pushArray. cbv iota.
  apply emits_and_then.
  - apply pushInt_writes; unfold MT.ARRAY; lia.
  - rewrite <- (app_nil_r (concat bss)). apply emits_and_then.
    + now apply (emits_for_each pushAny e elems appends_pushAny).
    + apply emits_ret.
Qed.

Lemma pushAny_array_encoding_witness :
  emits (mkEncoder [] false None false false None false)
        (pushAny (JArray 1 [JBoolean true; JNull])
                 (mkEncoder [] false None false false None false))
        (write_head MT.ARRAY 2 ++ concat [[0xf5]; [0xf6]]).
Proof.
  apply (pushAny_array_encoding 1 [JBoolean true; JNull] [[0xf5]; [0xf6]]
           (mkEncoder [] false None false false None false));
    [reflexivity | vm_compute; discriminate
    | repeat constructor].
Defined.







(** ** Integers beyond the safe range *)

Section Shape.
Variables prec emax : Z.
Hypothesis Hprec : 0 < prec.

(** What rounding returns on a mantissa [m] at an exponent [e] not above
    the exponent [t] of the format: the mantissa shifted to [t], or the
    next one. *)
Lemma binary_round_aux_shape (s : bool) (m : positive) (e : Z) :
  e <= fexp prec emax (Zpos (digits2_pos m) + e) ->
  exists m2,
    Zpos m / 2 ^ (fexp prec emax (Zpos (digits2_pos m) + e) - e) <= m2
    /\ m2 <= Zpos m / 2 ^ (fexp prec emax (Zpos (digits2_pos m) + e) - e) + 1
    /\ binary_round_aux prec emax s (Zpos m) e loc_Exact
       = if m2 <? 2 ^ prec then
           match m2 with
           | Zpos p2 =>
               if fexp prec emax (Zpos (digits2_pos m) + e) <=? emax - prec
               then S754_finite s p2 (fexp prec emax (Zpos (digits2_pos m) + e))
               else S754_infinity s
           | _ => S754_zero s
           end
         else
           if fexp prec emax (Zpos (digits2_pos m) + e) + 1 <=? emax - prec
           then S754_finite s (Z.to_pos (2 ^ (prec - 1)))
                            (fexp prec emax (Zpos (digits2_pos m) + e) + 1)
           else S754_infinity s.
Proof.
  intros He. unfold binary_round_aux, shr_fexp.
  cbn [Zdigits2 shr_record_of_loc].
  pose proof (digits_bounds m) as [Blo Bhi].
  set (d := Zpos (digits2_pos m)) in *.
  set (t := fexp prec emax (d + e)) in *.
  assert (Ht : t = Z.max (d + e - prec) (emin prec emax)) by reflexivity.
  destruct (shr_spec (Build_shr_record (Zpos m) false false) e (t - e))
    as (mrs1 & E1 & M1); [cbn; lia | lia |].
  rewrite E1. replace (e + (t - e)) with t by lia.
  cbn [shr_m] in M1.
  pose proof (round_nearest_even_bounds mrs1) as [Rlo Rhi].
  exists (round_nearest_even (shr_m mrs1) (loc_of_shr_record mrs1)).
  rewrite <- M1. split; [exact Rlo|]. split; [exact Rhi|].
  set (m2 := round_nearest_even (shr_m mrs1) (loc_of_shr_record mrs1)) in *.
  assert (Hn : 0 < 2 ^ (t - e)) by (apply Z.pow_pos_nonneg; lia).
  assert (H1hi : shr_m mrs1 < 2 ^ prec).
  { rewrite M1. apply Z.div_lt_upper_bound; [exact Hn|].
    rewrite <- Z.pow_add_r by lia.
    apply Z.lt_le_trans with (2 ^ d); [exact Bhi|].
    apply Z.pow_le_mono_r; lia. }
  assert (H1lo : 0 <= shr_m mrs1).
  { rewrite M1. apply Z.div_pos; lia. }
  assert (HP : 0 < 2 ^ prec) by (apply Z.pow_pos_nonneg; lia).
  destruct m2 as [|p2|p2] eqn:Hm2; [| |lia].
  - destruct (Z.ltb_spec 0 (2 ^ prec)); [|lia].
    cbn [Zdigits2]. rewrite shr_nonpos; [reflexivity|].
    unfold fexp. lia.
  - cbn [Zdigits2].
    destruct (Z.ltb_spec (Zpos p2) (2 ^ prec)) as [Hlt|Hge].
    + pose proof (digits_lt_pow2 p2 prec Hlt) as Hd2.
      rewrite shr_nonpos by (unfold fexp; lia).
      reflexivity.
    + assert (Hp2 : Zpos p2 = 2 ^ prec) by lia.
      assert (Hd2 : Zpos (digits2_pos p2) = prec + 1).
      { apply digits_unique. rewrite Hp2.
        replace (prec + 1 - 1) with prec by lia.
        split; [lia|]. apply Z.pow_lt_mono_r; lia. }
      rewrite Hd2.
      assert (Hs : fexp prec emax (prec + 1 + t) - t = 1)
        by (unfold fexp; lia).
      rewrite Hs.
      destruct (shr_spec (Build_shr_record (Zpos p2) false false) t 1)
        as (mrs3 & E3 & M3); [cbn; lia | lia |].
      cbn [shr_record_of_loc]. rewrite E3. cbn [shr_m] in M3.
      assert (H3 : shr_m mrs3 = 2 ^ (prec - 1)).
      { rewrite M3, Hp2. change (2 ^ 1) with 2.
        replace prec with (prec - 1 + 1) at 1 by lia.
        rewrite Z.pow_add_r by lia. change (2 ^ 1) with 2.
        apply Z.div_mul. lia. }
      assert (H3p : 0 < 2 ^ (prec - 1)) by (apply Z.pow_pos_nonneg; lia).
      rewrite H3.
      destruct (2 ^ (prec - 1)) as [|p3|p3] eqn:Hm3; [lia| |lia].
      reflexivity.
Qed.

End Shape.

(** [x - 1] on an integer above 2^53 is at least 2^53. *)
Lemma sub_one_beyond (m : positive) (e : Z) :
  valid (S754_finite false m e) = true -> 2 ^ 53 < Zpos m * 2 ^ e ->
  exists p t,
    sub (S754_finite false m e) (of_Z 1) = S754_finite false p t
    /\ 0 <= t /\ 2 ^ 53 <= Zpos p * 2 ^ t.
Proof.
  intros Hv Hbig. apply valid_finite in Hv as (Hc & He & Hm).
  unfold emax64, prec64 in He.
  assert (He1 : 1 <= e).
  { destruct (Z.leb_spec 1 e); [assumption|exfalso].
    assert (2 ^ e <= 1).
    { destruct (Z.eq_dec e 0) as [->|]; [reflexivity|].
      rewrite Z.pow_neg_r by lia. lia. }
    assert (0 <= 2 ^ e) by (apply Z.pow_nonneg; lia). nia. }
  rewrite of_Z_1. unfold sub, SFsub. rewrite Z.min_r by lia.
  replace (fst (shl_align 4503599627370496 (-52) (-52)))
    with 4503599627370496%positive by reflexivity.
  unfold cond_Zopp. rewrite shl_align_value by lia.
  assert (HD : Zpos m * 2 ^ (e - -52) - 4503599627370496
               = (Zpos m * 2 ^ e - 1) * 2 ^ 52).
  { replace (e - -52) with (e + 52) by lia. rewrite Z.pow_add_r by lia.
    change 4503599627370496 with (2 ^ 52). ring. }
  assert (HDhi : Zpos m * 2 ^ (e - -52) - 4503599627370496 < Zpos m * 2 ^ (e + 52)).
  { replace (e - -52) with (e + 52) by lia. lia. }
  rewrite HD in HDhi.
  rewrite HD. clear HD.
  assert (HDlo : 2 ^ 105 <= (Zpos m * 2 ^ e - 1) * 2 ^ 52).
  { change (2 ^ 105) with (2 ^ 53 * 2 ^ 52). apply Z.mul_le_mono_nonneg_r; lia. }
  destruct ((Zpos m * 2 ^ e - 1) * 2 ^ 52) as [|pD|pD] eqn:HpD; [lia| |lia].
  unfold binary_normalize, binary_round.
  pose proof (digits_bounds pD) as [Blo Bhi].
  assert (Hlo : 106 <= Zpos (digits2_pos pD)) by (apply digits_ge_pow2; exact HDlo).
  assert (Hhi : Zpos (digits2_pos pD) <= 105 + e).
  { apply digits_lt_pow2. apply Z.lt_trans with (Zpos m * 2 ^ (e + 52)); [exact HDhi|].
    replace (2 ^ (105 + e)) with (2 ^ 53 * 2 ^ (e + 52))
      by (rewrite <- Z.pow_add_r by lia; f_equal; lia).
    apply Z.mul_lt_mono_pos_r; [apply Z.pow_pos_nonneg; lia | exact Hm]. }
  set (dD := Zpos (digits2_pos pD)) in *.
  assert (Hf : fexp prec64 emax64 (dD + -52) = dD - 105).
  { unfold fexp, emin, prec64, emax64. lia. }
  assert (Hal : shl_align pD (-52) (fexp prec64 emax64 (dD + -52)) = (pD, -52)).
  { rewrite Hf. unfold shl_align.
    destruct (dD - 105 - -52) as [|q|q] eqn:Hq; [reflexivity|reflexivity|lia]. }
  rewrite Hal.
  destruct (binary_round_aux_shape prec64 emax64) with (s := false) (m := pD) (e := -52)
    as (m2 & Hm2lo & Hm2hi & Heq); [unfold prec64; lia | fold dD; rewrite Hf; lia |].
  fold dD in Hm2lo, Hm2hi, Heq. rewrite Hf in Hm2lo, Hm2hi, Heq.
  rewrite Heq. clear Heq.
  replace (dD - 105 - -52) with (dD - 53) in Hm2lo, Hm2hi by lia.
  assert (Hpw : 0 < 2 ^ (dD - 53)) by (apply Z.pow_pos_nonneg; lia).
  assert (H1 : 2 ^ 52 <= Zpos pD / 2 ^ (dD - 53)).
  { apply Z.div_le_lower_bound; [exact Hpw|].
    rewrite <- Z.pow_add_r by lia.
    replace (dD - 53 + 52) with (dD - 1) by lia. exact Blo. }
  assert (Ht2 : 2 <= 2 ^ (dD - 105)).
  { change 2 with (2 ^ 1) at 1. apply Z.pow_le_mono_r; lia. }
  unfold prec64, emax64.
  destruct (Z.ltb_spec m2 (2 ^ 53)) as [Hlt|Hge].
  - destruct m2 as [|p2|p2]; [lia| |lia].
    destruct (Z.leb_spec (dD - 105) (1024 - 53)); [|lia].
    exists p2, (dD - 105). split; [reflexivity|]. split; [lia|].
    change (2 ^ 53) with (2 ^ 52 * 2). apply Z.mul_le_mono_nonneg; lia.
  - assert (Hte : dD - 105 < e).
    { destruct (Z.ltb_spec (dD - 105) e); [assumption|exfalso].
      assert (Hde : dD - 53 = e + 52) by lia. rewrite Hde in *.
      assert (Zpos pD / 2 ^ (e + 52) < Zpos m).
      { apply Z.div_lt_upper_bound; [exact Hpw|]. lia. }
      lia. }
    destruct (Z.leb_spec (dD - 105 + 1) (1024 - 53)); [|lia].
    exists (Z.to_pos (2 ^ (53 - 1))), (dD - 105 + 1).
    split; [reflexivity|]. split; [lia|].
    change (Zpos (Z.to_pos (2 ^ (53 - 1)))) with (2 ^ 52).
    rewrite Z.pow_add_r by lia. change (2 ^ 1) with 2.
    change (2 ^ 53) with (2 ^ 52 * (1 * 2)).
    apply Z.mul_le_mono_nonneg; lia.
Qed.

Lemma pushInt_beyond (n mt : Z) (orig : number) :
  MAX_SAFE_INTEGER < n ->
  _pushInt n mt orig
  = if mt =? MT.NEG_INT then _pushFloat orig else _pushFloat (of_Z n).
Proof.
  unfold MAX_SAFE_INTEGER. intros Hn. unfold _pushInt. cbv zeta.
  destruct (Z.ltb_spec n 24); [lia|].
  destruct (Z.leb_spec n 0xff); [lia|].
  destruct (Z.leb_spec n 0xffff); [lia|].
  destruct (Z.leb_spec n 0xffffffff); [lia|].
  destruct (Z.leb_spec n MAX_SAFE_INTEGER) as [Hle|_];
    [unfold MAX_SAFE_INTEGER in Hle; lia|].
  reflexivity.
Qed.

Lemma of_Z_finite (m : positive) (e : Z) :
  valid (S754_finite false m e) = true -> 0 <= e ->
  of_Z (Zpos m * 2 ^ e) = S754_finite false m e.
Proof.
  intros Hv He. apply valid_finite in Hv as (Hc & Hle & _).
  assert (0 < 2 ^ e) by (apply Z.pow_pos_nonneg; lia).
  destruct (Zpos m * 2 ^ e) as [|p|p] eqn:Hp; [lia| |lia].
  unfold of_Z, binary_normalize.
  apply binary_round_exact; [exact Hc | exact Hle |].
  right. split; [exact He|]. now rewrite Z.sub_0_r.
Qed.

Lemma pushFloat_reads_back (x : number) (e : Encoder) :
  valid x = true -> canonical e = false ->
  exists ib payload,
    emits e (_pushFloat x e) (ib :: payload)
    /\ Z.shiftr ib 5 = MT.SIMPLE_FLOAT
    /\ Util.parseCBORfloat payload = inl x.
Proof.
  intros Hv Hc. pose proof (pushFloat_writes x e Hc) as Hw.
  destruct (eqb (Math_fround x) x) eqn:Heq.
  - exists 0xfa, (setFloat32 x). split; [exact Hw|]. split; [reflexivity|].
    unfold Util.parseCBORfloat. rewrite length_setFloat32.
    rewrite getFloat32_setFloat32. f_equal. now apply fround_eqb.
  - exists 0xfb, (setFloat64 x). split; [exact Hw|]. split; [reflexivity|].
    unfold Util.parseCBORfloat. rewrite length_setFloat64.
    now rewrite getFloat64_setFloat64.
Qed.

Lemma pushNumber_beyond_safe (x : number) (e : Encoder) :
  valid x = true -> isFinite x = true ->
  to_Z x < - 2 ^ 53 \/ 2 ^ 53 <= to_Z x ->
  canonical e = false ->
  exists ib payload,
    emits e (_pushNumber x e) (ib :: payload)
    /\ Z.shiftr ib 5 = MT.SIMPLE_FLOAT
    /\ Util.parseCBORfloat payload = inl x.
Proof.
  intros Hv Hfin Hbig Hc.
  destruct x as [s|s| |s m ex]; try discriminate; [cbn in Hbig; lia|].
  pose proof (valid_finite s m ex Hv) as (_ & _ & Hm).
  assert (Hex : 1 <= ex /\ 2 ^ 53 <= Zpos m * 2 ^ ex
                /\ (s = true -> 2 ^ 53 < Zpos m * 2 ^ ex)).
  { unfold to_Z in Hbig. destruct (Z.leb_spec 0 ex) as [H0|H0].
    - assert (ex <> 0) by (intros ->; rewrite Z.mul_1_r in Hbig; destruct s; lia).
      split; [lia|]. destruct s; split; try lia; intros; lia.
    - exfalso. assert (0 < 2 ^ (- ex)) by (apply Z.pow_pos_nonneg; lia).
      assert (0 <= Zpos m / 2 ^ (- ex) <= Zpos m).
      { split; [apply Z.div_pos; lia|].
        apply Z.div_le_upper_bound; [lia|]. nia. }
      destruct s; lia. }
  destruct Hex as (Hex & Hval & Hneg).
  unfold _pushNumber. cbn [isNaN isFinite negb].
  assert (Hr : Math_round (S754_finite s m ex) = S754_finite s m ex).
  { unfold Math_round. destruct (Z.leb_spec 0 ex); [reflexivity|lia]. }
  rewrite Hr, eqb_finite_refl. unfold _pushIntNum. cbn [is_neg_zero].
  assert (Hlt : ltb (S754_finite s m ex) pos_zero = s) by (destruct s; reflexivity).
  rewrite Hlt. destruct s.
  - cbn [opp SFopp negb].
    destruct (sub_one_beyond m ex Hv (Hneg eq_refl)) as (p & t & Hsub & Ht & Hp).
    rewrite Hsub. unfold to_Z. destruct (Z.leb_spec 0 t); [|lia].
    rewrite pushInt_beyond by (unfold MAX_SAFE_INTEGER; lia).
    rewrite Z.eqb_refl. now apply pushFloat_reads_back.
  - unfold to_Z. destruct (Z.leb_spec 0 ex); [|lia].
    rewrite pushInt_beyond by (unfold MAX_SAFE_INTEGER; lia).
    change (MT.POS_INT =? MT.NEG_INT) with false. cbv iota.
    rewrite of_Z_finite by (assumption || lia).
    now apply pushFloat_reads_back.
Qed.

(** X20.  A number at or above 2^53, or below -2^53, is an integer that
    no head is written for: a non-canonical encoder writes it as a float
    of major type 7, in 4 or 8 bytes, that [parseCBORfloat] reads back as
    the same number. *)
Theorem pushNumber_beyond_safe_reads_back (x : number) (e : Encoder) :
  valid x = true -> isFinite x = true ->
  to_Z x < - 2 ^ 53 \/ 2 ^ 53 <= to_Z x ->
  canonical e = false ->
  exists ib payload,
    emits e (_pushNumber x e) (ib :: payload)
    /\ Z.shiftr ib 5 = MT.SIMPLE_FLOAT
    /\ Util.parseCBORfloat payload = inl x.
Proof. exact (pushNumber_beyond_safe x e). Qed.

Lemma pushNumber_beyond_safe_reads_back_witness :
  exists ib payload,
    emits (mkEncoder [] false None false false None false)
          (_pushNumber (S754_finite true 4503599627370497 1)
                       (mkEncoder [] false None false false None false))
          (ib :: payload)
    /\ Z.shiftr ib 5 = MT.SIMPLE_FLOAT
    /\ Util.parseCBORfloat payload = inl (S754_finite true 4503599627370497 1).
Proof.
  apply (pushNumber_beyond_safe_reads_back (S754_finite true 4503599627370497 1)
           (mkEncoder [] false None false false None false));
    [reflexivity | reflexivity | left; vm_compute; reflexivity | reflexivity].
Defined.

(** ** Simple values and tagged items *)



(** X22.  A tagged item is written as the head of major type 6 holding
    the tag, followed by the encoding of the value. *)
Theorem Tagged_encodeCBOR_encoding (tag : Z) (v : value) (bs : bytes)
        (e : Encoder) :
  0 <= tag <= MAX_SAFE_INTEGER ->
  emits e (pushAny v e) bs ->
  emits e (Tagged_encodeCBOR tag v e) (write_head MT.TAG tag ++ bs).
Proof.
  intros Ht Hv. unfold Tagged_encodeCBOR, bind.
  pose proof (pushTag_writes tag) as Hw. unfold MAX_SAFE_INTEGER in Ht.
  specialize (Hw Ht e). unfold emits in Hw. rewrite Hw.
  pose proof (emits_frame (pushAny v) e bs (appends_pushAny v) Hv
                (stream e ++ write_head MT.TAG tag)) as H.
  apply emits_at in H. rewrite H. unfold emits. now rewrite app_assoc.
Qed.

Lemma Tagged_encodeCBOR_encoding_witness :
  emits (mkEncoder [] false None false false None false)
        (Tagged_encodeCBOR 1 (JBoolean true)
           (mkEncoder [] false None false false None false))
        (write_head MT.TAG 1 ++ [0xf5]).
Proof.
  apply (Tagged_encodeCBOR_encoding 1 (JBoolean true) [0xf5]
           (mkEncoder [] false None false false None false));
    [vm_compute; split; discriminate | reflexivity].
Defined.

(** ** Hexadecimal strings *)

Lemma encode_bytes_checked :
  forallb (fun b =>
    match (if b <? 16 then ["0"%char] else []) ++ Hex.toString16 b with
    | [h; l] =>
        Ascii.eqb h (Hex.digit_char (b / 16))
        && Ascii.eqb l (Hex.digit_char (b mod 16))
        && negb (HexBrowser.is_line_terminator h)
        && negb (HexBrowser.is_line_terminator l)
        && (HexBrowser.to_uint8 (HexBrowser.parseInt16 [h; l]) =? b)
    | _ => false
    end) (map Z.of_nat (seq 0 256)) = true.
Proof. vm_compute. reflexivity. Qed.

Lemma encode_byte (b : Z) :
  is_byte b ->
  exists h l,
    (if b <? 16 then ["0"%char] else []) ++ Hex.toString16 b = [h; l]
    /\ h = Hex.digit_char (b / 16) /\ l = Hex.digit_char (b mod 16)
    /\ HexBrowser.is_line_terminator h = false
    /\ HexBrowser.is_line_terminator l = false
    /\ HexBrowser.to_uint8 (HexBrowser.parseInt16 [h; l]) = b.
Proof.
  intros Hb. pose proof encode_bytes_checked as Hall.
  rewrite forallb_forall in Hall. specialize (Hall b (byte_values b Hb)).
  cbv beta in Hall.
  destruct ((if b <? 16 then ["0"%char] else []) ++ Hex.toString16 b)
    as [|h [|l [|x r]]]; try discriminate.
  repeat (apply andb_true_iff in Hall as [Hall ?]).
  exists h, l. split; [reflexivity|].
  repeat split.
  - now apply Ascii.eqb_eq.
  - now apply Ascii.eqb_eq.
  - now apply negb_true_iff.
  - now apply negb_true_iff.
  - now apply Z.eqb_eq.
Qed.

Lemma fold_encode (buf : bytes) (s : list ascii) :
  fold_left (fun s b =>
               s ++ (if b <? 16 then ["0"%char] else []) ++ Hex.toString16 b)
            buf s
  = s ++ HexBrowser.encode buf.
Proof.
  unfold HexBrowser.encode. revert s.
  induction buf as [|b buf IH] using rev_ind; intros s.
  - cbn. now rewrite app_nil_r.
  - rewrite !fold_left_app. cbn [fold_left]. rewrite (IH s), (IH []).
    cbn [app]. now rewrite !app_assoc.
Qed.

Lemma encode_cons (b : Z) (buf : bytes) :
  HexBrowser.encode (b :: buf)
  = ((if b <? 16 then ["0"%char] else []) ++ Hex.toString16 b)
    ++ HexBrowser.encode buf.
Proof. unfold HexBrowser.encode at 1. cbn [fold_left app]. apply fold_encode. Qed.

Lemma hex_literal_encode (buf : bytes) :
  Forall is_byte buf ->
  forall (acc : Z) (seen : bool),
    hex_literal acc seen (HexBrowser.encode buf)
    = match buf with
      | [] => if seen then Some acc else None
      | _ => Some (fold_left (fun a b => a * 256 + b) buf acc)
      end.
Proof.
  induction 1 as [|b buf Hb _ IH]; intros acc seen; [reflexivity|].
  rewrite encode_cons.
  destruct (encode_byte b Hb) as (h & l & -> & -> & -> & _).
  assert (H16 : 0 <= b / 16 < 16).
  { unfold is_byte in Hb. split; [apply Z.div_pos; lia|].
    apply Z.div_lt_upper_bound; lia. }
  assert (Hm : 0 <= b mod 16 < 16) by (apply Z.mod_pos_bound; lia).
  cbn [app hex_literal]. rewrite !digit_value_char by assumption.
  rewrite IH. cbn [fold_left].
  replace (16 * (16 * acc + b / 16) + b mod 16) with (acc * 256 + b)
    by (pose proof (Z.div_mod b 16); lia).
  destruct buf; reflexivity.
Qed.

(** X23.  [bufferToBigInt] reads a buffer as an unsigned big-endian
    integer; on the empty buffer it throws, the string ['0x'] not being a
    number. *)
Theorem bufferToBigInt_be_value (buf : bytes) :
  Forall is_byte buf ->
  bufferToBigInt [] = None
  /\ (buf <> [] -> bufferToBigInt buf = Some (be_value buf)).
Proof.
  intros Hb. split; [reflexivity|]. intros Hne.
  unfold bufferToBigInt. rewrite hex_literal_encode by exact Hb.
  destruct buf; [contradiction|reflexivity].
Qed.

Lemma bufferToBigInt_be_value_witness :
  bufferToBigInt [] = None
  /\ ([1; 0] <> [] -> bufferToBigInt [1; 0] = Some (be_value [1; 0])).
Proof.
  apply (bufferToBigInt_be_value [1; 0]).
  repeat constructor; unfold is_byte; lia.
Defined.

(** X24.  The byte string that the encoder writes for the magnitude of a
    big integer is read back by [bufferToBigInt] as that magnitude. *)
Theorem bufferToBigInt_hex_bytes (n : Z) :
  0 <= n -> bufferToBigInt (hex_bytes n) = Some n.
Proof.
  intros Hn. rewrite hex_bytes_unsigned_be_bytes by exact Hn.
  unfold bufferToBigInt, unsigned_be_bytes.
  rewrite hex_literal_encode by apply be_bytes_in_range.
  unfold byte_length. cbn [be_bytes].
  fold (be_bytes (Z.to_nat (Z.log2 n / 8)) n).
  change (Some (be_value (be_bytes (byte_length n) n)) = Some n).
  f_equal. apply be_value_be_bytes_small.
  split; [exact Hn | apply byte_length_bounds; exact Hn].
Qed.

Lemma bufferToBigInt_hex_bytes_witness :
  bufferToBigInt (hex_bytes 18446744073709551616) = Some 18446744073709551616.
Proof. apply (bufferToBigInt_hex_bytes 18446744073709551616). lia. Defined.

Lemma pairs_encode (buf : bytes) :
  Forall is_byte buf ->
  map (fun p => HexBrowser.to_uint8 (HexBrowser.parseInt16 p))
      (HexBrowser.pairs (HexBrowser.encode buf)) = buf
  /\ (buf <> [] -> HexBrowser.pairs (HexBrowser.encode buf) <> []).
Proof.
  induction 1 as [|b buf Hb _ [IH _]]; [split; [reflexivity|contradiction]|].
  rewrite encode_cons.
  destruct (encode_byte b Hb) as (h & l & -> & _ & _ & Hh & Hl & Hv).
  cbn [app HexBrowser.pairs]. rewrite Hh, Hl.
  split; [|discriminate].
  cbn [map]. now rewrite Hv, IH.
Qed.

(** X25.  [decode] inverts [encode] on every buffer but the empty one,
    on whose encoding, the empty string, it throws. *)
Theorem hex_decode_encode (buf : bytes) :
  Forall is_byte buf ->
  HexBrowser.decode (HexBrowser.encode buf)
  = match buf with
    | [] => None
    | _ => Some buf
    end.
Proof.
  intros Hb. destruct (pairs_encode buf Hb) as [Hmap Hne].
  unfold HexBrowser.decode.
  destruct buf as [|b buf]; [reflexivity|].
  destruct (HexBrowser.pairs (HexBrowser.encode (b :: buf))) as [|p ps];
    [exfalso; now apply Hne|].
  now rewrite Hmap.
Qed.

Lemma hex_decode_encode_witness :
  HexBrowser.decode (HexBrowser.encode [0; 10; 255]) = Some [0; 10; 255].
Proof.
  apply (hex_decode_encode [0; 10; 255]).
  repeat constructor; unfold is_byte; lia.
Defined.

(** ** [BufferStream] *)

Lemma BufferStream_read_some (count : option Z) (s s' : BufferStream.t)
      (view : bytes) :
  BufferStream.wf s ->
  BufferStream.read count s = inl (Some view, s') ->
  let c := Z.min (BufferStream.requested count s) (BufferStream.length s) in
  0 < c
  /\ view = take (Z.to_nat c)
                 (drop (Z.to_nat (BufferStream.index s)) (BufferStream.bytes s))
  /\ s' = BufferStream.mk (BufferStream.bytes s) (BufferStream.index s + c)
  /\ Z.of_nat (length view) = c.
Proof.
  intros Hwf H c. unfold BufferStream.read in H. fold c in H.
  destruct (Z.eqb_spec c 0); [discriminate|].
  destruct (Z.ltb_spec c 0); [discriminate|].
  inversion H; subst view s'. clear H.
  repeat split; [lia|].
  rewrite length_take, length_drop.
  unfold BufferStream.wf in Hwf. unfold BufferStream.length in c.
  assert (c <= Z.of_nat (length (BufferStream.bytes s)) - BufferStream.index s)
    by (unfold c; lia).
  lia.
Qed.

(** X26.  What [read] returns can be given back: after a [read] that
    returned a view, [unshift] of that view puts the stream back where it
    was.  The view holds the next bytes, as many as were asked for or as
    are left, and the index stays a position in the bytes. *)
Theorem BufferStream_read_unshift (count : option Z) (s s' : BufferStream.t)
        (view : bytes) :
  BufferStream.wf s ->
  BufferStream.read count s = inl (Some view, s') ->
  BufferStream.unshift view s' = inl s
  /\ BufferStream.wf s'
  /\ Z.of_nat (length view)
     = Z.min (BufferStream.requested count s) (BufferStream.length s)
  /\ view = take (length view)
                 (drop (Z.to_nat (BufferStream.index s)) (BufferStream.bytes s)).
Proof.
  intros Hwf H.
  destruct (BufferStream_read_some count s s' view Hwf H)
    as (Hc & Hview & Hs' & Hlen).
  set (c := Z.min (BufferStream.requested count s)
                  (BufferStream.length s)) in *.
  assert (Hle : c <= BufferStream.length s) by (unfold c; lia).
  unfold BufferStream.length in Hle. unfold BufferStream.wf in *.
  split; [|split; [|split]].
  - unfold BufferStream.unshift. rewrite Hlen. subst s'.
    cbn [BufferStream.index BufferStream.bytes].
    destruct (Z.ltb_spec (BufferStream.index s + c) c); [lia|].
    replace (BufferStream.index s + c - c) with (BufferStream.index s) by lia.
    now destruct s.
  - subst s'. cbn [BufferStream.index BufferStream.bytes]. lia.
  - exact Hlen.
  - replace (length view) with (Z.to_nat c) by lia. exact Hview.
Qed.

Lemma BufferStream_read_unshift_witness :
  BufferStream.unshift [2; 3] (BufferStream.mk [1; 2; 3; 4] 3)
  = inl (BufferStream.mk [1; 2; 3; 4] 1).
Proof.
  refine (proj1 (BufferStream_read_unshift (Some 2)
                   (BufferStream.mk [1; 2; 3; 4] 1)
                   (BufferStream.mk [1; 2; 3; 4] 3) [2; 3] _ _));
    [unfold BufferStream.wf; cbn; lia | reflexivity].
Defined.

(** X27.  Two [read]s in a row return what one [read] of the two counts
    together returns, cut in two. *)
Theorem BufferStream_read_read (a b : Z) (s s1 s2 : BufferStream.t)
        (v1 v2 : bytes) :
  BufferStream.wf s ->
  BufferStream.read (Some a) s = inl (Some v1, s1) ->
  BufferStream.read (Some b) s1 = inl (Some v2, s2) ->
  BufferStream.read (Some (a + b)) s = inl (Some (v1 ++ v2), s2).
Proof.
  intros Hwf H1 H2.
  destruct (BufferStream_read_some (Some a) s s1 v1 Hwf H1)
    as (Hc1 & Hv1 & Hs1 & Hl1).
  assert (Hwf1 : BufferStream.wf s1).
  { subst s1. unfold BufferStream.wf in *.
    cbn [BufferStream.index BufferStream.bytes BufferStream.requested] in *.
    unfold BufferStream.length in *. lia. }
  destruct (BufferStream_read_some (Some b) s1 s2 v2 Hwf1 H2)
    as (Hc2 & Hv2 & Hs2 & Hl2).
  cbn [BufferStream.requested] in *.
  set (c1 := Z.min a (BufferStream.length s)) in *.
  set (c2 := Z.min b (BufferStream.length s1)) in *.
  assert (HL1 : BufferStream.length s1 = BufferStream.length s - c1).
  { subst s1. unfold BufferStream.length.
    cbn [BufferStream.index BufferStream.bytes]. lia. }
  assert (Hsum : Z.min (a + b) (BufferStream.length s) = c1 + c2).
  { clear Hl2 Hv2 Hs2 H2. subst c2. rewrite HL1 in *. lia. }
  unfold BufferStream.read. cbn [BufferStream.requested]. rewrite Hsum.
  destruct (Z.eqb_spec (c1 + c2) 0); [lia|].
  destruct (Z.ltb_spec (c1 + c2) 0); [lia|].
  unfold BufferStream.wf in Hwf.
  f_equal. f_equal.
  - f_equal. rewrite Hv1, Hv2. subst s1.
    cbn [BufferStream.index BufferStream.bytes].
    replace (Z.to_nat (BufferStream.index s + c1))
      with (Z.to_nat (BufferStream.index s) + Z.to_nat c1)%nat by lia.
    rewrite <- drop_drop, take_take_drop. f_equal. lia.
  - subst s2 s1. cbn [BufferStream.index BufferStream.bytes]. f_equal. lia.
Qed.

Lemma BufferStream_read_read_witness :
  BufferStream.read (Some (1 + 5)) (BufferStream.new [1; 2; 3; 4])
  = inl (Some ([1] ++ [2; 3; 4]), BufferStream.mk [1; 2; 3; 4] 4).
Proof.
  apply (BufferStream_read_read 1 5 (BufferStream.new [1; 2; 3; 4])
           (BufferStream.mk [1; 2; 3; 4] 1));
    [unfold BufferStream.wf; cbn; lia | reflexivity | reflexivity].
Defined.

(** ** Typed arrays *)

(** X28.  For every tag of [TYPED_ARRAY_TAGS], the element size that
    [_toTypedArray] computes from the bits of the tag is the element size
    of the class that the table gives for the tag. *)
Theorem typed_array_tag_size (tag : Z) (c : TypedArray.typed_class) :
  TypedArray.TYPED_ARRAY_TAGS tag = Some c ->
  TypedArray.sz tag = TypedArray.BYTES_PER_ELEMENT c.
Proof.
  unfold TypedArray.TYPED_ARRAY_TAGS.
  repeat match goal with
         | |- context [tag =? ?k] =>
             destruct (Z.eqb_spec tag k);
             [subst tag; intros H; inversion H; reflexivity|]
         end.
  discriminate.
Qed.

Lemma typed_array_tag_size_witness :
  TypedArray.sz 86 = TypedArray.BYTES_PER_ELEMENT TypedArray.Float64Array.
Proof. apply (typed_array_tag_size 86). reflexivity. Defined.

Lemma length_rev_chunks (n size : nat) (l : bytes) :
  length l = (n * size)%nat ->
  length (TypedArray.rev_chunks n size l) = length l.
Proof.
  revert l. induction n as [|n IH]; intros l Hl; [reflexivity|].
  cbn [TypedArray.rev_chunks].
  rewrite length_app, length_rev, length_take, IH
    by (rewrite length_drop; lia).
  rewrite length_drop. lia.
Qed.

Lemma rev_chunks_involutive (n size : nat) (l : bytes) :
  length l = (n * size)%nat ->
  TypedArray.rev_chunks n size (TypedArray.rev_chunks n size l) = l.
Proof.
  revert l. induction n as [|n IH]; intros l Hl; [reflexivity|].
  cbn [TypedArray.rev_chunks].
  assert (Hr : length (rev (take size l)) = size)
    by (rewrite length_rev, length_take; lia).
  rewrite take_app_length' by (symmetry; exact Hr).
  rewrite drop_app_length' by (symmetry; exact Hr).
  rewrite rev_involutive, IH by (rewrite length_drop; lia).
  apply take_drop.
Qed.

Lemma swap_loop_chunks (n size : nat) :
  forall pre mid post : bytes,
    length mid = (n * size)%nat ->
    TypedArray.swap_loop n (pre ++ mid ++ post) size (length pre)
    = inl (pre ++ TypedArray.rev_chunks n size mid ++ post).
Proof.
  induction n as [|n IH]; intros pre mid post Hl; [reflexivity|].
  cbn [TypedArray.swap_loop TypedArray.rev_chunks].
  assert (Hle : (length pre + size <= length (pre ++ mid ++ post))%nat)
    by (rewrite !length_app; lia).
  destruct (Nat.leb_spec (length pre + size) (length (pre ++ mid ++ post)));
    [|lia].
  assert (Hsw : TypedArray.swap_at (pre ++ mid ++ post) size (length pre)
                = (pre ++ rev (take size mid)) ++ drop size mid ++ post).
  { unfold TypedArray.swap_at.
    rewrite take_app_length, drop_app_length.
    rewrite <- drop_drop, drop_app_length.
    rewrite take_app_le by lia. rewrite drop_app_le by lia.
    now rewrite <- !app_assoc. }
  rewrite Hsw.
  replace (length pre + size)%nat with (length (pre ++ rev (take size mid)))
    by (rewrite length_app, length_rev, length_take; lia).
  rewrite IH by (rewrite length_drop; lia).
  now rewrite <- !app_assoc.
Qed.

(** X29.  [swapEndian] on a range inside the buffer, of a whole number
    of elements of 2, 4 or 8 bytes: it reverses the bytes of each
    element, leaves the bytes outside the range as they are, and applied
    twice it gives the buffer back. *)
Theorem swapEndian_involutive (ab : bytes) (size byteOffset n : nat) :
  size = 2%nat \/ size = 4%nat \/ size = 8%nat ->
  (byteOffset + n * size <= length ab)%nat ->
  exists ab',
    TypedArray.swapEndian ab size byteOffset (n * size) = inl ab'
    /\ ab' = take byteOffset ab
             ++ TypedArray.rev_chunks n size
                  (take (n * size) (drop byteOffset ab))
             ++ drop (byteOffset + n * size) ab
    /\ length ab' = length ab
    /\ TypedArray.swapEndian ab' size byteOffset (n * size) = inl ab.
Proof.
  intros Hsize Hin.
  assert (Hs : (size =? 2)%nat || (size =? 4)%nat || (size =? 8)%nat = true)
    by (destruct Hsize as [-> | [-> | ->]]; reflexivity).
  assert (Hpos : (0 < size)%nat) by lia.
  assert (Hit : ((n * size + size - 1) / size = n)%nat).
  { symmetry. apply (Nat.div_unique _ _ _ (size - 1)); lia. }
  set (pre := take byteOffset ab).
  set (mid := take (n * size) (drop byteOffset ab)).
  set (post := drop (byteOffset + n * size) ab).
  assert (Hab : ab = pre ++ mid ++ post).
  { unfold pre, mid, post. rewrite <- drop_drop.
    now rewrite !take_drop. }
  assert (Hpre : length pre = byteOffset) by (unfold pre; rewrite length_take; lia).
  assert (Hmid : length mid = (n * size)%nat)
    by (unfold mid; rewrite length_take, length_drop; lia).
  exists (pre ++ TypedArray.rev_chunks n size mid ++ post).
  unfold TypedArray.swapEndian. rewrite Hs, Hit.
  split; [|split; [reflexivity|split]].
  - rewrite Hab at 1. rewrite <- Hpre. now apply swap_loop_chunks.
  - rewrite Hab, !length_app, length_rev_chunks by exact Hmid. reflexivity.
  - rewrite <- Hpre.
    rewrite swap_loop_chunks by (rewrite length_rev_chunks; exact Hmid).
    rewrite rev_chunks_involutive by exact Hmid. now rewrite <- Hab.
Qed.

Lemma swapEndian_involutive_witness :
  exists ab',
    TypedArray.swapEndian [9; 1; 2; 3; 4; 7] 2 1 (2 * 2) = inl ab'
    /\ ab' = take 1 [9; 1; 2; 3; 4; 7]
             ++ TypedArray.rev_chunks 2 2
                  (take (2 * 2) (drop 1 [9; 1; 2; 3; 4; 7]))
             ++ drop (1 + 2 * 2) [9; 1; 2; 3; 4; 7]
    /\ length ab' = length [9; 1; 2; 3; 4; 7]
    /\ TypedArray.swapEndian ab' 2 1 (2 * 2) = inl [9; 1; 2; 3; 4; 7].
Proof.
  apply (swapEndian_involutive [9; 1; 2; 3; 4; 7] 2 1 2);
    [left; reflexivity | cbn; lia].
Defined.

(** ** [encodeOne] on numbers *)

Lemma new_Encoder_fields (o : EncodingOptions) (e : Encoder) :
  new_Encoder o = inl e -> stream e = [] /\ canonical e = false.
Proof.
  unfold new_Encoder. destruct (opt_canonical o) eqn:Hc; [discriminate|].
  intros H. inversion H. now split.
Qed.

(** X30.  [encodeOne] on a number that is not an integer of the safe
    range: with [canonical] it throws, the constructor refusing the
    option; otherwise it returns one byte of major type 7 and a payload
    that [parseCBORfloat] reads back as the same number, whatever the
    other options. *)
Theorem encodeOne_float (x : number) (o : EncodingOptions) :
  valid x = true ->
  is_integral x = false \/ to_Z x < - 2 ^ 53 \/ 2 ^ 53 <= to_Z x ->
  if opt_canonical o
  then encodeOne (JNumber x) o = inr "canonical mode not implemented."%string
  else
    exists ib payload,
      encodeOne (JNumber x) o = inl (ib :: payload)
      /\ Z.shiftr ib 5 = MT.SIMPLE_FLOAT
      /\ Util.parseCBORfloat payload = inl x.
Proof.
  intros Hv Hx. unfold encodeOne.
  destruct (opt_canonical o) eqn:Hc.
  - unfold new_Encoder. now rewrite Hc.
  - destruct (new_Encoder o) as [e|msg] eqn:He;
      [|unfold new_Encoder in He; rewrite Hc in He; discriminate].
    destruct (new_Encoder_fields o e He) as [Hs Hcan].
    assert (H : exists ib payload,
               emits e (_pushNumber x e) (ib :: payload)
               /\ Z.shiftr ib 5 = MT.SIMPLE_FLOAT
               /\ Util.parseCBORfloat payload = inl x).
    { destruct Hx as [Hi|Hbig].
      - now apply pushNumber_not_integer.
      - apply pushNumber_beyond_safe; try assumption.
        destruct x as [s|s| |s m ex]; try reflexivity; cbn in Hbig; lia. }
    destruct H as (ib & payload & Hem & Hmt & Hp).
    exists ib, payload. split; [|now split].
    rewrite encodeAll_cons. unfold bind.
    change (pushAny (JNumber x)) with (_pushNumber x).
    unfold emits in Hem. rewrite Hem, Hs. reflexivity.
Qed.

Lemma encodeOne_float_witness :
  exists ib payload,
    encodeOne (JNumber (S754_finite false 6755399441055744 (-52)))
              (mkOptions false None true true DetectTrue true)
    = inl (ib :: payload)
    /\ Z.shiftr ib 5 = MT.SIMPLE_FLOAT
    /\ Util.parseCBORfloat payload
       = inl (S754_finite false 6755399441055744 (-52)).
Proof.
  apply (encodeOne_float (S754_finite false 6755399441055744 (-52))
           (mkOptions false None true true DetectTrue true));
    [reflexivity | left; reflexivity].
Defined.
